(** * The trie-proof circuits of daoleaks, embedded and verified

    The Noir sources under [apps/circuits/src/trie_proof] (the RLP decoder
    [rlp.nr], the byte utilities [utils.nr], the node resolvers and the two
    proof drivers) are translated function by function.  Noir is a total,
    first-order language over fixed-size arrays whose only effect is a failed
    constraint, so every function becomes a Rocq function into [option]:
    [None] is a failed [assert], an index outside its array, or an unsigned
    overflow/underflow of a checked operator.  Loops keep their compile-time
    bound and their mutable variables become the loop state. *)

From Stdlib Require Import NArith ZArith Lia Strings.Byte.
From stdpp Require Import base option list numbers.

#[local] Open Scope N_scope.

Ltac Zify.zify_post_hook ::= Z.to_euclidean_division_equations.

(** ** Noir's integers, fields and arrays *)

Module Noir.

(** [assert(c)] *)
Definition assert (c : bool) : option unit := if c then Some () else None.

(** [b as u64] for a boolean [b] *)
Definition b2n (b : bool) : N := if b then 1 else 0.

(** Checked unsigned operators at width [w]: the constraint fails when the
    mathematical result leaves the type. *)
Definition wadd (w a b : N) : option N :=
  let r := a + b in if r <? 2 ^ w then Some r else None.

Definition wsub (a b : N) : option N :=
  if b <=? a then Some (a - b) else None.

Definition wmul (w a b : N) : option N :=
  let r := a * b in if r <? 2 ^ w then Some r else None.

(** [x as uW]: truncation to the low [w] bits *)
Definition cast (w x : N) : N := x mod 2 ^ w.

(** [std::wrapping_sub]: [(x + 2^128 - y)] computed in the field, then
    truncated to the operand type. *)
Definition wrapping_sub (w x y : N) : N := (x + 2 ^ 128 - y) mod 2 ^ w.

(** The native field (BN254 scalar field) and its arithmetic *)
Definition Fr : N :=
  21888242871839275222246405745257275088548364400416034343698204186575808495617.

Definition fadd (a b : N) : N := (a + b) mod Fr.
Definition fmul (a b : N) : N := (a * b) mod Fr.
Definition fsub (a b : N) : N := (a + (Fr - b mod Fr)) mod Fr.

(** [x as Field] *)
Definition as_field (x : N) : N := x mod Fr.

(** Bytes: [u8] values are [Byte.byte]; [bz] reads one as a number and [zb]
    stores a number that fits. *)
Definition bz (b : byte) : N := Byte.to_N b.

Definition zb (n : N) : byte :=
  match Byte.of_N n with Some b => b | None => x00 end.

(** Arrays are lists of the array's length; reading and writing outside the
    array fails. *)
Definition len {A} (l : list A) : N := N.of_nat (length l).

Definition get {A} (l : list A) (i : N) : option A := l !! N.to_nat i.

Definition set {A} (l : list A) (i : N) (v : A) : option (list A) :=
  if i <? len l then Some (<[N.to_nat i := v]> l) else None.

(** [for i in lo..lo+n { body }] over a loop state *)
Fixpoint for_loop {S} (n : nat) (i : N) (body : N → S → option S) (s : S)
  : option S :=
  match n with
  | O => Some s
  | S n' => s' ← body i s; for_loop n' (N.succ i) body s'
  end.

(** The states the loop passes through, the initial one first. *)
Fixpoint for_trace {S} (n : nat) (i : N) (body : N → S → option S) (s : S)
  : list S :=
  s :: match n with
       | O => []
       | S n' => match body i s with
                 | Some s' => for_trace n' (N.succ i) body s'
                 | None => []
                 end
       end.

End Noir.

Import Noir.

#[global] Instance byte_eq_decision : EqDecision byte.
Proof.
  intros a b. destruct (decide (Byte.to_N a = Byte.to_N b)) as [E|E].
  - left. apply (f_equal Byte.of_N) in E. rewrite !Byte.of_to_N in E. congruence.
  - right. congruence.
Defined.

(** ** utils.nr *)

Module Utils.

(** [memcpy(dest, src, offset)]: [dest[i] = src[offset + i]] for every index
    of [dest]; the sum is a [u32]. *)
Definition memcpy (dest src : list byte) (offset : N) : option (list byte) :=
  for_loop (length dest) 0
    (λ i dest, j ← wadd 32 offset i; x ← get src j; set dest i x) dest.

(** [assert_subarray(subarray, array, len, offset)] *)
Definition assert_subarray (subarray array : list byte) (len offset : N)
  : option unit :=
  for_loop (length subarray) 0
    (λ i _, if i <? len
            then a ← get subarray i; j ← wadd 32 offset i; b ← get array j;
                 assert (bool_decide (a = b))
            else Some ()) ().

(** [byte_to_nibbles(b)]: [(b >> 4, b - 16*(b >> 4))] *)
Definition byte_to_nibbles (b : byte) : byte * byte :=
  let upper := N.shiftr (bz b) 4 in
  let lower := bz b - 16 * upper in
  (zb upper, zb lower).

(** [left_byte_shift(input, n)] *)
Definition left_byte_shift (input : list byte) (n : N) : option (list byte) :=
  let N_ := len input in
  for_loop (length input) 0
    (λ i out,
       s ← wadd 32 i n;
       let index_ind := b2n (cast 32 s <? cast 32 N_) in
       x ← get input (index_ind * s);
       set out i (zb (cast 8 index_ind * bz x)))
    (replicate (length input) x00).

(** [byte_value(in_value)] *)
Definition byte_value (in_value : list byte) : option (list byte * N) :=
  let N_ := len in_value in
  value_length ← for_loop (length in_value) 0
    (λ i value_length,
       let num_bytes_ind := b2n (value_length =? 0) in
       x ← get in_value i;
       let byte_ind := b2n (negb (bz x =? 0)) in
       d ← wsub N_ i;
       Some (num_bytes_ind * byte_ind * d + (1 - num_bytes_ind) * value_length))
    0;
  n ← wsub N_ value_length;
  value ← left_byte_shift in_value n;
  Some (value, value_length).

End Utils.

(** ** rlp.nr *)

(** [struct RLP_Header] *)
Module RLP_Header.
Record t : Type := new { offset : N; length : N; data_type : N }.
End RLP_Header.

(** [struct RLP_List<NUM_FIELDS>]: three parallel arrays and a field count *)
Module RLP_List.
Record t : Type :=
  new { offset : list N; length : list N; data_type : list N; num_fields : N }.
End RLP_List.

Module Rlp.

Definition MAX_LEN_IN_BYTES : N := 2.
Definition STRING : N := 0.
Definition LIST : N := 1.

(** [strict_if(pred, x, y)], over the field *)
Definition strict_if (pred : bool) (x y : N) : N :=
  let pred_f := b2n pred in
  fadd (fmul pred_f x) (fmul (fsub 1 pred_f) y).

(** [data_len(arr, lenlen)].  The accumulator stays below [2^16] (at most two
    bytes are folded in), so its [u64] arithmetic is written directly. *)
Definition data_len (arr : list byte) (lenlen : N) : option N :=
  _ ← assert (lenlen <=? MAX_LEN_IN_BYTES);
  n1 ← wsub (len arr) 1;
  let loop_len_ind := b2n (MAX_LEN_IN_BYTES <? n1) in
  let loop_len :=
    cast 64 (fsub (fadd (fmul loop_len_ind (fsub MAX_LEN_IN_BYTES n1)) (len arr)) 1) in
  for_loop (N.to_nat loop_len) 0
    (λ i out,
       let len_len_ind := b2n (cast 32 i <? cast 32 lenlen) in
       j ← wadd 64 i 1;
       x ← get arr j;
       Some (len_len_ind * (256 * out + bz x) + (1 - len_len_ind) * out))
    0.

(** [decode_len(arr)].  Both arms of every [strict_if] are evaluated, so
    [1 + prefix] (a [u8] sum) and [data_len] run for every prefix. *)
Definition decode_len (arr : list byte) : option RLP_Header.t :=
  prefix ← get arr 0;
  let p := bz prefix in
  let prefix_ind1 := p <? 0x80 in
  let prefix_ind2 := p <? 0xb8 in
  let prefix_ind3 := p <? 0xc0 in
  let prefix_ind4 := p <? 0xf8 in
  p1 ← wadd 8 1 p;
  let offset :=
    cast 64
      (strict_if prefix_ind1 0
         (strict_if prefix_ind2 1
            (strict_if prefix_ind3 (wrapping_sub 8 p1 0xb7)
               (strict_if prefix_ind4 1 (wrapping_sub 8 p1 0xf7))))) in
  let lenlen :=
    b2n prefix_ind3 * (1 - b2n prefix_ind2) * wrapping_sub 8 p 0xb7
    + (1 - b2n prefix_ind4) * wrapping_sub 8 p 0xf7 in
  dl ← data_len arr lenlen;
  let length :=
    cast 64
      (strict_if (lenlen =? 0)
         (strict_if prefix_ind1 1
            (strict_if prefix_ind2 (wrapping_sub 8 p 0x80) (wrapping_sub 8 p 0xc0)))
         dl) in
  let data_type := b2n (0xc0 <=? p) in
  Some (RLP_Header.new offset length data_type).

(** [decode0(input)] *)
Definition decode0 (input : list byte) : option (N * N) :=
  h ← decode_len input;
  total_len ← wadd 64 (RLP_Header.length h) (RLP_Header.offset h);
  _ ← assert (RLP_Header.data_type h =? STRING);
  _ ← assert (total_len <=? len input);
  Some (RLP_Header.offset h, RLP_Header.length h).

(** [take_dot_drop::<T, N, M>(arr, n)]: [M] elements from index [n], reading
    [arr[0]] wherever the index leaves the array. *)
Definition take_dot_drop {A} (M : nat) (arr : list A) (n : N) : option (list A) :=
  a0 ← get arr 0;
  for_loop M 0
    (λ i out,
       s ← wadd 64 i n;
       let j := b2n (s <? len arr) * s in
       x ← get arr j;
       set out i x)
    (replicate M a0).

(** The mutable variables of the two list decoders:
    [(offset, num_fields, dec_off, dec_len, dec_type)]. *)
Definition dec_state : Type := N * N * list N * list N * list N.

(** One iteration of [decode1]'s loop. *)
Definition decode1_body (input : list byte) (total_len : N)
    (i : N) (st : dec_state) : option dec_state :=
  let '(offset, num_fields, dec_off, dec_len, dec_type) := st in
  let loop_ind := b2n (negb (offset =? total_len)) in
  header ← take_dot_drop (N.to_nat (MAX_LEN_IN_BYTES + 1)) input offset;
  fh ← decode_len header;
  let field_off := RLP_Header.offset fh in
  let field_len := RLP_Header.length fh in
  let field_type := RLP_Header.data_type fh in
  total_field_len ← wadd 64 field_off field_len;
  o ← wadd 64 offset ((1 - field_type) * field_off);
  dec_off ← set dec_off i (loop_ind * o);
  l ← wadd 64 field_len (field_type * field_off);
  dec_len ← set dec_len i (loop_ind * l);
  dec_type ← set dec_type i (loop_ind * field_type);
  offset ← wadd 64 offset (loop_ind * total_field_len);
  num_fields ← wadd 64 num_fields loop_ind;
  Some (offset, num_fields, dec_off, dec_len, dec_type).

(** [decode1::<N, NUM_FIELDS>(input)] *)
Definition decode1 (NUM_FIELDS : nat) (input : list byte) : option RLP_List.t :=
  h ← decode_len input;
  let offset := RLP_Header.offset h in
  total_len ← wadd 64 (RLP_Header.length h) offset;
  _ ← assert (RLP_Header.data_type h =? LIST);
  _ ← assert (total_len <=? len input);
  let zeros := replicate NUM_FIELDS 0 in
  '(offset, num_fields, dec_off, dec_len, dec_type) ←
    for_loop NUM_FIELDS 0 (decode1_body input total_len)
      (offset, 0, zeros, zeros, zeros);
  _ ← assert (total_len =? offset);
  Some (RLP_List.new dec_off dec_len dec_type num_fields).

(** One iteration of [decode1_small_lis]'s loop. *)
Definition decode1_small_lis_body (input : list byte) (total_len : N)
    (i : N) (st : dec_state) : option dec_state :=
  let '(offset, num_fields, dec_off, dec_len, dec_type) := st in
  let loop_ind := b2n (negb (offset =? total_len)) in
  header ← get input offset;
  _ ← assert (bz header <? 0xb8);
  let field_type := STRING in
  let single_byte_ind := b2n (bz header <? 0x80) in
  let field_off := 1 - single_byte_ind in
  let field_len :=
    single_byte_ind * 1 + (1 - single_byte_ind) * wrapping_sub 8 (bz header) 0x80 in
  total_field_len ← wadd 64 field_off field_len;
  o ← wadd 64 offset field_off;
  dec_off ← set dec_off i (loop_ind * o);
  dec_len ← set dec_len i (loop_ind * field_len);
  dec_type ← set dec_type i (loop_ind * field_type);
  offset ← wadd 64 offset (loop_ind * total_field_len);
  num_fields ← wadd 64 num_fields loop_ind;
  Some (offset, num_fields, dec_off, dec_len, dec_type).

(** [decode1_small_lis::<N, NUM_FIELDS>(input)] *)
Definition decode1_small_lis (NUM_FIELDS : nat) (input : list byte)
  : option RLP_List.t :=
  h ← decode_len input;
  let offset := RLP_Header.offset h in
  total_len ← wadd 64 (RLP_Header.length h) offset;
  _ ← assert (RLP_Header.data_type h =? LIST);
  _ ← assert (total_len <=? len input);
  let zeros := replicate NUM_FIELDS 0 in
  '(offset, num_fields, dec_off, dec_len, dec_type) ←
    for_loop NUM_FIELDS 0 (decode1_small_lis_body input total_len)
      (offset, 0, zeros, zeros, zeros);
  _ ← assert (total_len =? offset);
  Some (RLP_List.new dec_off dec_len dec_type num_fields).

End Rlp.

(** ** const.nr *)

Module Const.

(** Modelled from the spec: [const.nr] is not among the sources; the values
    are the configuration constants the spec enumerates ([KEY_LENGTH = 32],
    [NIBBLE_LENGTH = 64], [MAX_NUM_FIELDS = 17], [MAX_TRIE_NODE_LENGTH = 532],
    [MAX_STORAGE_VALUE_LENGTH = 32], [BRANCH = 0], [LEAF = 1]).  The spec gives
    no number for [MAX_ACCOUNT_STATE_LENGTH]; the state verifier takes it as a
    parameter. *)
Definition KEY_LENGTH : N := 32.

(** Modelled from the spec: nibbles of a 32-byte key. *)
Definition NIBBLE_LENGTH : N := 64.

(** Modelled from the spec: fields of a branch node. *)
Definition MAX_NUM_FIELDS : N := 17.

(** Modelled from the spec: bytes of one padded node window. *)
Definition MAX_TRIE_NODE_LENGTH : N := 532.

(** Modelled from the spec: bytes of a storage value. *)
Definition MAX_STORAGE_VALUE_LENGTH : N := 32.

(** Modelled from the spec: node type returned for a branch or extension. *)
Definition BRANCH : N := 0.

(** Modelled from the spec: node type returned for a leaf. *)
Definition LEAF : N := 1.

End Const.

Import Const.

(** [struct TrieProof<KEY_LEN, PROOF_LEN, MAX_VALUE_LEN>] *)
Module TrieProof.
Record t : Type :=
  new { key : list byte; proof : list byte; depth : N; value : list byte }.
End TrieProof.

(** ** The node resolvers and the proof drivers

    [std::hash::keccak256(input, message_size)] is a primitive of Noir's
    standard library; the development is parametric in it. *)

Module Node.

Section WithHash.

Variable keccak256 : list byte → N → list byte.

(** [verify_node_hash(node, hash)] *)
Definition verify_node_hash (node hash : list byte) : option bool :=
  rlp_header ← Rlp.decode_len node;
  node_length ← wadd 64 (RLP_Header.offset rlp_header) (RLP_Header.length rlp_header);
  let in_range := b2n (cast 32 (len node) <? cast 32 node_length) in
  let safe_length := in_range * len node + (1 - in_range) * node_length in
  let node_hash := keccak256 node (cast 32 safe_length) in
  Some (bool_decide (node_hash = hash)).

(** [key_as_nibbles::<KEY_LEN, NIB_LEN>(key)] *)
Definition key_as_nibbles (NIB_LEN : N) (key : list byte) : option (list byte) :=
  k2 ← wmul 32 2 (len key);
  _ ← assert (NIB_LEN =? k2);
  for_loop (length key) 0
    (λ i nibkey,
       x ← get key i;
       let nibs := Utils.byte_to_nibbles x in
       i2 ← wmul 32 2 i;
       nibkey ← set nibkey i2 nibs.1;
       i21 ← wadd 32 i2 1;
       set nibkey i21 nibs.2)
    (replicate (N.to_nat NIB_LEN) x00).

(** [compact_decode::<MAX_ENC_LEN, NIB_LEN>(input, length)].  The loop state is
    [(nibble, prev_nibbles)]; the nibble mixes are sums of products of values
    below 16. *)
Definition compact_decode (NIB_LEN : N) (input : list byte) (length : N)
  : option (list byte * N) :=
  let MAX_ENC_LEN := len input in
  m2 ← wmul 32 (cast 32 2) (cast 32 MAX_ENC_LEN);
  _ ← assert (m2 <=? cast 32 (NIB_LEN + 2));
  x0 ← get input 0;
  let prev_nibbles := Utils.byte_to_nibbles x0 in
  let first_nibble := bz prev_nibbles.1 in
  let parity := cast 1 first_nibble in
  _ ← assert (first_nibble <? 4);
  _ ← assert (cast 8 (1 - parity) * bz prev_nibbles.2 =? 0);
  n ← wsub MAX_ENC_LEN 1;
  '(nibble, _) ← for_loop (N.to_nat n) 0
    (λ i '(nibble, prev_nibbles),
       i1 ← wadd 32 i 1;
       x ← get input i1;
       let cur_nibbles := Utils.byte_to_nibbles x in
       i2 ← wmul 32 2 i;
       nibble ← set nibble i2
         (zb (cast 8 parity * bz prev_nibbles.2 + (1 - cast 8 parity) * bz cur_nibbles.1));
       i21 ← wadd 32 i2 1;
       nibble ← set nibble i21
         (zb (cast 8 parity * bz cur_nibbles.1 + (1 - cast 8 parity) * bz cur_nibbles.2));
       Some (nibble, cur_nibbles))
    (replicate (N.to_nat NIB_LEN) x00, prev_nibbles);
  l2 ← wmul 64 2 length;
  l2p ← wadd 64 l2 (cast 64 parity);
  out_length ← wsub l2p 2;
  _ ← assert (cast 32 out_length <=? cast 32 NIB_LEN);
  Some (nibble, out_length).

(** [resolve2::<N, NUM_FIELDS, MAX_VALUE_LEN>(node, rlp_list, key, key_ptr)] *)
Definition resolve2 (MAX_VALUE_LEN : N) (node : list byte) (rlp_list : RLP_List.t)
    (key : list byte) (key_ptr : N) : option (N * list byte * N * N) :=
  _ ← assert (RLP_List.num_fields rlp_list =? 2);
  off0 ← get (RLP_List.offset rlp_list) 0;
  first_slot ← Rlp.take_dot_drop (N.to_nat (1 + NIBBLE_LENGTH / 2)) node off0;
  len0 ← get (RLP_List.length rlp_list) 0;
  '(nib, niblen) ← compact_decode NIBBLE_LENGTH first_slot len0;
  room ← wsub NIBBLE_LENGTH key_ptr;
  _ ← assert (cast 32 niblen <=? cast 32 room);
  _ ← for_loop (N.to_nat NIBBLE_LENGTH) 0
    (λ i _, if cast 32 i <? cast 32 niblen
            then a ← get nib i; j ← wadd 64 key_ptr i; b ← get key j;
                 assert (bool_decide (a = b))
            else Some ()) ();
  value_length ← get (RLP_List.length rlp_list) 1;
  _ ← assert (cast 32 value_length <=? cast 32 MAX_VALUE_LEN);
  key_ptr ← wadd 64 key_ptr niblen;
  off1 ← get (RLP_List.offset rlp_list) 1;
  e ← wadd 64 off1 MAX_VALUE_LEN;
  _ ← assert (cast 32 e <=? cast 32 (len node));
  value ← for_loop (N.to_nat MAX_VALUE_LEN) 0
    (λ i value, j ← wadd 64 off1 i; x ← get node j; set value i x)
    (replicate (N.to_nat MAX_VALUE_LEN) x00);
  fs0 ← get first_slot 0;
  let node_type_nibble := N.shiftr (bz fs0) 4 in
  Some (b2n (1 <? node_type_nibble), value, value_length, key_ptr).

(** [resolve17::<N, NUM_FIELDS>(node, rlp_list, key, key_ptr)] *)
Definition resolve17 (node : list byte) (rlp_list : RLP_List.t)
    (key : list byte) (key_ptr : N) : option (list byte * N * N) :=
  _ ← assert (RLP_List.num_fields rlp_list =? 17);
  _ ← for_loop 16 0
    (λ i _, l ← get (RLP_List.length rlp_list) i;
            assert (fmul (as_field l) (fsub (as_field l) (as_field KEY_LENGTH)) =? 0)) ();
  l16 ← get (RLP_List.length rlp_list) 16;
  _ ← assert (l16 =? 0);
  cur_nibble ← get key key_ptr;
  resolved_key_length ← get (RLP_List.length rlp_list) (bz cur_nibble);
  _ ← assert (resolved_key_length =? KEY_LENGTH);
  _ ← assert (cast 32 key_ptr <? cast 32 NIBBLE_LENGTH);
  key_ptr ← wadd 64 key_ptr 1;
  nibble_offset ← get (RLP_List.offset rlp_list) (bz cur_nibble);
  resolved_key ← for_loop (N.to_nat KEY_LENGTH) 0
    (λ j resolved_key, k ← wadd 64 nibble_offset j; x ← get node k; set resolved_key j x)
    (replicate (N.to_nat KEY_LENGTH) x00);
  Some (resolved_key, resolved_key_length, key_ptr).

(** [resolve_nibble32(key, key_ptr, node)] *)
Definition resolve_nibble32 (key : list byte) (key_ptr : N) (node : list byte)
  : option (N * list byte * N) :=
  rlp_list ← Rlp.decode1_small_lis (N.to_nat MAX_NUM_FIELDS) node;
  '(node_type, resolved_key, resolved_key_length, key_ptr) ←
    (if RLP_List.num_fields rlp_list =? 2
     then resolve2 KEY_LENGTH node rlp_list key key_ptr
     else
       l16 ← get (RLP_List.length rlp_list) 16;
       _ ← assert (l16 =? 0);
       '(resolved_key, resolved_key_length, key_ptr) ← resolve17 node rlp_list key key_ptr;
       Some (BRANCH, resolved_key, resolved_key_length, key_ptr));
  _ ← assert ((node_type =? LEAF) || (resolved_key_length =? KEY_LENGTH));
  Some (node_type, resolved_key, key_ptr).

(** [verify_internal_node(&mut extracted_hash, &mut key_ptr, key_nibbles, path,
    depth, cur_depth)]: the two references are returned. *)
Definition verify_internal_node (extracted_hash : list byte) (key_ptr : N)
    (key_nibbles path : list byte) (depth cur_depth : N) : option (list byte * N) :=
  d1 ← wsub depth 1;
  let in_range := cast 8 cur_depth <? cast 8 d1 in
  let cur_depth_or_0 := if in_range then cur_depth else 0 in
  off ← wmul 64 cur_depth_or_0 MAX_TRIE_NODE_LENGTH;
  node ← Utils.memcpy (replicate (N.to_nat MAX_TRIE_NODE_LENGTH) x00) path (cast 32 off);
  ok ← verify_node_hash node extracted_hash;
  _ ← assert (negb in_range || ok);
  '(node_type, resolved_key, key_pointer) ←
    resolve_nibble32 key_nibbles (if in_range then key_ptr else 0) node;
  _ ← assert (negb in_range || negb (node_type =? LEAF));
  Some (if in_range then resolved_key else extracted_hash,
        if in_range then key_pointer else key_ptr).

End WithHash.

End Node.

(** ** storage_proof.nr and the state-proof driver *)

Module Proof.

Section WithHash.

Variable keccak256 : list byte → N → list byte.

(** The body of the drivers' loop over the internal nodes. *)
Definition internal_step (key_nibbles path : list byte) (depth : N)
    (i : N) (st : list byte * N) : option (list byte * N) :=
  Node.verify_internal_node keccak256 st.1 st.2 key_nibbles path depth i.

(** [verify_storage_leaf_node(self, hash, key_len, key_ptr, key_nibbles)] *)
Definition verify_storage_leaf_node (self : TrieProof.t) (hash : list byte)
    (key_len key_ptr : N) (key_nibbles : list byte) : option unit :=
  '(value, value_length) ← Utils.byte_value (TrieProof.value self);
  d1 ← wsub (TrieProof.depth self) 1;
  off ← wmul 32 (cast 32 d1) MAX_TRIE_NODE_LENGTH;
  leaf_node ← Utils.memcpy (replicate (N.to_nat MAX_TRIE_NODE_LENGTH) x00)
                 (TrieProof.proof self) off;
  ok ← Node.verify_node_hash keccak256 leaf_node hash;
  _ ← assert ok;
  rlp_list ← Rlp.decode1_small_lis 2 leaf_node;
  '(node_type, extracted_value, extracted_value_length, terminal_key_ptr) ←
    Node.resolve2 33 leaf_node rlp_list key_nibbles key_ptr;
  _ ← assert (node_type =? LEAF);
  bound ← wadd 32 (cast 32 MAX_STORAGE_VALUE_LENGTH) 1;
  _ ← assert (cast 32 extracted_value_length <=? bound);
  k2 ← wmul 64 2 key_len;
  _ ← assert (terminal_key_ptr =? k2);
  '(dec_value_offset, dec_value_len) ← Rlp.decode0 extracted_value;
  _ ← assert (dec_value_len =? value_length);
  Utils.assert_subarray value extracted_value value_length (cast 32 dec_value_offset).

(** [verify_storage_root(self, storage_root)] *)
Definition verify_storage_root (self : TrieProof.t) (storage_root : list byte)
  : option bool :=
  let path := TrieProof.proof self in
  _ ← assert (cast 32 (len path) mod cast 32 MAX_TRIE_NODE_LENGTH =? 0);
  let key := keccak256 (TrieProof.key self) 32 in
  key_nibbles ← Node.key_as_nibbles NIBBLE_LENGTH key;
  let depth := TrieProof.depth self in
  n ← wsub (len path / MAX_TRIE_NODE_LENGTH) 1;
  '(extracted_hash, key_ptr) ←
    for_loop (N.to_nat n) 0 (internal_step key_nibbles path depth) (storage_root, 0);
  _ ← verify_storage_leaf_node self extracted_hash (len key) key_ptr key_nibbles;
  Some true.

(** [verify_state_leaf_node(self, extracted_hash, key_len, key_ptr,
    key_nibbles)], with the constant [MAX_ACCOUNT_STATE_LENGTH] of [const.nr]
    and the generic [MAX_VALUE_LEN] of the proof as parameters. *)
Definition verify_state_leaf_node (MAX_ACCOUNT_STATE_LENGTH MAX_VALUE_LEN : N)
    (self : TrieProof.t) (extracted_hash : list byte)
    (key_len key_ptr : N) (key_nibbles : list byte) : option unit :=
  '(value, value_length) ← Utils.byte_value (TrieProof.value self);
  d1 ← wsub (TrieProof.depth self) 1;
  off ← wmul 32 (cast 32 d1) MAX_TRIE_NODE_LENGTH;
  leaf_node ← Utils.memcpy (replicate (N.to_nat MAX_TRIE_NODE_LENGTH) x00)
                 (TrieProof.proof self) off;
  ok ← Node.verify_node_hash keccak256 leaf_node extracted_hash;
  _ ← assert ok;
  rlp_list ← Rlp.decode1 2 leaf_node;
  '(node_type, extracted_value, extracted_value_length, terminal_key_ptr) ←
    Node.resolve2 MAX_ACCOUNT_STATE_LENGTH leaf_node rlp_list key_nibbles key_ptr;
  _ ← assert (node_type =? LEAF);
  _ ← assert (cast 32 extracted_value_length <=? cast 32 MAX_VALUE_LEN);
  k2 ← wmul 64 2 key_len;
  _ ← assert (terminal_key_ptr =? k2);
  v0 ← get extracted_value 0;
  _ ← assert (0xc0 <=? bz v0);
  _ ← assert (extracted_value_length =? value_length);
  Utils.assert_subarray value extracted_value value_length 0.

(** [verify_state_root(self, state_root)] *)
Definition verify_state_root (MAX_ACCOUNT_STATE_LENGTH : N)
    (self : TrieProof.t) (state_root : list byte) : option bool :=
  let path := TrieProof.proof self in
  _ ← assert (cast 32 (len path) mod cast 32 MAX_TRIE_NODE_LENGTH =? 0);
  let key := keccak256 (TrieProof.key self) 20 in
  key_nibbles ← Node.key_as_nibbles NIBBLE_LENGTH key;
  let depth := TrieProof.depth self in
  n ← wsub (len path / MAX_TRIE_NODE_LENGTH) 1;
  '(extracted_hash, key_ptr) ←
    for_loop (N.to_nat n) 0 (internal_step key_nibbles path depth) (state_root, 0);
  _ ← verify_state_leaf_node MAX_ACCOUNT_STATE_LENGTH (len (TrieProof.value self))
        self extracted_hash (len key) key_ptr key_nibbles;
  Some true.

End WithHash.

End Proof.

(** ** templates/template.main.nr

    The circuit's entry point.  [{{depth}}] is a parameter of the template and
    [{{proof_length}}] the length of [storage_proof];
    [std::ecdsa_secp256k1::verify_signature] is, like [keccak256], a primitive
    of the standard library.  The pieces of [main] are named after the
    variables they compute. *)

Module Main.

Section WithPrimitives.

Variable keccak256 : list byte → N → list byte.

Variable verify_signature : list byte → list byte → list byte → list byte → bool.

(** The two halves [(pub_key_x, pub_key_y)] of the public key. *)
Definition pub_key_xy (public_key : list byte) : option (list byte * list byte) :=
  pub_key_x ← for_loop 32 0
    (λ i a, x ← get public_key i; set a i x) (replicate 32 x00);
  pub_key_y ← for_loop 32 0
    (λ i a, j ← wadd 32 i 32; x ← get public_key j; set a i x) (replicate 32 x00);
  Some (pub_key_x, pub_key_y).

(** [for i in 0..28 { assert(padded_array_index[i] == 0) }] *)
Definition index_check (padded_array_index : list byte) : option unit :=
  for_loop 28 0 (λ i _, x ← get padded_array_index i; assert (bz x =? 0)) ().

(** [padded_account_address]: bytes 12 to 31 of the hash of the public key,
    after twelve zero bytes. *)
Definition padded_account_address (public_key : list byte) : option (list byte) :=
  let pk_hash := keccak256 public_key 64 in
  for_loop 20 12 (λ i a, x ← get pk_hash i; set a i x) (replicate 32 x00).

(** [array_slot]: the hash of the hash of
    [padded_account_address ++ padded_mapping_slot]. *)
Definition array_slot (padded_account_address padded_mapping_slot : list byte)
  : option (list byte) :=
  pre_image ← for_loop 32 0
    (λ i a, x ← get padded_account_address i; set a i x) (replicate 64 x00);
  pre_image ← for_loop 32 0
    (λ i a, x ← get padded_mapping_slot i; j ← wadd 32 i 32; set a j x) pre_image;
  let checkpoint_account_slot := keccak256 pre_image 64 in
  Some (keccak256 checkpoint_account_slot 32).

(** [computed_key]: [array_slot + padded_array_index], added byte by byte from
    the last one with a carry; the loop state is [(computed_key, carry)] and
    the sums are [u32]. *)
Definition computed_key (array_slot padded_array_index : list byte)
  : option (list byte) :=
  '(computed_key, _) ← for_loop 32 0
    (λ i '(computed_key, carry),
       pos ← wsub 31 i;
       a ← get array_slot pos;
       b ← get padded_array_index pos;
       s ← wadd 32 (bz a) (bz b);
       sum ← wadd 32 s carry;
       computed_key ← set computed_key pos (zb (cast 8 (sum mod 256)));
       Some (computed_key, sum / 256))
    (replicate 32 x00, 0);
  Some computed_key.

(** [voting_power_gte_threshold]: the comparison of the first 28 bytes of
    [value] and [voting_power_threshold]; the loop state is
    [(votes_equal_so_far, voting_power_gte_threshold)]. *)
Definition voting_power_gte_threshold (value voting_power_threshold : list byte)
  : option bool :=
  '(_, gte) ← for_loop 28 0
    (λ i '(votes_equal_so_far, gte),
       if votes_equal_so_far : bool
       then v ← get value i;
            t ← get voting_power_threshold i;
            if bz t <? bz v then Some (false, true)
            else if bz v <? bz t then Some (false, false)
            else Some (votes_equal_so_far, gte)
       else Some (votes_equal_so_far, gte))
    (true, true);
  Some gte.

(** [main].  The proof it builds is not used: in the source the call
    [trie_proof.verify_storage_root(storage_root)] is commented out. *)
Definition main (depth : N)
    (storage_proof value storage_root padded_mapping_slot padded_array_index
     public_key message_hash signature voting_power_threshold : list byte)
  : option unit :=
  '(pub_key_x, pub_key_y) ← pub_key_xy public_key;
  let verified := verify_signature pub_key_x pub_key_y signature message_hash in
  _ ← assert verified;
  _ ← index_check padded_array_index;
  padded_account_address ← padded_account_address public_key;
  array_slot ← array_slot padded_account_address padded_mapping_slot;
  computed_key ← computed_key array_slot padded_array_index;
  let trie_proof := TrieProof.new computed_key storage_proof depth value in
  gte ← voting_power_gte_threshold value voting_power_threshold;
  assert gte.

End WithPrimitives.

End Main.

(** ** generateWitness.ts: the serialisers

    The functions that turn the hexadecimal strings of an [eth_getProof]
    response into the byte arrays the circuit takes.  A JavaScript string of
    one-byte characters is the list of its character codes; [Buffer.from(x,
    "hex")] decodes pairs of hexadecimal digits until the first pair that is
    not one, and drops a last unpaired character. *)

Module GenerateWitness.

(** The character ["0"] and the string ["0x"] *)
Definition char_0 : byte := zb 48.

Definition str_0x : list byte := [zb 48; zb 120].

(** [s.startsWith(pat)] *)
Fixpoint starts_with (pat s : list byte) : bool :=
  match pat, s with
  | [], _ => true
  | p :: pat', c :: s' => bool_decide (p = c) && starts_with pat' s'
  | _ :: _, [] => false
  end.

(** [s.replace(pat, "")] for a string [pat]: the first occurrence of [pat], if
    there is one, is removed. *)
Fixpoint replace_first (pat s : list byte) : list byte :=
  if starts_with pat s then drop (length pat) s
  else match s with
       | [] => []
       | c :: s' => c :: replace_first pat s'
       end.

(** [s.padEnd(n, c)] and [s.padStart(n, c)] for a one-character [c] *)
Definition padEnd (n : nat) (c : byte) (s : list byte) : list byte :=
  s ++ replicate (n - length s) c.

Definition padStart (n : nat) (c : byte) (s : list byte) : list byte :=
  replicate (n - length s) c ++ s.

(** The value of a hexadecimal digit, in either case *)
Definition unhex (c : byte) : option N :=
  let n := bz c in
  if (48 <=? n) && (n <=? 57) then Some (n - 48)
  else if (97 <=? n) && (n <=? 102) then Some (n - 87)
  else if (65 <=? n) && (n <=? 70) then Some (n - 55)
  else None.

(** [Array.from(Buffer.from(x, "hex"))] *)
Fixpoint hex_decode (fuel : nat) (x : list byte) : list byte :=
  match fuel with
  | O => []
  | S fuel' =>
      match x with
      | a :: b :: rest =>
          match unhex a, unhex b with
          | Some hi, Some lo => zb (16 * hi + lo) :: hex_decode fuel' rest
          | _, _ => []
          end
      | _ => []
      end
  end.

Definition buffer_from_hex (x : list byte) : list byte :=
  hex_decode (length x / 2) x.

(** [serialise(val, pad)] *)
Definition serialise (val : list byte) (pad : bool) : list byte :=
  let x := replace_first str_0x val in
  let x := if pad && (length x <? 64)%nat then padStart 64 char_0 x else x in
  buffer_from_hex x.

(** The loop of [serialiseAccountProof] and of [createSerialsFromProof] that
    builds [proofPath] *)
Definition proof_path (proof : list (list byte)) : list byte :=
  foldl (λ proofPath layer,
           let layer := padEnd (N.to_nat MAX_TRIE_NODE_LENGTH * 2) char_0
                          (replace_first str_0x layer) in
           proofPath ++ layer)
    [] proof.

(** [serialiseAccountProof(proof)] *)
Definition serialiseAccountProof (proof : list (list byte)) : list byte :=
  buffer_from_hex (proof_path proof).

(** [type StorageProof] *)
Record StorageProof : Type :=
  { storage_proof : list byte; storage_key : list byte;
    value : list byte; storage_root : list byte }.

(** One entry of [proofResponse.storageProof] *)
Record ProofItem : Type :=
  { item_key : list byte; item_value : list byte; item_proof : list (list byte) }.

(** [createSerialsFromProof(proofResponse)] *)
Definition createSerialsFromProof (storageHash : list byte)
    (storageProof : list ProofItem) : list StorageProof :=
  (λ proofItem,
     let proofPath := proof_path (item_proof proofItem) in
     {| storage_proof := serialise proofPath false;
        storage_key := serialise (item_key proofItem) false;
        value := serialise (item_value proofItem) true;
        storage_root := serialise storageHash false |}) <$> storageProof.

End GenerateWitness.

(** ** Keccak-256, for the closed examples

    The theorems below hold for every hash function; the examples run the
    circuits with the hash they are compiled with.  This is the Keccak-f[1600]
    sponge at rate 136 with the original Keccak padding, over 64-bit lanes. *)

Module Keccak.

Definition mask64 : N := 2 ^ 64 - 1.

Definition rotl (x n : N) : N :=
  N.lor (N.land (N.shiftl x n) mask64) (N.shiftr x (64 - n)).

Definition lane (st : list N) (i : nat) : N := default 0 (st !! i).

Definition round_constants : list N :=
  [ 0x0000000000000001; 0x0000000000008082; 0x800000000000808A;
    0x8000000080008000; 0x000000000000808B; 0x0000000080000001;
    0x8000000080008081; 0x8000000000008009; 0x000000000000008A;
    0x0000000000000088; 0x0000000080008009; 0x000000008000000A;
    0x000000008000808B; 0x800000000000008B; 0x8000000000008089;
    0x8000000000008003; 0x8000000000008002; 0x8000000000000080;
    0x000000000000800A; 0x800000008000000A; 0x8000000080008081;
    0x8000000000008080; 0x0000000080000001; 0x8000000080008008 ].

(** Lane [x + 5y] of the state moves to position [y + 5((2x + 3y) mod 5)],
    rotated by the offset of its source position. *)
Definition rotation_offsets : list N :=
  [ 0; 1; 62; 28; 27;  36; 44; 6; 55; 20;  3; 10; 43; 25; 39;
    41; 45; 15; 21; 8;  18; 2; 61; 56; 14 ].

Definition theta (st : list N) : list N :=
  let c x := N.lxor (lane st x) (N.lxor (lane st (x + 5))
               (N.lxor (lane st (x + 10)) (N.lxor (lane st (x + 15)) (lane st (x + 20))))) in
  let d x := N.lxor (c ((x + 4) mod 5)%nat) (rotl (c ((x + 1) mod 5)%nat) 1) in
  imap (λ i a, N.lxor a (d (i mod 5)%nat)) st.

Definition rho_pi (st : list N) : list N :=
  (λ j, let x := (j mod 5)%nat in
        let y := (j / 5)%nat in
        (* destination (x, y) receives source ((x + 3y) mod 5, x) *)
        let src := (((x + 3 * y) mod 5) + 5 * x)%nat in
        rotl (lane st src) (default 0 (rotation_offsets !! src))) <$> seq 0 25.

Definition chi (st : list N) : list N :=
  imap (λ i a,
          let x := (i mod 5)%nat in
          let y := (i / 5)%nat in
          let b1 := lane st ((x + 1) mod 5 + 5 * y) in
          let b2 := lane st ((x + 2) mod 5 + 5 * y) in
          N.lxor a (N.land (N.lxor b1 mask64) b2)) st.

Definition iota (rc : N) (st : list N) : list N :=
  match st with
  | a :: st' => N.lxor a rc :: st'
  | [] => []
  end.

Definition keccak_f (st : list N) : list N :=
  foldl (λ st rc, iota rc (chi (rho_pi (theta st)))) st round_constants.

(** Little-endian lanes of a block of bytes *)
Fixpoint lanes_of (fuel : nat) (bs : list N) : list N :=
  match fuel with
  | O => []
  | S fuel' =>
      foldr (λ b acc, b + 256 * acc) 0 (take 8 bs) :: lanes_of fuel' (drop 8 bs)
  end.

Definition bytes_of_lane (l : N) : list N :=
  (λ k, N.land (N.shiftr l (8 * N.of_nat k)) 255) <$> seq 0 8.

Definition rate : nat := 136.

Definition pad (msg : list N) : list N :=
  let q := (rate - length msg mod rate)%nat in
  if (q =? 1)%nat then msg ++ [0x81]
  else msg ++ [0x01] ++ replicate (q - 2) 0 ++ [0x80].

Fixpoint absorb (fuel : nat) (st : list N) (bs : list N) : list N :=
  match fuel with
  | O => st
  | S fuel' =>
      match bs with
      | [] => st
      | _ =>
          let block := lanes_of 17 (take rate bs) ++ replicate 8 0 in
          absorb fuel' (keccak_f (zip_with N.lxor st block)) (drop rate bs)
      end
  end.

Definition digest (msg : list N) : list N :=
  let padded := pad msg in
  let st := absorb (length padded) (replicate 25 0) padded in
  take 32 (mjoin (bytes_of_lane <$> take 4 st)).

(** [keccak256(input, message_size)]: the digest of the first [message_size]
    bytes of [input]. *)
Definition keccak256 (input : list byte) (message_size : N) : list byte :=
  zb <$> digest (bz <$> take (N.to_nat message_size) input).

End Keccak.

(** * Specification-level definitions

    The vocabulary of the statements below: none of it is executed by the
    circuits. *)

(** Number of leading zero bytes *)
Fixpoint lead_zeros (l : list byte) : nat :=
  match l with
  | [] => O
  | b :: l' => if bz b =? 0 then S (lead_zeros l') else O
  end.

(** Big-endian value of a byte string *)
Definition be_read (bs : list byte) : N := foldl (λ acc b, 256 * acc + bz b) 0 bs.

(** Byte literals *)
Definition bytes (l : list N) : list byte := zb <$> l.

(** The header table of the specification, as a function of the prefix [p]
    and of the bytes after it. *)
Definition decode_len_spec (p : N) (rest : list byte) : option RLP_Header.t :=
  if p <? 0x80 then Some (RLP_Header.new 0 1 Rlp.STRING)
  else if p <? 0xb8 then Some (RLP_Header.new 1 (p - 0x80) Rlp.STRING)
  else if p <? 0xc0 then
    if p - 0xb7 <=? 2
    then Some (RLP_Header.new (1 + (p - 0xb7))
                 (be_read (take (N.to_nat (p - 0xb7)) rest)) Rlp.STRING)
    else None
  else if p <? 0xf8 then Some (RLP_Header.new 1 (p - 0xc0) Rlp.LIST)
  else
    if p - 0xf7 <=? 2
    then Some (RLP_Header.new (1 + (p - 0xf7))
                 (be_read (take (N.to_nat (p - 0xf7)) rest)) Rlp.LIST)
    else None.

(** The nibbles of a byte string, high nibble first *)
Fixpoint flat_nibbles (l : list byte) : list byte :=
  match l with
  | [] => []
  | b :: l' =>
      (Utils.byte_to_nibbles b).1 :: (Utils.byte_to_nibbles b).2 :: flat_nibbles l'
  end.

(** The header of the item that starts at [pos]: the two lines of
    [decode1]'s loop that read and decode it. *)
Definition item_header (input : list byte) (pos : N) : option RLP_Header.t :=
  header ← Rlp.take_dot_drop (N.to_nat (Rlp.MAX_LEN_IN_BYTES + 1)) input pos;
  Rlp.decode_len header.

(** What one iteration does to the loop state, given the item's header
    [(fo, fl, ft)]. *)
Definition dec_step (total : N) (i : N) (fo fl ft : N) (st : Rlp.dec_state)
  : Rlp.dec_state :=
  let '(off, nf, o, l, t) := st in
  let ind := b2n (negb (off =? total)) in
  (off + ind * (fo + fl), nf + ind,
   <[N.to_nat i := ind * (off + (1 - ft) * fo)]> o,
   <[N.to_nat i := ind * (fl + ft * fo)]> l,
   <[N.to_nat i := ind * ft]> t).

(** Where item [k] of a decoded table starts: the first item at the payload
    offset of the list header, every other one where its predecessor's
    recorded slice ends. *)
Definition item_start (first : N) (o l : list N) (k : nat) : N :=
  match k with
  | O => first
  | S k' => default 0 (o !! k') + default 0 (l !! k')
  end.

(** The table entry [(o, l, ty)] describes the item that starts at [start]:
    a string is recorded by its payload, a nested list by its whole encoding,
    header included. *)
Definition field_ok (input : list byte) (start o l ty : N) : Prop :=
  ∃ fh, item_header input start = Some fh
        ∧ ty = RLP_Header.data_type fh
        ∧ (ty = Rlp.STRING →
           o = start + RLP_Header.offset fh ∧ l = RLP_Header.length fh)
        ∧ (ty = Rlp.LIST →
           o = start ∧ l = RLP_Header.offset fh + RLP_Header.length fh)
        ∧ (ty = Rlp.STRING ∨ ty = Rlp.LIST)
        ∧ o + l = start + RLP_Header.offset fh + RLP_Header.length fh.

(** The invariant of the decoders' loop before iteration [i]. *)
Definition dec_inv (input : list byte) (first total : N) (F : nat)
    (i : N) (st : Rlp.dec_state) : Prop :=
  let '(off, nf, o, l, t) := st in
  length o = F ∧ length l = F ∧ length t = F
  ∧ nf ≤ i ∧ (nf < i → off = total)
  ∧ off = item_start first o l (N.to_nat nf)
  ∧ (∀ k, (k < N.to_nat nf)%nat →
          ∃ ok lk tk, o !! k = Some ok ∧ l !! k = Some lk ∧ t !! k = Some tk
                      ∧ field_ok input (item_start first o l k) ok lk tk
                      ∧ item_start first o l k ≠ total)
  ∧ (∀ k, (N.to_nat nf ≤ k < F)%nat →
          o !! k = Some 0 ∧ l !! k = Some 0 ∧ t !! k = Some 0).

(** The position reached from [pos] after at most [n] items, an item's extent
    being its header plus its payload; the walk stops at the end [total] of
    the list payload. *)
Fixpoint walk_items (input : list byte) (total : N) (n : nat) (pos : N)
  : option N :=
  match n with
  | O => Some pos
  | S n' =>
      if pos =? total then Some pos
      else fh ← item_header input pos;
           walk_items input total n'
             (pos + RLP_Header.offset fh + RLP_Header.length fh)
  end.

(** Bytes a short string item takes: one for a single byte below [0x80],
    otherwise the header byte and [p - 0x80] payload bytes. *)
Definition short_extent (p : N) : N := if p <? 0x80 then 1 else 1 + (p - 0x80).

(** [short_items input stop pos k]: exactly [k] string items with header byte
    below [0xb8] tile the input from [pos] to [stop]. *)
Inductive short_items (input : list byte) (stop : N) : N → nat → Prop :=
| short_items_done : short_items input stop stop 0
| short_items_next pos b k :
    input !! N.to_nat pos = Some b → bz b < 0xb8 →
    short_items input stop (pos + short_extent (bz b)) k →
    short_items input stop pos (S k).

(** [items_reach input pos q j]: [q] is where item [j] starts, counting the
    items of any kind from [pos]. *)
Inductive items_reach (input : list byte) : N → N → nat → Prop :=
| items_reach_here pos : items_reach input pos pos 0
| items_reach_step pos fh q j :
    item_header input pos = Some fh →
    items_reach input (pos + RLP_Header.offset fh + RLP_Header.length fh) q j →
    items_reach input pos q (S j).

(** The same walk over short string items only. *)
Inductive short_reach (input : list byte) : N → N → nat → Prop :=
| short_reach_here pos : short_reach input pos pos 0
| short_reach_step pos b q j :
    input !! N.to_nat pos = Some b → bz b < 0xb8 →
    short_reach input (pos + short_extent (bz b)) q j →
    short_reach input pos q (S j).

(** The cursor values of a run: the key pointer before each iteration of the
    loop over the internal nodes and after the last, followed by the pointer
    the terminal resolver returns. *)
Definition cursor_run (keccak256 : list byte → N → list byte)
    (key_nibbles path : list byte) (depth : N) (root : list byte)
    (terminal : N) : list N :=
  (snd <$> for_trace (N.to_nat (len path / MAX_TRIE_NODE_LENGTH - 1)) 0
             (Proof.internal_step keccak256 key_nibbles path depth) (root, 0))
  ++ [terminal].

(** The lower-case hexadecimal digit of a value below 16, and the two-digit
    hexadecimal text of a byte string. *)
Definition hex_digit (n : N) : byte := zb (if n <? 10 then 48 + n else 87 + n).

Fixpoint to_hex (bs : list byte) : list byte :=
  match bs with
  | [] => []
  | b :: bs' => hex_digit (bz b / 16) :: hex_digit (bz b mod 16) :: to_hex bs'
  end.

(** The number a string of hexadecimal digits writes. *)
Definition hex_value (ds : list byte) : N :=
  foldl (λ acc c, 16 * acc + default 0 (GenerateWitness.unhex c)) 0 ds.

(** A node padded with zeros to a whole window. *)
Definition pad_window (node : list byte) : list byte :=
  node ++ replicate (N.to_nat MAX_TRIE_NODE_LENGTH - length node) x00.

(** Window [i] of a proof path: its [i]-th block of [MAX_TRIE_NODE_LENGTH]
    bytes. *)
Definition window (path : list byte) (i : N) : list byte :=
  take (N.to_nat MAX_TRIE_NODE_LENGTH)
    (drop (N.to_nat (i * MAX_TRIE_NODE_LENGTH)) path).

(** The RLP encoding at the front of [node] - the bytes its header
    announces, at most the whole array - hashes to [h]. *)
Definition hashes_to (keccak256 : list byte → N → list byte)
    (node h : list byte) : Prop :=
  ∃ hdr, Rlp.decode_len node = Some hdr
         ∧ keccak256 node
             (N.min (RLP_Header.offset hdr + RLP_Header.length hdr) (len node))
           = h.

(** Window [i] links the reference and cursor [a] to the reference and
    cursor [b]: it hashes to the reference of [a] and, resolved at the cursor
    of [a], yields [b] without being a leaf. *)
Definition links (keccak256 : list byte → N → list byte)
    (key_nibbles path : list byte) (i : N) (a b : list byte * N) : Prop :=
  hashes_to keccak256 (window path i) a.1
  ∧ ∃ ty, Node.resolve_nibble32 key_nibbles a.2 (window path i)
          = Some (ty, b.1, b.2)
          ∧ ty ≠ LEAF.

(** ** Test vectors

    A storage trie holding the single slot [0] with value [5], proved at
    depth 2: a branch node whose slot 2 holds the hash of the leaf (the hashed
    key starts with the nibbles 2, 9), and the leaf carrying the remaining 63
    nibbles of the path. *)

Module Example.

Definition pad_node (l : list byte) : list byte :=
  l ++ replicate (N.to_nat MAX_TRIE_NODE_LENGTH - length l) x00.

Definition key : list byte := replicate 32 x00.

Definition hashed_key : list byte := Eval vm_compute in Keccak.keccak256 key 32.

Definition key_nibbles : list byte := flat_nibbles hashed_key.

Definition leaf : list byte :=
  pad_node (bytes [0xe2; 0xa0; 0x39] ++ drop 1 hashed_key ++ bytes [0x05]).

Definition leaf_hash : list byte := Eval vm_compute in Keccak.keccak256 leaf 35.

Definition branch : list byte :=
  pad_node (bytes [0xf1; 0x80; 0x80; 0xa0] ++ leaf_hash ++ replicate 14 (zb 0x80)).

Definition root : list byte := Eval vm_compute in Keccak.keccak256 branch 50.

Definition value : list byte := replicate 31 x00 ++ bytes [5].

Definition storage_proof : TrieProof.t :=
  TrieProof.new key (branch ++ leaf) 2 value.

(** The tables the list decoder records for the two nodes. *)
Definition branch_table : RLP_List.t :=
  RLP_List.new
    ([2; 3; 4] ++ (N.of_nat <$> seq 37 14))
    ([0; 0; 32] ++ replicate 14 0)
    (replicate 17 0) 17.

Definition leaf_table : RLP_List.t :=
  RLP_List.new [2; 34] [32; 1] [0; 0] 2.

End Example.

(** A state trie holding one account, the empty account at the zero address,
    proved at depth 1 by its leaf alone. *)

Module StateExample.

Definition address : list byte := replicate 20 x00.

Definition hashed_address : list byte :=
  Eval vm_compute in Keccak.keccak256 address 20.

Definition empty_trie_root : list byte :=
  Eval vm_compute in Keccak.keccak256 (bytes [0x80]) 1.

Definition empty_code_hash : list byte :=
  Eval vm_compute in Keccak.keccak256 [] 0.

(** [rlp([nonce = 0, balance = 0, storageRoot, codeHash])] *)
Definition account : list byte :=
  bytes [0xf8; 0x44; 0x80; 0x80; 0xa0] ++ empty_trie_root
  ++ bytes [0xa0] ++ empty_code_hash.

Definition leaf : list byte :=
  Example.pad_node
    (bytes [0xf8; 0x6a; 0xa1; 0x20] ++ hashed_address
     ++ bytes [0xb8; 0x46] ++ account).

Definition root : list byte := Eval vm_compute in Keccak.keccak256 leaf 108.

Definition state_proof : TrieProof.t :=
  TrieProof.new address leaf 1 (replicate 64 x00 ++ account).

End StateExample.

(** A storage trie holding the single slot [0] with a full 32-byte value,
    proved at depth 1 by its leaf alone. *)
Module SingleLeaf.

Definition value : list byte := replicate 32 (zb 0xff).

Definition leaf : list byte :=
  Example.pad_node
    (bytes [0xf8; 0x44; 0xa1; 0x20] ++ Example.hashed_key
     ++ bytes [0xa1; 0xa0] ++ value).

Definition root : list byte := Eval vm_compute in Keccak.keccak256 leaf 70.

End SingleLeaf.

(** * Proofs *)

(** ** Basic facts about the embedding *)

Lemma assert_Some c u : assert c = Some u ↔ c = true.
Proof. destruct c, u; simpl; split; congruence. Qed.

Lemma wadd_Some w a b r : wadd w a b = Some r ↔ r = a + b ∧ a + b < 2 ^ w.
Proof.
  unfold wadd; cbv zeta. destruct (N.ltb_spec (a + b) (2 ^ w)); split.
  - intros [= <-]; auto.
  - intros [-> _]; auto.
  - discriminate.
  - lia.
Qed.

Lemma wsub_Some a b r : wsub a b = Some r ↔ r = a - b ∧ b ≤ a.
Proof.
  unfold wsub. destruct (N.leb_spec b a); split.
  - intros [= <-]; auto.
  - intros [-> _]; auto.
  - discriminate.
  - lia.
Qed.

Lemma wmul_Some w a b r : wmul w a b = Some r ↔ r = a * b ∧ a * b < 2 ^ w.
Proof.
  unfold wmul; cbv zeta. destruct (N.ltb_spec (a * b) (2 ^ w)); split.
  - intros [= <-]; auto.
  - intros [-> _]; auto.
  - discriminate.
  - lia.
Qed.

Lemma bz_range b : bz b < 256.
Proof. unfold bz. pose proof (Byte.to_N_bounded b). lia. Qed.

Lemma zb_bz b : zb (bz b) = b.
Proof. unfold zb, bz. by rewrite Byte.of_to_N. Qed.

Lemma bz_zb n : n < 256 → bz (zb n) = n.
Proof.
  intros Hn. unfold zb, bz. destruct (Byte.of_N n) as [b|] eqn:E.
  - by apply Byte.to_of_N.
  - apply Byte.of_N_None_iff in E. lia.
Qed.

Lemma bz_inj a b : bz a = bz b → a = b.
Proof. intros E. rewrite <- (zb_bz a), <- (zb_bz b). by rewrite E. Qed.

Lemma bz_x00 : bz x00 = 0.
Proof. reflexivity. Qed.

Lemma get_Some {A} (l : list A) i x : get l i = Some x ↔ l !! N.to_nat i = Some x.
Proof. reflexivity. Qed.

Lemma get_lt {A} (l : list A) i x : get l i = Some x → i < len l.
Proof. unfold get, len. intros H%lookup_lt_Some. lia. Qed.

Lemma get_is_Some {A} (l : list A) i : i < len l → ∃ x, get l i = Some x.
Proof.
  unfold get, len. intros H.
  destruct (lookup_lt_is_Some_2 l (N.to_nat i)) as [x Hx]; [lia | eauto].
Qed.

Lemma set_Some {A} (l l' : list A) i v :
  set l i v = Some l' ↔ l' = <[N.to_nat i := v]> l ∧ i < len l.
Proof.
  unfold set. destruct (N.ltb_spec i (len l)); split.
  - intros [= <-]; auto.
  - intros [-> _]; auto.
  - discriminate.
  - lia.
Qed.

Lemma len_replicate {A} n (x : A) : len (replicate n x) = N.of_nat n.
Proof. unfold len. by rewrite length_replicate. Qed.

Lemma len_insert {A} (l : list A) i x : len (<[i := x]> l) = len l.
Proof. unfold len. by rewrite length_insert. Qed.

(** Inversion of a successful run, one bind at a time. *)
Ltac opt_inv1 :=
  match goal with
  | H : (_ ≫= _) = Some _ |- _ =>
      apply bind_Some in H; destruct H as (? & ? & H)
  | H : assert _ = Some _ |- _ => apply assert_Some in H
  | H : wadd _ _ _ = Some _ |- _ => apply wadd_Some in H; destruct H as [? H]
  | H : wsub _ _ = Some _ |- _ => apply wsub_Some in H; destruct H as [? H]
  | H : wmul _ _ _ = Some _ |- _ => apply wmul_Some in H; destruct H as [? H]
  | H : set _ _ _ = Some _ |- _ => apply set_Some in H; destruct H as [? H]
  | H : Some _ = Some _ |- _ => injection H as H
  | H : None = Some _ |- _ => discriminate H
  | H : context [let '(_, _) := ?x in _] |- _ => destruct x
  end.

Ltac opt_inv := repeat opt_inv1; subst.

(** ** Loops *)

Lemma for_loop_inv {St} (P : N → St → Prop) n i (body : N → St → option St) s s' :
  for_loop n i body s = Some s' →
  P i s →
  (∀ j t t', i ≤ j < i + N.of_nat n → P j t → body j t = Some t' → P (N.succ j) t') →
  P (i + N.of_nat n) s'.
Proof.
  revert i s. induction n as [|n IH]; intros i s Hrun Hinit Hstep; simpl in Hrun.
  - injection Hrun as <-. by replace (i + N.of_nat 0) with i by lia.
  - apply bind_Some in Hrun as (t & Hb & Hrun).
    replace (i + N.of_nat (S n)) with (N.succ i + N.of_nat n) by lia.
    apply (IH (N.succ i) t); [done | |].
    + apply (Hstep i s t); [lia | done | done].
    + intros j u u' Hj. apply Hstep. lia.
Qed.

Lemma for_loop_total {St} (P : N → St → Prop) n i (body : N → St → option St) s :
  P i s →
  (∀ j t, i ≤ j < i + N.of_nat n → P j t → ∃ t', body j t = Some t' ∧ P (N.succ j) t') →
  ∃ s', for_loop n i body s = Some s' ∧ P (i + N.of_nat n) s'.
Proof.
  revert i s. induction n as [|n IH]; intros i s Hinit Hstep; simpl.
  - exists s. split; [done|]. by replace (i + N.of_nat 0) with i by lia.
  - destruct (Hstep i s) as (t & Hb & Ht); [lia | done |].
    rewrite Hb; simpl.
    replace (i + N.of_nat (S n)) with (N.succ i + N.of_nat n) by lia.
    apply IH; [done|]. intros j u Hj. apply Hstep. lia.
Qed.

Lemma for_loop_ext {St} n i (body body' : N → St → option St) s :
  (∀ j t, i ≤ j < i + N.of_nat n → body j t = body' j t) →
  for_loop n i body s = for_loop n i body' s.
Proof.
  revert i s. induction n as [|n IH]; intros i s Hext; simpl; [done|].
  rewrite <- (Hext i s) by lia. destruct (body i s) as [t|]; simpl; [|done].
  apply IH. intros j u Hj. apply Hext. lia.
Qed.

(** ** The field *)

Lemma Fr_big : 2 ^ 200 < Fr.
Proof. reflexivity. Qed.

Lemma strict_if_eq (c : bool) x y :
  x < Fr → y < Fr → Rlp.strict_if c x y = if c then x else y.
Proof.
  intros Hx Hy. unfold Rlp.strict_if, fadd, fmul, fsub, b2n. cbv zeta.
  pose proof Fr_big as HF.
  assert (E0 : 2 ^ 200 = 1606938044258990275541962092341162602522202993782792835301376)
    by reflexivity.
  rewrite E0 in HF. clear E0.
  generalize dependent Fr. intros F Hx Hy HF.
  destruct c; cbv iota.
  - replace (1 mod F) with 1 by (symmetry; apply N.mod_small; lia).
    replace (1 + (F - 1)) with F by lia.
    rewrite N.Div0.mod_same.
    rewrite !N.mul_0_l, !N.mul_1_l, N.Div0.mod_0_l, N.add_0_r.
    rewrite !N.mod_small; lia.
  - rewrite !N.Div0.mod_0_l, N.sub_0_r, N.add_0_l.
    replace ((1 + F) mod F) with 1.
    + rewrite N.mul_1_l. rewrite !N.mod_small; lia.
    + replace (1 + F) with (1 + 1 * F) by lia.
      rewrite N.Div0.mod_add. symmetry. apply N.mod_small. lia.
Qed.

Lemma fsub_ge a b : b ≤ a → a < Fr → fsub a b = a - b.
Proof.
  intros Hb Ha. unfold fsub. rewrite (N.mod_small b) by lia.
  replace (a + (Fr - b)) with ((a - b) + 1 * Fr) by lia.
  rewrite N.Div0.mod_add. apply N.mod_small. lia.
Qed.

Lemma fsub_lt a b : a < b → b < Fr → fsub a b = a + Fr - b.
Proof.
  intros Ha Hb. unfold fsub. rewrite (N.mod_small b) by lia.
  replace (a + (Fr - b)) with (a + Fr - b) by lia.
  apply N.mod_small. lia.
Qed.

Lemma fadd_small a b : a + b < Fr → fadd a b = a + b.
Proof. intros H. unfold fadd. by apply N.mod_small. Qed.

Lemma fadd_wrap a b : Fr ≤ a + b → a + b < 2 * Fr → fadd a b = a + b - Fr.
Proof.
  intros H1 H2. unfold fadd.
  replace (a + b) with ((a + b - Fr) + 1 * Fr) at 1 by lia.
  rewrite N.Div0.mod_add. apply N.mod_small. lia.
Qed.

Lemma fmul_small a b : a * b < Fr → fmul a b = a * b.
Proof. intros H. unfold fmul. by apply N.mod_small. Qed.

Lemma loop_len_eq n :
  1 ≤ n → n < 2 ^ 32 →
  cast 64 (fsub (fadd (fmul (b2n (Rlp.MAX_LEN_IN_BYTES <? n - 1))
                         (fsub Rlp.MAX_LEN_IN_BYTES (n - 1))) n) 1)
  = N.min 2 (n - 1).
Proof.
  intros H1 H2. pose proof Fr_big as HF.
  change (2 ^ 200) with 1606938044258990275541962092341162602522202993782792835301376 in HF.
  change (2 ^ 32) with 4294967296 in H2.
  unfold Rlp.MAX_LEN_IN_BYTES, cast. change (2 ^ 64) with 18446744073709551616.
  destruct (N.ltb_spec 2 (n - 1)); unfold b2n.
  - rewrite (fsub_lt 2 (n - 1)) by lia.
    rewrite fmul_small by lia. rewrite fadd_wrap by lia.
    rewrite fsub_ge by lia. rewrite N.mod_small by lia. lia.
  - rewrite fmul_small by lia. rewrite fadd_small by lia.
    rewrite fsub_ge by lia. rewrite N.mod_small by lia. lia.
Qed.

(** ** The RLP header decoder *)

#[local] Arguments bz : simpl never.

Lemma data_len_spec p rest lenlen :
  len (p :: rest) < 2 ^ 32 → lenlen ≤ 2 →
  Rlp.data_len (p :: rest) lenlen = Some (be_read (take (N.to_nat lenlen) rest)).
Proof.
  intros Hlen Hll. unfold Rlp.data_len.
  replace (lenlen <=? Rlp.MAX_LEN_IN_BYTES) with true
    by (symmetry; apply N.leb_le; unfold Rlp.MAX_LEN_IN_BYTES; lia).
  simpl assert. cbn [mbind option_bind].
  assert (H1 : 1 ≤ len (p :: rest)) by (unfold len; simpl; lia).
  replace (wsub (len (p :: rest)) 1) with (Some (len (p :: rest) - 1))
    by (symmetry; apply wsub_Some; split; [done | lia]).
  cbn [mbind option_bind]. rewrite loop_len_eq by done.
  assert (Hl : lenlen = 0 ∨ lenlen = 1 ∨ lenlen = 2) by lia.
  destruct rest as [|a [|b rest]].
  - replace (N.min 2 (len [p] - 1)) with 0 by (unfold len; simpl; lia).
    simpl. by destruct Hl as [->|[->| ->]].
  - replace (N.min 2 (len [p; a] - 1)) with 1 by (unfold len; simpl; lia).
    change (N.to_nat 1) with 1%nat.
    destruct Hl as [->|[->| ->]]; unfold wadd, cast, get, b2n, be_read; simpl. all: f_equal; lia.
  - replace (N.min 2 (len (p :: a :: b :: rest) - 1)) with 2
      by (unfold len; simpl; lia).
    change (N.to_nat 2) with 2%nat.
    destruct Hl as [->|[->| ->]]; unfold wadd, cast, get, b2n, be_read; simpl; f_equal; lia.
Qed.

Lemma be_read_take_bound k rest : (k ≤ 2)%nat → be_read (take k rest) < 65536.
Proof.
  intros Hk. unfold be_read.
  destruct rest as [|a [|b rest]], k as [|[|[|k]]]; simpl; try lia;
    pose proof (bz_range a); try pose proof (bz_range b); lia.
Qed.

Lemma data_len_None arr lenlen : 2 < lenlen → Rlp.data_len arr lenlen = None.
Proof.
  intros H. unfold Rlp.data_len, Rlp.MAX_LEN_IN_BYTES.
  by replace (lenlen <=? 2) with false by (symmetry; apply N.leb_gt; lia).
Qed.

Lemma wrapping_sub8_ge x y : y ≤ x → x < 256 → wrapping_sub 8 x y = x - y.
Proof.
  intros H1 H2. unfold wrapping_sub. change (2 ^ 8) with 256.
  change (2 ^ 128) with 340282366920938463463374607431768211456. lia.
Qed.

Lemma wrapping_sub8_bound x y : wrapping_sub 8 x y < 256.
Proof. unfold wrapping_sub. change (2 ^ 8) with 256. lia. Qed.

Lemma cast_small w x : x < 2 ^ w → cast w x = x.
Proof. intros H. unfold cast. by apply N.mod_small. Qed.

Lemma Fr_gt_u64 x : x < 2 ^ 64 → x < Fr.
Proof. intros H. pose proof Fr_big. change (2 ^ 64) with 18446744073709551616 in H.
  change (2 ^ 200) with 1606938044258990275541962092341162602522202993782792835301376 in *. lia. Qed.

Ltac ltb_cases q c :=
  let H := fresh "H" in destruct (N.ltb_spec q c) as [H|H].

Lemma decode_offset_eq q :
  q < 255 →
  cast 64
    (Rlp.strict_if (q <? 0x80) 0
       (Rlp.strict_if (q <? 0xb8) 1
          (Rlp.strict_if (q <? 0xc0) (wrapping_sub 8 (1 + q) 0xb7)
             (Rlp.strict_if (q <? 0xf8) 1 (wrapping_sub 8 (1 + q) 0xf7)))))
  = if q <? 0x80 then 0 else if q <? 0xb8 then 1
    else if q <? 0xc0 then 1 + (q - 0xb7) else if q <? 0xf8 then 1
    else 1 + (q - 0xf7).
Proof.
  intros Hq.
  pose proof (wrapping_sub8_bound (1 + q) 0xb7) as B1.
  pose proof (wrapping_sub8_bound (1 + q) 0xf7) as B2.
  assert (S4 : Rlp.strict_if (q <? 0xf8) 1 (wrapping_sub 8 (1 + q) 0xf7)
               = if q <? 0xf8 then 1 else wrapping_sub 8 (1 + q) 0xf7)
    by (apply strict_if_eq; apply Fr_gt_u64; simpl; lia).
  rewrite S4.
  assert (S3 : ∀ y, y < 256 →
     Rlp.strict_if (q <? 0xc0) (wrapping_sub 8 (1 + q) 0xb7) y
     = if q <? 0xc0 then wrapping_sub 8 (1 + q) 0xb7 else y)
    by (intros; apply strict_if_eq; apply Fr_gt_u64; simpl; lia).
  rewrite S3 by (destruct (q <? 0xf8); lia).
  assert (S2 : ∀ y, y < 256 → Rlp.strict_if (q <? 0xb8) 1 y = if q <? 0xb8 then 1 else y)
    by (intros; apply strict_if_eq; apply Fr_gt_u64; simpl; lia).
  rewrite S2 by (destruct (q <? 0xc0), (q <? 0xf8); lia).
  assert (S1 : ∀ y, y < 256 → Rlp.strict_if (q <? 0x80) 0 y = if q <? 0x80 then 0 else y)
    by (intros; apply strict_if_eq; apply Fr_gt_u64; simpl; lia).
  rewrite S1 by (destruct (q <? 0xb8), (q <? 0xc0), (q <? 0xf8); lia).
  ltb_cases q 0x80; ltb_cases q 0xb8; ltb_cases q 0xc0; ltb_cases q 0xf8;
    try lia; rewrite ?wrapping_sub8_ge by lia; rewrite cast_small by (simpl; lia); lia.
Qed.

Lemma lenlen_eq q :
  q < 256 →
  b2n (q <? 0xc0) * (1 - b2n (q <? 0xb8)) * wrapping_sub 8 q 0xb7
  + (1 - b2n (q <? 0xf8)) * wrapping_sub 8 q 0xf7
  = if q <? 0xb8 then 0 else if q <? 0xc0 then q - 0xb7
    else if q <? 0xf8 then 0 else q - 0xf7.
Proof.
  intros Hq. unfold b2n.
  ltb_cases q 0xb8; ltb_cases q 0xc0; ltb_cases q 0xf8; try lia;
    rewrite ?wrapping_sub8_ge by lia; lia.
Qed.

Lemma decode_length_eq q (c : bool) dl :
  q < 256 → dl < 65536 →
  cast 64
    (Rlp.strict_if c
       (Rlp.strict_if (q <? 0x80) 1
          (Rlp.strict_if (q <? 0xb8) (wrapping_sub 8 q 0x80) (wrapping_sub 8 q 0xc0)))
       dl)
  = if c then (if q <? 0x80 then 1 else if q <? 0xb8 then wrapping_sub 8 q 0x80
               else wrapping_sub 8 q 0xc0)
    else dl.
Proof.
  intros Hq Hdl.
  pose proof (wrapping_sub8_bound q 0x80) as B1.
  pose proof (wrapping_sub8_bound q 0xc0) as B2.
  rewrite (strict_if_eq (q <? 0xb8)) by (apply Fr_gt_u64; simpl; lia).
  rewrite (strict_if_eq (q <? 0x80))
    by (apply Fr_gt_u64; simpl; destruct (q <? 0xb8); lia).
  rewrite strict_if_eq
    by (apply Fr_gt_u64; simpl; destruct (q <? 0x80), (q <? 0xb8); lia).
  apply cast_small. simpl. destruct c, (q <? 0x80), (q <? 0xb8); lia.
Qed.

Lemma decode_len_correct p rest :
  len (p :: rest) < 2 ^ 32 →
  Rlp.decode_len (p :: rest) = decode_len_spec (bz p) rest.
Proof.
  intros Hlen. unfold Rlp.decode_len, decode_len_spec.
  change (get (p :: rest) 0) with (Some p). cbn [mbind option_bind].
  pose proof (bz_range p) as Hp. set (q := bz p) in *.
  rewrite lenlen_eq by done.
  destruct (N.ltb_spec q 255) as [H255|H255].
  2:{ replace (wadd 8 1 q) with (@None N)
        by (symmetry; unfold wadd; cbv zeta;
            replace (1 + q <? 2 ^ 8) with false;
            [done | symmetry; apply N.ltb_ge; simpl; lia]).
      replace (q <? 0x80) with false by (symmetry; apply N.ltb_ge; lia).
      replace (q <? 0xb8) with false by (symmetry; apply N.ltb_ge; lia).
      replace (q <? 0xc0) with false by (symmetry; apply N.ltb_ge; lia).
      replace (q <? 0xf8) with false by (symmetry; apply N.ltb_ge; lia).
      replace (q - 0xf7 <=? 2) with false by (symmetry; apply N.leb_gt; lia).
      done. }
  replace (wadd 8 1 q) with (Some (1 + q))
    by (symmetry; apply wadd_Some; split; [done | simpl; lia]).
  cbn [mbind option_bind]. rewrite decode_offset_eq by done.
  set (lenlen := if q <? 0xb8 then 0 else if q <? 0xc0 then q - 0xb7
                 else if q <? 0xf8 then 0 else q - 0xf7).
  destruct (N.leb_spec lenlen 2) as [Hll|Hll].
  - rewrite data_len_spec by done. cbn [mbind option_bind].
    rewrite decode_length_eq
      by (done || apply be_read_take_bound; lia).
    subst lenlen.
    ltb_cases q 0x80; ltb_cases q 0xb8; ltb_cases q 0xc0; ltb_cases q 0xf8;
      try lia; simpl N.eqb; cbv iota; unfold b2n;
      rewrite ?wrapping_sub8_ge by lia.
    + replace (192 <=? q) with false by (symmetry; apply N.leb_gt; lia).
      reflexivity.
    + replace (192 <=? q) with false by (symmetry; apply N.leb_gt; lia).
      reflexivity.
    + replace (q - 183 =? 0) with false by (symmetry; apply N.eqb_neq; lia).
      replace (q - 183 <=? 2) with true by (symmetry; apply N.leb_le; lia).
      replace (192 <=? q) with false by (symmetry; apply N.leb_gt; lia).
      reflexivity.
    + replace (192 <=? q) with true by (symmetry; apply N.leb_le; lia).
      reflexivity.
    + replace (q - 247 =? 0) with false by (symmetry; apply N.eqb_neq; lia).
      replace (q - 247 <=? 2) with true by (symmetry; apply N.leb_le; lia).
      replace (192 <=? q) with true by (symmetry; apply N.leb_le; lia).
      reflexivity.
  - rewrite data_len_None by done. simpl. subst lenlen.
    ltb_cases q 0x80; ltb_cases q 0xb8; ltb_cases q 0xc0; ltb_cases q 0xf8;
      try lia.
    + by replace (q - 183 <=? 2) with false by (symmetry; apply N.leb_gt; lia).
    + by replace (q - 247 <=? 2) with false by (symmetry; apply N.leb_gt; lia).
Qed.

(** C2.  Header classification of [decode_len].  For an array [p :: rest]
    (of a length a [u32] can hold) the decoder returns, by the range of the
    prefix [p]: below [0x80], offset 0 and length 1; in [0x80, 0xb8), offset 1
    and length [p - 0x80]; in [0xb8, 0xc0), offset [1 + (p - 0xb7)] and the
    big-endian value of the next [p - 0xb7] bytes; in [0xc0, 0xf8), offset 1
    and length [p - 0xc0]; from [0xf8], offset [1 + (p - 0xf7)] and the
    big-endian value of the next [p - 0xf7] bytes - the two long forms for a
    length prefix of at most two bytes that the array contains.  The data
    type is [LIST] exactly from [0xc0], and a length prefix of more than two
    bytes makes the decoder fail. *)
Theorem decode_len_classification (p : byte) (rest : list byte) :
  len (p :: rest) < 2 ^ 32 →
  let arr := p :: rest in
  let q := bz p in
  (q < 0x80 → Rlp.decode_len arr = Some (RLP_Header.new 0 1 Rlp.STRING)) ∧
  (0x80 ≤ q < 0xb8 →
     Rlp.decode_len arr = Some (RLP_Header.new 1 (q - 0x80) Rlp.STRING)) ∧
  (0xb8 ≤ q < 0xc0 → q - 0xb7 ≤ 2 → q - 0xb7 ≤ len rest →
     Rlp.decode_len arr =
     Some (RLP_Header.new (1 + (q - 0xb7))
             (be_read (take (N.to_nat (q - 0xb7)) rest)) Rlp.STRING)) ∧
  (0xc0 ≤ q < 0xf8 →
     Rlp.decode_len arr = Some (RLP_Header.new 1 (q - 0xc0) Rlp.LIST)) ∧
  (0xf8 ≤ q → q - 0xf7 ≤ 2 → q - 0xf7 ≤ len rest →
     Rlp.decode_len arr =
     Some (RLP_Header.new (1 + (q - 0xf7))
             (be_read (take (N.to_nat (q - 0xf7)) rest)) Rlp.LIST)) ∧
  (∀ h, Rlp.decode_len arr = Some h →
        (RLP_Header.data_type h = Rlp.LIST ↔ 0xc0 ≤ q)) ∧
  ((0xb8 ≤ q < 0xc0 ∧ 2 < q - 0xb7) ∨ (0xf8 ≤ q ∧ 2 < q - 0xf7) →
     Rlp.decode_len arr = None).
Proof.
  intros Hlen arr q. subst arr. rewrite (decode_len_correct p rest Hlen).
  fold q. unfold decode_len_spec.
  split_and!.
  - intros H. by replace (q <? 128) with true by (symmetry; apply N.ltb_lt; lia).
  - intros [H1 H2].
    replace (q <? 128) with false by (symmetry; apply N.ltb_ge; lia).
    by replace (q <? 184) with true by (symmetry; apply N.ltb_lt; lia).
  - intros [H1 H2] H3 _.
    replace (q <? 128) with false by (symmetry; apply N.ltb_ge; lia).
    replace (q <? 184) with false by (symmetry; apply N.ltb_ge; lia).
    replace (q <? 192) with true by (symmetry; apply N.ltb_lt; lia).
    by replace (q - 183 <=? 2) with true by (symmetry; apply N.leb_le; lia).
  - intros [H1 H2].
    replace (q <? 128) with false by (symmetry; apply N.ltb_ge; lia).
    replace (q <? 184) with false by (symmetry; apply N.ltb_ge; lia).
    replace (q <? 192) with false by (symmetry; apply N.ltb_ge; lia).
    by replace (q <? 248) with true by (symmetry; apply N.ltb_lt; lia).
  - intros H1 H3 _.
    replace (q <? 128) with false by (symmetry; apply N.ltb_ge; lia).
    replace (q <? 184) with false by (symmetry; apply N.ltb_ge; lia).
    replace (q <? 192) with false by (symmetry; apply N.ltb_ge; lia).
    replace (q <? 248) with false by (symmetry; apply N.ltb_ge; lia).
    by replace (q - 247 <=? 2) with true by (symmetry; apply N.leb_le; lia).
  - intros h.
    ltb_cases q 0x80; ltb_cases q 0xb8; ltb_cases q 0xc0; ltb_cases q 0xf8;
      try lia; repeat case_match; intros [= <-]; simpl;
      unfold Rlp.STRING, Rlp.LIST; (split; [try discriminate|]); lia.
  - intros [[[H1 H2] H3]|[H1 H3]].
    + replace (q <? 128) with false by (symmetry; apply N.ltb_ge; lia).
      replace (q <? 184) with false by (symmetry; apply N.ltb_ge; lia).
      replace (q <? 192) with true by (symmetry; apply N.ltb_lt; lia).
      by replace (q - 183 <=? 2) with false by (symmetry; apply N.leb_gt; lia).
    + replace (q <? 128) with false by (symmetry; apply N.ltb_ge; lia).
      replace (q <? 184) with false by (symmetry; apply N.ltb_ge; lia).
      replace (q <? 192) with false by (symmetry; apply N.ltb_ge; lia).
      replace (q <? 248) with false by (symmetry; apply N.ltb_ge; lia).
      by replace (q - 247 <=? 2) with false by (symmetry; apply N.leb_gt; lia).
Qed.

(** The long-string header of [rlp_length_check]: prefix [0xb9] followed by
    the two length bytes [04 00]. *)
Lemma decode_len_classification_witness :
  Rlp.decode_len (bytes [0xb9; 0x04; 0x00; 1; 2; 3])
  = Some (RLP_Header.new 3 1024 Rlp.STRING).
Proof.
  pose proof (decode_len_classification (zb 0xb9) (bytes [0x04; 0x00; 1; 2; 3]))
    as H.
  destruct H as (_ & _ & H & _); [reflexivity|].
  apply H; vm_compute; (split || idtac); congruence.
Defined.

(** ** Loops that fill an array *)

Lemma fill_loop_Some {A} (f : N → option A) n (init out : list A) :
  length init = n →
  for_loop n 0 (λ i out, x ← f i; set out i x) init = Some out →
  length out = n ∧ ∀ j, (j < n)%nat → f (N.of_nat j) = out !! j.
Proof.
  intros Hlen Hrun.
  pose (P := λ (i : N) (o : list A),
          length o = n ∧ ∀ j, (j < N.to_nat i)%nat → f (N.of_nat j) = o !! j).
  assert (HP : P (0 + N.of_nat n) out).
  { apply (for_loop_inv P _ _ _ _ _ Hrun).
    - split; [done|]. intros j Hj. lia.
    - intros j t t' Hj [Hl Ht] Hb. opt_inv. split.
      + by rewrite length_insert.
      + intros k Hk. destruct (decide (k = N.to_nat j)) as [->|Hne].
        * rewrite list_lookup_insert_eq by (unfold len in *; lia).
          by rewrite N2Nat.id.
        * rewrite list_lookup_insert_ne by done. apply Ht. lia. }
  destruct HP as [Hl Ht]. split; [done|]. intros j Hj. apply Ht. lia.
Qed.

Lemma fill_loop_total {A} (f : N → option A) n (init target : list A) :
  length init = n → length target = n →
  (∀ j, (j < n)%nat → f (N.of_nat j) = target !! j) →
  for_loop n 0 (λ i out, x ← f i; set out i x) init = Some target.
Proof.
  intros Hlen Hlt Hf.
  pose (P := λ (i : N) (o : list A),
          length o = n ∧ ∀ j, (j < N.to_nat i)%nat → o !! j = target !! j).
  destruct (for_loop_total P n 0 (λ i out, x ← f i; set out i x) init)
    as (out & Hrun & [Hl Ht]).
  - split; [done|]. intros j Hj. lia.
  - intros j t Hj [Hl Ht].
    destruct (lookup_lt_is_Some_2 target (N.to_nat j)) as [x Hx]; [lia|].
    exists (<[N.to_nat j := x]> t). split.
    + rewrite <- (N2Nat.id j) at 1. rewrite Hf by lia. rewrite Hx. simpl.
      apply set_Some. split; [done|]. unfold len. lia.
    + split; [by rewrite length_insert|].
      intros k Hk. destruct (decide (k = N.to_nat j)) as [->|Hne].
      * rewrite list_lookup_insert_eq by lia. done.
      * rewrite list_lookup_insert_ne by done. apply Ht. lia.
  - rewrite Hrun. f_equal. apply list_eq. intros j.
    destruct (decide (j < n)%nat).
    + apply Ht. lia.
    + rewrite !lookup_ge_None_2 by lia. done.
Qed.

(** ** utils.nr *)

Lemma lead_zeros_le l : (lead_zeros l ≤ length l)%nat.
Proof. induction l as [|b l IH]; simpl; [lia|]. destruct (bz b =? 0); lia. Qed.

Lemma lead_zeros_zero l j :
  (j < lead_zeros l)%nat → ∃ x, l !! j = Some x ∧ bz x = 0.
Proof.
  revert j. induction l as [|b l IH]; intros j Hj; simpl in *; [lia|].
  destruct (N.eqb_spec (bz b) 0) as [E|E]; [|lia].
  destruct j as [|j]; simpl; [eauto|]. apply IH. lia.
Qed.

Lemma lead_zeros_nonzero l :
  (lead_zeros l < length l)%nat → ∃ x, l !! lead_zeros l = Some x ∧ bz x ≠ 0.
Proof.
  induction l as [|b l IH]; simpl; [lia|].
  destruct (N.eqb_spec (bz b) 0) as [E|E]; simpl; [|eauto].
  intros H. apply IH. lia.
Qed.

Lemma lead_zeros_take n l :
  take n l ≠ replicate n x00 → (n ≤ length l)%nat →
  lead_zeros (take n l) = lead_zeros l.
Proof.
  revert l. induction n as [|n IH]; intros l Hne Hn; [done|].
  destruct l as [|b l]; simpl in *; [lia|].
  destruct (N.eqb_spec (bz b) 0) as [E|E]; [|done].
  f_equal. apply IH; [|lia]. intros Heq. apply Hne. rewrite Heq. f_equal.
  apply bz_inj. by rewrite E.
Qed.

Lemma value_length_loop (b : list byte) :
  for_loop (length b) 0
    (λ i value_length,
       let num_bytes_ind := b2n (value_length =? 0) in
       x ← get b i;
       let byte_ind := b2n (negb (bz x =? 0)) in
       d ← wsub (len b) i;
       Some (num_bytes_ind * byte_ind * d + (1 - num_bytes_ind) * value_length))
    0
  = Some (N.of_nat (length b - lead_zeros b)).
Proof.
  pose (lz := lead_zeros b). pose (n := length b).
  pose (P := λ (i vl : N),
          ((N.to_nat i ≤ lz)%nat → vl = 0) ∧
          ((lz < N.to_nat i)%nat → vl = N.of_nat (n - lz))).
  edestruct (for_loop_total P n 0) as (vl & Hrun & [H1 H2]); cycle 2.
  - unfold n in Hrun. rewrite Hrun. f_equal.
    pose proof (lead_zeros_le b). fold lz n in H.
    destruct (decide (lz < n)%nat).
    + apply H2. lia.
    + rewrite H1 by lia. lia.
  - split; intros; [done | lia].
  - intros j vl Hj [H1 H2]. cbv zeta.
    destruct (get_is_Some b j) as [x Hx]; [unfold len; lia|].
    rewrite Hx. cbn [mbind option_bind].
    replace (wsub (len b) j) with (Some (len b - j))
      by (symmetry; apply wsub_Some; unfold len; split; [done | lia]).
    cbn [mbind option_bind]. eexists. split; [done|].
    unfold P, b2n, len. fold n.
    destruct (decide (N.to_nat j < lz)%nat) as [Hlt|Hge].
    + destruct (lead_zeros_zero b (N.to_nat j) Hlt) as (y & Hy & Hz).
      rewrite get_Some in Hx. rewrite Hy in Hx. injection Hx as <-.
      rewrite H1 by lia. rewrite Hz. simpl. split; intros; lia.
    + destruct (decide (N.to_nat j = lz)) as [Heq|Hne].
      * destruct (lead_zeros_nonzero b) as (y & Hy & Hz); [fold lz n; lia|].
        rewrite get_Some, Heq in Hx. fold lz in Hy. rewrite Hy in Hx.
        injection Hx as <-. rewrite H1 by lia.
        replace (bz y =? 0) with false by (symmetry; by apply N.eqb_neq).
        simpl negb. change (0 =? 0) with true. cbv iota. split; intros; lia.
      * rewrite H2 by lia.
        replace (N.of_nat (n - lz) =? 0) with false
          by (symmetry; apply N.eqb_neq; lia).
        split; intros; lia.
Qed.

Lemma left_byte_shift_spec (input : list byte) (n : nat) :
  len input < 2 ^ 31 → (n ≤ length input)%nat →
  Utils.left_byte_shift input (N.of_nat n)
  = Some (drop n input ++ replicate n x00).
Proof.
  intros Hlen Hn. unfold Utils.left_byte_shift. cbv zeta.
  change (2 ^ 31) with 2147483648 in Hlen. unfold len in Hlen.
  erewrite for_loop_ext.
  - apply (fill_loop_total
             (λ i, s ← wadd 32 i (N.of_nat n);
                   x ← get input (b2n (cast 32 s <? cast 32 (len input)) * s);
                   Some (zb (cast 8 (b2n (cast 32 s <? cast 32 (len input))) * bz x)))).
    + by rewrite length_replicate.
    + rewrite length_app, length_drop, length_replicate. lia.
    + intros j Hj.
      replace (wadd 32 (N.of_nat j) (N.of_nat n)) with (Some (N.of_nat (j + n)))
        by (symmetry; apply wadd_Some; change (2 ^ 32) with 4294967296; lia).
      cbn [mbind option_bind]. unfold len.
      rewrite !(cast_small 32) by (change (2 ^ 32) with 4294967296; lia).
      destruct (N.ltb_spec (N.of_nat (j + n)) (N.of_nat (length input))) as [Hin|Hout];
        unfold b2n.
      * rewrite N.mul_1_l. unfold get. rewrite Nat2N.id.
        destruct (lookup_lt_is_Some_2 input (j + n)) as [x Hx]; [lia|].
        rewrite Hx. cbn [mbind option_bind].
        rewrite lookup_app_l by (rewrite length_drop; lia).
        rewrite lookup_drop. rewrite (Nat.add_comm n j), Hx.
        f_equal. change (cast 8 1) with 1. rewrite N.mul_1_l. apply zb_bz.
      * rewrite N.mul_0_l. unfold get. change (N.to_nat 0) with 0%nat.
        destruct (lookup_lt_is_Some_2 input 0) as [x Hx]; [lia|].
        rewrite Hx. cbn [mbind option_bind].
        rewrite lookup_app_r by (rewrite length_drop; lia).
        rewrite lookup_replicate_2 by (rewrite length_drop; lia).
        f_equal.
  - intros j t Hj. cbv beta.
    destruct (wadd 32 j (N.of_nat n)) as [s|]; [|done]. cbn [mbind option_bind].
    by destruct (get input _).
Qed.

Lemma byte_value_spec (b : list byte) :
  len b < 2 ^ 31 →
  Utils.byte_value b
  = Some (drop (lead_zeros b) b ++ replicate (lead_zeros b) x00,
          N.of_nat (length b - lead_zeros b)).
Proof.
  intros Hlen. unfold Utils.byte_value. cbv zeta.
  rewrite value_length_loop. cbn [mbind option_bind].
  pose proof (lead_zeros_le b) as Hle.
  replace (wsub (len b) (N.of_nat (length b - lead_zeros b)))
    with (Some (N.of_nat (lead_zeros b)))
    by (symmetry; apply wsub_Some; unfold len; lia).
  cbn [mbind option_bind]. by rewrite left_byte_shift_spec.
Qed.

(** C8 (as amended).  For a byte array [b] (shorter than [2^31] bytes) and
    [n <= length b] with [b[0..n]] not all zero and [b[n..]] all zero,
    [byte_value b] returns the pair [(s, n')] where [s] is [b] shifted left
    by its leading zero bytes and zero-filled on the right - so [s] is [b]
    itself exactly when [b] has no leading zero - and
    [n' = length b - lead_zeros b >= n - lead_zeros (b[0..n])]. *)
Theorem byte_value_left_justifies (b : list byte) (n : nat) :
  len b < 2 ^ 31 → (n ≤ length b)%nat →
  take n b ≠ replicate n x00 →
  drop n b = replicate (length b - n) x00 →
  ∃ n', Utils.byte_value b
        = Some (drop (lead_zeros b) b ++ replicate (lead_zeros b) x00, n')
        ∧ n' = N.of_nat (length b - lead_zeros b)
        ∧ N.of_nat (n - lead_zeros (take n b)) ≤ n'
        ∧ (lead_zeros b = 0%nat →
           drop (lead_zeros b) b ++ replicate (lead_zeros b) x00 = b).
Proof.
  intros Hlen Hn Hnz Hz. eexists. split_and!.
  - by apply byte_value_spec.
  - done.
  - rewrite lead_zeros_take by done. lia.
  - intros ->. simpl. by rewrite app_nil_r.
Qed.

Lemma byte_value_left_justifies_witness :
  ∃ n', Utils.byte_value (bytes [0; 0; 5; 0; 7; 0])
        = Some (bytes [5; 0; 7; 0; 0; 0], n')
        ∧ n' = 4
        ∧ 3 ≤ n'
        ∧ (2%nat = 0%nat → bytes [5; 0; 7; 0; 0; 0] = bytes [0; 0; 5; 0; 7; 0]).
Proof.
  apply (byte_value_left_justifies (bytes [0; 0; 5; 0; 7; 0]) 5).
  - reflexivity.
  - simpl. lia.
  - discriminate.
  - reflexivity.
Defined.

(** The claim as stated asks for the first component to be [b] itself; a
    single leading zero already moves the bytes. *)
Lemma byte_value_shifts_its_input :
  let b := bytes [0; 5] in
  (2 ≤ length b)%nat ∧ take 2 b ≠ replicate 2 x00
  ∧ drop 2 b = replicate (length b - 2) x00
  ∧ Utils.byte_value b = Some (bytes [5; 0], 1)
  ∧ bytes [5; 0] ≠ b.
Proof.
  cbv zeta. split_and!.
  - simpl. lia.
  - discriminate.
  - reflexivity.
  - reflexivity.
  - discriminate.
Qed.

(** ** The node resolvers *)

Lemma branch_slot_check l :
  l < 2 ^ 64 →
  (fmul (as_field l) (fsub (as_field l) (as_field KEY_LENGTH)) =? 0) = true →
  l = 0 ∨ l = 32.
Proof.
  intros Hl H. apply N.eqb_eq in H.
  pose proof (Fr_gt_u64 l Hl) as HlF. pose proof Fr_big as HF.
  change (2 ^ 200) with 1606938044258990275541962092341162602522202993782792835301376 in HF.
  change (2 ^ 64) with 18446744073709551616 in Hl.
  unfold as_field, KEY_LENGTH in H.
  rewrite (N.mod_small l) in H by done. rewrite (N.mod_small 32) in H by lia.
  destruct (N.le_gt_cases 32 l) as [Hge|Hlt].
  - rewrite fsub_ge in H by done. rewrite fmul_small in H by nia. nia.
  - rewrite fsub_lt in H by lia.
    destruct (decide (l = 0)) as [->|Hnz]; [by left|].
    exfalso. unfold fmul in H.
    replace (l * (l + Fr - 32)) with ((Fr - (32 - l) * l) + (l - 1) * Fr) in H by nia.
    rewrite N.Div0.mod_add in H. rewrite N.mod_small in H by nia. nia.
Qed.

Lemma copy_loop_Some (node : list byte) (off : N) n (out : list byte) :
  for_loop n 0 (λ j o, k ← wadd 64 off j; x ← get node k; set o j x)
    (replicate n x00) = Some out →
  out = take n (drop (N.to_nat off) node) ∧ length out = n
  ∧ (n ≠ 0%nat → off + N.of_nat n ≤ len node).
Proof.
  intros Hrun.
  erewrite for_loop_ext in Hrun.
  - apply (fill_loop_Some (λ j, k ← wadd 64 off j; get node k)) in Hrun
      as [Hl Hf]; [|by rewrite length_replicate].
    assert (Hin : ∀ j, (j < n)%nat → out !! j = node !! (N.to_nat off + j)%nat).
    { intros j Hj. rewrite <- (Hf j Hj).
      destruct (wadd 64 off (N.of_nat j)) as [k|] eqn:E; simpl.
      - apply wadd_Some in E as [-> _]. unfold get. f_equal. lia.
      - specialize (Hf j Hj). rewrite E in Hf. simpl in Hf.
        destruct (lookup_lt_is_Some_2 out j) as [x Hx]; [lia|]. congruence. }
    split_and!; [|done|].
    + apply list_eq. intros j. destruct (decide (j < n)%nat) as [Hj|Hj].
      * rewrite Hin by done. rewrite lookup_take_lt by done. by rewrite lookup_drop.
      * rewrite lookup_ge_None_2 by lia. symmetry. apply lookup_ge_None_2.
        rewrite length_take. lia.
    + intros Hn. specialize (Hin (n - 1)%nat ltac:(lia)).
      destruct (lookup_lt_is_Some_2 out (n - 1)) as [x Hx]; [lia|].
      rewrite Hx in Hin. symmetry in Hin. apply lookup_lt_Some in Hin.
      unfold len. lia.
  - intros j t Hj. cbv beta.
    destruct (wadd 64 off j) as [k|]; [|done]. cbn [mbind option_bind].
    by destruct (get node k).
Qed.

(** C5.  [resolve17] is sound: on a table of [u64] lengths and a key of 64
    nibbles it succeeds only if the table has exactly 17 fields, each of the
    first 16 has length 0 or 32, the 17th is empty, the cursor is below 64
    and the slot indexed by the key nibble at the cursor has length exactly
    32; it then returns the 32 bytes of the node at that slot's recorded
    offset, the length 32, and the cursor advanced by exactly 1. *)
Theorem resolve17_sound (node : list byte) (t : RLP_List.t) (key : list byte)
    (key_ptr : N) (h : list byte) (l key_ptr' : N) :
  len key = NIBBLE_LENGTH →
  Forall (λ x, x < 2 ^ 64) (RLP_List.length t) →
  Node.resolve17 node t key key_ptr = Some (h, l, key_ptr') →
  RLP_List.num_fields t = 17
  ∧ (∀ i, (i < 16)%nat →
          RLP_List.length t !! i = Some 0 ∨ RLP_List.length t !! i = Some 32)
  ∧ RLP_List.length t !! 16%nat = Some 0
  ∧ key_ptr < 64
  ∧ ∃ nibble off,
      key !! N.to_nat key_ptr = Some nibble
      ∧ RLP_List.length t !! N.to_nat (bz nibble) = Some 32
      ∧ RLP_List.offset t !! N.to_nat (bz nibble) = Some off
      ∧ off + 32 ≤ len node
      ∧ h = take 32 (drop (N.to_nat off) node)
      ∧ length h = 32%nat
      ∧ l = 32
      ∧ key_ptr' = key_ptr + 1.
Proof.
  intros Hkey Hty Hrun. unfold Node.resolve17 in Hrun.
  apply bind_Some in Hrun as ([] & Hnf & Hrun). apply assert_Some in Hnf.
  apply bind_Some in Hrun as ([] & Hslots & Hrun).
  apply bind_Some in Hrun as (l16 & Hl16 & Hrun).
  apply bind_Some in Hrun as ([] & Hz & Hrun). apply assert_Some in Hz.
  apply bind_Some in Hrun as (nib & Hnib & Hrun).
  apply bind_Some in Hrun as (rl & Hrl & Hrun).
  apply bind_Some in Hrun as ([] & Hrl32 & Hrun). apply assert_Some in Hrl32.
  apply bind_Some in Hrun as ([] & Hptr & Hrun). apply assert_Some in Hptr.
  apply bind_Some in Hrun as (kp & Hkp & Hrun). apply wadd_Some in Hkp as [-> _].
  apply bind_Some in Hrun as (off & Hoff & Hrun).
  apply bind_Some in Hrun as (rk & Hrk & Hrun).
  injection Hrun as <- <- <-.
  apply N.eqb_eq in Hnf, Hz, Hrl32. subst l16 rl.
  apply copy_loop_Some in Hrk as (Hrk & Hlen & Hin).
  change (N.to_nat KEY_LENGTH) with 32%nat in *.
  split_and!; [exact Hnf| |exact Hl16| |].
  - intros i Hi.
    pose (P := λ (j : N) (_ : unit),
            ∀ i, (i < N.to_nat j)%nat →
                 RLP_List.length t !! i = Some 0 ∨ RLP_List.length t !! i = Some 32).
    assert (HP : P (0 + N.of_nat 16) ()).
    { apply (for_loop_inv P _ _ _ _ _ Hslots).
      - intros k Hk. lia.
      - intros j [] [] Hj HPj Hb k Hk.
        apply bind_Some in Hb as (x & Hx & Hb). apply assert_Some in Hb.
        destruct (decide (k = N.to_nat j)) as [->|Hne]; [|apply HPj; lia].
        unfold get in Hx. rewrite Hx.
        assert (Hx64 : x < 2 ^ 64).
        { rewrite Forall_forall in Hty. apply Hty.
          apply list_elem_of_In. by eapply list_elem_of_lookup_2. }
        destruct (branch_slot_check x Hx64 Hb) as [->| ->]; auto. }
    apply HP. lia.
  - apply get_lt in Hnib. rewrite Hkey in Hnib. unfold NIBBLE_LENGTH in Hnib. lia.
  - exists nib, off. split_and!; try assumption; try reflexivity.
    apply Hin. lia.
Qed.

Lemma take_dot_drop_Some {A} M (arr : list A) (n : N) (out : list A) :
  Rlp.take_dot_drop M arr n = Some out →
  length out = M
  ∧ ∀ i, (i < M)%nat →
         out !! i = arr !! (if N.of_nat i + n <? len arr
                            then N.to_nat (N.of_nat i + n) else 0%nat)
         ∧ is_Some (out !! i).
Proof.
  unfold Rlp.take_dot_drop. intros Hrun.
  apply bind_Some in Hrun as (a0 & Ha0 & Hrun).
  erewrite for_loop_ext in Hrun.
  - apply (fill_loop_Some
             (λ i, s ← wadd 64 i n; get arr (b2n (s <? len arr) * s))) in Hrun
      as [Hl Hf]; [|by rewrite length_replicate].
    split; [done|]. intros i Hi. specialize (Hf i Hi).
    destruct (lookup_lt_is_Some_2 out i) as [x Hx]; [lia|].
    split; [|eauto]. rewrite Hx in Hf.
    apply bind_Some in Hf as (s & Hs & Hg). apply wadd_Some in Hs as [-> _].
    rewrite Hx, <- Hg. unfold get, b2n.
    destruct (N.of_nat i + n <? len arr); f_equal; lia.
  - intros j t Hj. cbv beta.
    destruct (wadd 64 j n) as [s|]; [|done]. cbn [mbind option_bind].
    by destruct (get arr _).
Qed.

Lemma flat_nibbles_length l : length (flat_nibbles l) = (2 * length l)%nat.
Proof. induction l as [|b l IH]; simpl; [done|]. lia. Qed.

Lemma flat_nibbles_even l k b :
  l !! k = Some b → flat_nibbles l !! (2 * k)%nat = Some (Utils.byte_to_nibbles b).1.
Proof.
  revert k. induction l as [|a l IH]; intros k Hk; [done|].
  destruct k as [|k]; simpl in *.
  - by injection Hk as ->.
  - replace (k + S (k + 0))%nat with (S (2 * k)) by lia. simpl. by apply IH.
Qed.

Lemma flat_nibbles_odd l k b :
  l !! k = Some b → flat_nibbles l !! (2 * k + 1)%nat = Some (Utils.byte_to_nibbles b).2.
Proof.
  revert k. induction l as [|a l IH]; intros k Hk; [done|].
  destruct k as [|k]; simpl in *.
  - by injection Hk as ->.
  - replace (k + S (k + 0) + 1)%nat with (S (2 * k + 1)) by lia. simpl. by apply IH.
Qed.

Lemma flat_nibbles_agree l1 l2 n :
  (∀ k, (k < n)%nat → l1 !! k = l2 !! k) →
  ∀ m, (m < 2 * n)%nat → flat_nibbles l1 !! m = flat_nibbles l2 !! m.
Proof.
  revert l2 n. induction l1 as [|a l1 IH]; intros l2 n Hag m Hm.
  - destruct l2 as [|b l2]; [done|].
    destruct n as [|n]; [lia|]. specialize (Hag 0%nat ltac:(lia)). done.
  - destruct n as [|n]; [lia|].
    destruct l2 as [|b l2]; [specialize (Hag 0%nat ltac:(lia)); done|].
    pose proof (Hag 0%nat ltac:(lia)) as H0. simpl in H0. injection H0 as <-.
    destruct m as [|[|m]]; simpl; [done|done|].
    apply (IH l2 n); [|lia]. intros k Hk. apply (Hag (S k)). lia.
Qed.

Lemma byte_to_nibbles_bz b :
  bz (Utils.byte_to_nibbles b).1 = bz b / 16
  ∧ bz (Utils.byte_to_nibbles b).2 = bz b mod 16.
Proof.
  unfold Utils.byte_to_nibbles. cbv zeta. simpl fst. simpl snd.
  pose proof (bz_range b). rewrite N.shiftr_div_pow2. change (2 ^ 4) with 16.
  rewrite !bz_zb by lia. lia.
Qed.

Lemma compact_decode_Some (input : list byte) (len0 : N) nib niblen :
  length input = 33%nat →
  Node.compact_decode 64 input len0 = Some (nib, niblen) →
  ∃ h, input !! 0%nat = Some h
       ∧ bz h / 16 < 4
       ∧ ((bz h / 16) mod 2 = 0 → bz h mod 16 = 0)
       ∧ 2 ≤ 2 * len0 + (bz h / 16) mod 2
       ∧ niblen = 2 * len0 + (bz h / 16) mod 2 - 2
       ∧ cast 32 niblen ≤ 64
       ∧ length nib = 64%nat
       ∧ ∀ m, (m < 64)%nat →
              nib !! m = flat_nibbles input !! (m + 2 - N.to_nat ((bz h / 16) mod 2))%nat.
Proof.
  intros Hlen Hrun. unfold Node.compact_decode in Hrun. cbv zeta in Hrun.
  apply bind_Some in Hrun as (m2 & _ & Hrun).
  apply bind_Some in Hrun as ([] & _ & Hrun).
  apply bind_Some in Hrun as (h & Hh & Hrun).
  pose proof (byte_to_nibbles_bz h) as [Hhi Hlo].
  apply bind_Some in Hrun as ([] & Hfirst & Hrun). apply assert_Some, N.ltb_lt in Hfirst.
  apply bind_Some in Hrun as ([] & Hpar & Hrun). apply assert_Some, N.eqb_eq in Hpar.
  apply bind_Some in Hrun as (n & Hn & Hrun). apply wsub_Some in Hn as [-> _].
  apply bind_Some in Hrun as ([nibble prev] & Hloop & Hrun).
  apply bind_Some in Hrun as (l2 & Hl2 & Hrun). apply wmul_Some in Hl2 as [-> _].
  apply bind_Some in Hrun as (l2p & Hl2p & Hrun). apply wadd_Some in Hl2p as [-> _].
  apply bind_Some in Hrun as (ol & Hol & Hrun). apply wsub_Some in Hol as [-> Hge].
  apply bind_Some in Hrun as ([] & Hout & Hrun). apply assert_Some, N.leb_le in Hout.
  rewrite Hhi in Hfirst, Hpar, Hloop. rewrite Hlo in Hpar. rewrite Hhi in Hge, Hout, Hrun.
  exists h.
  set (tt := bz h / 16) in *.
  assert (Hc1 : cast 1 tt = tt mod 2) by (unfold cast; by change (2 ^ 1) with 2).
  rewrite Hc1 in *.
  assert (Hp : tt mod 2 = 0 ∨ tt mod 2 = 1) by lia.
  assert (Hc8 : cast 8 (tt mod 2) = tt mod 2)
    by (apply cast_small; change (2 ^ 8) with 256; lia).
  assert (Hc64 : cast 64 (tt mod 2) = tt mod 2)
    by (apply cast_small; change (2 ^ 64) with 18446744073709551616; lia).
  rewrite Hc8 in Hloop. rewrite Hc64 in Hge, Hout, Hrun.
  injection Hrun as <- <-.
  change (cast 32 64) with 64 in Hout.
  unfold get in Hh. change (N.to_nat 0) with 0%nat in Hh.
  unfold len in Hloop. rewrite Hlen in Hloop.
  change (N.to_nat (N.of_nat 33 - 1)) with 32%nat in Hloop.
  change (N.to_nat 64) with 64%nat in Hloop.
  set (p := tt mod 2) in *.
  pose (P := λ (i : N) (st : list byte * (byte * byte)),
          length st.1 = 64%nat
          ∧ (∃ b, input !! N.to_nat i = Some b ∧ st.2 = Utils.byte_to_nibbles b)
          ∧ ∀ m, (m < 2 * N.to_nat i)%nat →
                 st.1 !! m = flat_nibbles input !! (m + 2 - N.to_nat p)%nat).
  assert (HP : P (0 + N.of_nat 32) (nibble, prev)).
  { apply (for_loop_inv P _ _ _ _ _ Hloop).
    - unfold P; simpl. split_and!; [reflexivity | exists h; split; [exact Hh | reflexivity] |].
      intros m Hm. lia.
    - intros j [nb pv] [nb' pv'] Hj (HL & (b & Hb & Hpv) & Hm) Hbody.
      simpl in HL, Hpv. subst pv.
      apply bind_Some in Hbody as (i1 & Hi1 & Hbody). apply wadd_Some in Hi1 as [-> _].
      apply bind_Some in Hbody as (x & Hx & Hbody).
      apply bind_Some in Hbody as (i2 & Hi2 & Hbody). apply wmul_Some in Hi2 as [-> _].
      apply bind_Some in Hbody as (nb1 & Hnb1 & Hbody). apply set_Some in Hnb1 as [-> Hlt1].
      apply bind_Some in Hbody as (i21 & Hi21 & Hbody). apply wadd_Some in Hi21 as [-> _].
      apply bind_Some in Hbody as (nb2 & Hnb2 & Hbody). apply set_Some in Hnb2 as [-> Hlt2].
      injection Hbody as <- <-.
      unfold get in Hx.
      replace (N.to_nat (j + 1)) with (S (N.to_nat j)) in Hx by lia.
      pose proof (flat_nibbles_even input _ _ Hb) as Fe0.
      pose proof (flat_nibbles_odd input _ _ Hb) as Fo0.
      pose proof (flat_nibbles_even input _ _ Hx) as Fe1.
      pose proof (flat_nibbles_odd input _ _ Hx) as Fo1.
      pose proof (byte_to_nibbles_bz b) as [_ Hlob].
      pose proof (byte_to_nibbles_bz x) as [Hhix Hlox].
      pose proof (bz_range b). pose proof (bz_range x).
      unfold P. split_and!.
      + simpl. by rewrite !length_insert.
      + exists x. split; [|done]. simpl.
        by replace (N.to_nat (N.succ j)) with (S (N.to_nat j)) by lia.
      + intros m Hm'. simpl.
        replace (N.to_nat (2 * j + 1)) with (2 * N.to_nat j + 1)%nat by lia.
        replace (N.to_nat (2 * j)) with (2 * N.to_nat j)%nat by lia.
        destruct (decide (m = 2 * N.to_nat j + 1)%nat) as [->|Hne1].
        * rewrite list_lookup_insert_eq by (rewrite length_insert; lia).
          destruct Hp as [Hp|Hp]; rewrite Hp.
          -- replace (2 * N.to_nat j + 1 + 2 - N.to_nat 0)%nat
               with (2 * S (N.to_nat j) + 1)%nat by lia.
             rewrite Fo1. f_equal. rewrite N.mul_0_l, N.add_0_l, N.sub_0_r, N.mul_1_l.
             apply zb_bz.
          -- replace (2 * N.to_nat j + 1 + 2 - N.to_nat 1)%nat
               with (2 * S (N.to_nat j))%nat by lia.
             rewrite Fe1. f_equal.
             replace (1 - 1) with 0 by lia.
             rewrite N.mul_0_l, N.add_0_r, N.mul_1_l. apply zb_bz.
        * rewrite list_lookup_insert_ne by lia.
          destruct (decide (m = 2 * N.to_nat j)%nat) as [->|Hne2].
          -- rewrite list_lookup_insert_eq by lia.
             destruct Hp as [Hp|Hp]; rewrite Hp.
             ++ replace (2 * N.to_nat j + 2 - N.to_nat 0)%nat
                  with (2 * S (N.to_nat j))%nat by lia.
                rewrite Fe1. f_equal. rewrite N.mul_0_l, N.add_0_l, N.sub_0_r, N.mul_1_l.
                apply zb_bz.
             ++ replace (2 * N.to_nat j + 2 - N.to_nat 1)%nat
                  with (2 * N.to_nat j + 1)%nat by lia.
                rewrite Fo0. f_equal.
                replace (1 - 1) with 0 by lia.
                rewrite N.mul_0_l, N.add_0_r, N.mul_1_l. apply zb_bz.
          -- rewrite list_lookup_insert_ne by lia. apply Hm. lia. }
  destruct HP as (HL & _ & Hm); simpl in HL, Hm.
  split_and!; try assumption.
  - intros E. fold p in E. rewrite E in Hpar.
    rewrite cast_small in Hpar by (change (2 ^ 8) with 256; lia). lia.
  - reflexivity.
Qed.

Lemma nibble_check_loop (nib key : list byte) (key_ptr niblen : N) :
  for_loop 64 0
    (λ i _, if cast 32 i <? cast 32 niblen
            then a ← get nib i; j ← wadd 64 key_ptr i; b ← get key j;
                 assert (bool_decide (a = b))
            else Some ()) () = Some () →
  ∀ i, i < 64 → i < cast 32 niblen →
       ∃ a, nib !! N.to_nat i = Some a ∧ key !! N.to_nat (key_ptr + i) = Some a.
Proof.
  intros Hrun.
  pose (P := λ (j : N) (_ : unit),
          ∀ i, i < j → i < cast 32 niblen →
               ∃ a, nib !! N.to_nat i = Some a
                    ∧ key !! N.to_nat (key_ptr + i) = Some a).
  assert (HP : P (0 + N.of_nat 64) ()).
  { apply (for_loop_inv P _ _ _ _ _ Hrun).
    - intros i Hi. lia.
    - intros j [] [] Hj HPj Hb i Hi Hlt.
      destruct (decide (i = j)) as [->|Hne]; [|apply HPj; lia].
      rewrite (cast_small 32 j) in Hb by (change (2 ^ 32) with 4294967296; lia).
      replace (j <? cast 32 niblen) with true in Hb
        by (symmetry; by apply N.ltb_lt).
      apply bind_Some in Hb as (a & Ha & Hb).
      apply bind_Some in Hb as (k & Hk & Hb). apply wadd_Some in Hk as [-> _].
      apply bind_Some in Hb as (b & Hkb & Hb).
      apply assert_Some, bool_decide_eq_true in Hb. subst b.
      exists a. split; assumption. }
  intros i Hi. apply HP. lia.
Qed.

(** C6.  [resolve2] is sound.  On a node shorter than [2^31] bytes and a
    table whose first two fields [(off0, len0)] and [(off1, len1)] lie inside
    the node (as every field recorded by the decoders does), with [h] the
    first byte of the first field, [t = h >> 4] and [p = t & 1], it succeeds
    only if [t < 4], an even [t] comes with a zero low nibble of [h] (which
    is skipped) while an odd [t] makes that low nibble the first path nibble,
    and the [count = 2*len0 + p - 2] nibbles of the field after the hex
    prefix equal the key nibbles at [[key_ptr, key_ptr + count)]; it then
    returns node type [LEAF] iff [t >= 2], the [MAX_VALUE_LEN] bytes at the
    second field's offset, the second field's recorded length, which is at
    most [MAX_VALUE_LEN], so that the first [len1] returned bytes are the
    second field, and the cursor advanced by exactly [count]. *)
Theorem resolve2_sound (MAX_VALUE_LEN : N) (node : list byte) (t : RLP_List.t)
    (key : list byte) (key_ptr : N) (ty : N) (v : list byte) (vl key_ptr' : N)
    (off0 len0 off1 len1 : N) :
  len key = NIBBLE_LENGTH → len node < 2 ^ 31 → MAX_VALUE_LEN < 2 ^ 32 →
  RLP_List.offset t !! 0%nat = Some off0 →
  RLP_List.length t !! 0%nat = Some len0 →
  off0 + len0 ≤ len node →
  RLP_List.offset t !! 1%nat = Some off1 →
  RLP_List.length t !! 1%nat = Some len1 →
  off1 + len1 ≤ len node →
  Node.resolve2 MAX_VALUE_LEN node t key key_ptr = Some (ty, v, vl, key_ptr') →
  RLP_List.num_fields t = 2
  ∧ ∃ h,
      node !! N.to_nat off0 = Some h
      ∧ bz h / 16 < 4
      ∧ ((bz h / 16) mod 2 = 0 → bz h mod 16 = 0)
      ∧ 2 ≤ 2 * len0 + (bz h / 16) mod 2
      ∧ key_ptr + (2 * len0 + (bz h / 16) mod 2 - 2) ≤ 64
      ∧ (∀ i, i < 2 * len0 + (bz h / 16) mod 2 - 2 →
              ∃ a, key !! N.to_nat (key_ptr + i) = Some a
                   ∧ drop (2 - N.to_nat ((bz h / 16) mod 2))
                       (flat_nibbles (take (N.to_nat len0) (drop (N.to_nat off0) node)))
                     !! N.to_nat i = Some a)
      ∧ ((bz h / 16) mod 2 = 1 →
         ∃ a, key !! N.to_nat key_ptr = Some a ∧ bz a = bz h mod 16)
      ∧ (ty = LEAF ↔ 2 ≤ bz h / 16)
      ∧ (ty = LEAF ∨ ty = 0)
      ∧ vl = len1
      ∧ len1 ≤ MAX_VALUE_LEN
      ∧ v = take (N.to_nat MAX_VALUE_LEN) (drop (N.to_nat off1) node)
      ∧ length v = N.to_nat MAX_VALUE_LEN
      ∧ take (N.to_nat len1) v = take (N.to_nat len1) (drop (N.to_nat off1) node)
      ∧ length (take (N.to_nat len1) v) = N.to_nat len1
      ∧ key_ptr' = key_ptr + (2 * len0 + (bz h / 16) mod 2 - 2).
Proof.
  intros Hkey Hnode HM Hoff0 Hlen0 Hin Hoff1 Hlen1 Hin1 Hrun. unfold Node.resolve2 in Hrun.
  change (2 ^ 31) with 2147483648 in Hnode.
  change (2 ^ 32) with 4294967296 in HM.
  apply bind_Some in Hrun as ([] & Hnf & Hrun). apply assert_Some, N.eqb_eq in Hnf.
  apply bind_Some in Hrun as (o0 & Ho0 & Hrun).
  unfold get in Ho0. change (N.to_nat 0) with 0%nat in Ho0.
  rewrite Hoff0 in Ho0. injection Ho0 as <-.
  apply bind_Some in Hrun as (first_slot & Hfs & Hrun).
  change (N.to_nat (1 + NIBBLE_LENGTH / 2)) with 33%nat in Hfs.
  apply take_dot_drop_Some in Hfs as [Hfsl Hfs].
  apply bind_Some in Hrun as (l0 & Hl0 & Hrun).
  unfold get in Hl0. change (N.to_nat 0) with 0%nat in Hl0.
  rewrite Hlen0 in Hl0. injection Hl0 as <-.
  apply bind_Some in Hrun as ([nib niblen] & Hcd & Hrun).
  apply (compact_decode_Some _ _ _ _ Hfsl) in Hcd
    as (h & Hh & Ht4 & Heven & Hge & -> & Hcast & Hnibl & Hnib).
  apply bind_Some in Hrun as (room & Hroom & Hrun). apply wsub_Some in Hroom as [-> Hkp].
  apply bind_Some in Hrun as ([] & Hfit & Hrun). apply assert_Some, N.leb_le in Hfit.
  apply bind_Some in Hrun as ([] & Hcmp & Hrun).
  apply bind_Some in Hrun as (vl' & Hvl & Hrun).
  unfold get in Hvl. change (N.to_nat 1) with 1%nat in Hvl.
  rewrite Hlen1 in Hvl. injection Hvl as <-.
  apply bind_Some in Hrun as ([] & Hbound & Hrun). apply assert_Some, N.leb_le in Hbound.
  rewrite (cast_small 32 len1), (cast_small 32 MAX_VALUE_LEN) in Hbound
    by (change (2 ^ 32) with 4294967296; lia).
  apply bind_Some in Hrun as (kp & Hkp' & Hrun). apply wadd_Some in Hkp' as [-> _].
  apply bind_Some in Hrun as (o1 & Ho1 & Hrun).
  unfold get in Ho1. change (N.to_nat 1) with 1%nat in Ho1.
  rewrite Hoff1 in Ho1. injection Ho1 as <-.
  apply bind_Some in Hrun as (e & _ & Hrun).
  apply bind_Some in Hrun as ([] & _ & Hrun).
  apply bind_Some in Hrun as (value & Hval & Hrun).
  apply bind_Some in Hrun as (fs0 & Hfs0 & Hrun).
  injection Hrun as <- <- <- <-.
  apply copy_loop_Some in Hval as (Hval & Hvall & _).
  unfold get in Hfs0. change (N.to_nat 0) with 0%nat in Hfs0.
  rewrite Hh in Hfs0. injection Hfs0 as <-.
  set (p := (bz h / 16) mod 2) in *.
  assert (Hp : p = 0 ∨ p = 1) by lia.
  unfold NIBBLE_LENGTH in Hkp, Hfit, Hcmp, Hkey.
  assert (Hcount : 2 * len0 + p - 2 < 2 ^ 32)
    by (change (2 ^ 32) with 4294967296; lia).
  rewrite (cast_small 32 (2 * len0 + p - 2)) in Hcast, Hfit by exact Hcount.
  rewrite (cast_small 32 (64 - key_ptr)) in Hfit
    by (change (2 ^ 32) with 4294967296; lia).
  change (N.to_nat 64) with 64%nat in Hcmp.
  pose proof (nibble_check_loop _ _ _ _ Hcmp) as Hnibs.
  rewrite (cast_small 32 (2 * len0 + p - 2)) in Hnibs by exact Hcount.
  (* the first slot reads the node inside the first field *)
  assert (Hslot : ∀ k, (k < N.to_nat len0)%nat →
            first_slot !! k = take (N.to_nat len0) (drop (N.to_nat off0) node) !! k).
  { intros k Hk. destruct (Hfs k ltac:(lia)) as [E _]. rewrite E.
    replace (N.of_nat k + off0 <? len node) with true
      by (symmetry; apply N.ltb_lt; lia).
    rewrite lookup_take_lt by exact Hk. rewrite lookup_drop. f_equal. lia. }
  assert (Hh' : node !! N.to_nat off0 = Some h).
  { rewrite <- Hh, (Hslot 0%nat) by lia.
    rewrite lookup_take_lt by lia. rewrite lookup_drop. f_equal. lia. }
  assert (Hnibble : ∀ i, i < 2 * len0 + p - 2 →
            ∃ a, key !! N.to_nat (key_ptr + i) = Some a
                 ∧ drop (2 - N.to_nat p)
                     (flat_nibbles (take (N.to_nat len0) (drop (N.to_nat off0) node)))
                   !! N.to_nat i = Some a).
  { intros i Hi. destruct (Hnibs i ltac:(lia) Hi) as (a & Ha & Hka).
    exists a. split; [exact Hka|].
    rewrite lookup_drop.
    rewrite <- (flat_nibbles_agree first_slot _ (N.to_nat len0) Hslot) by lia.
    rewrite <- Ha, Hnib by lia. f_equal. lia. }
  assert (Hfield : take (N.to_nat len1) value
                   = take (N.to_nat len1) (drop (N.to_nat off1) node)).
  { rewrite Hval, take_take. f_equal. lia. }
  split; [exact Hnf|]. exists h.
  split_and!; try assumption; try reflexivity.
  - lia.
  - intros Hodd. fold p in Hodd. destruct (Hnibble 0 ltac:(lia)) as (a & Hka & Ha).
    exists a. rewrite N.add_0_r in Hka. split; [exact Hka|].
    rewrite lookup_drop, Hodd in Ha.
    change (2 - N.to_nat 1 + N.to_nat 0)%nat with (2 * 0 + 1)%nat in Ha.
    assert (Hf0 : take (N.to_nat len0) (drop (N.to_nat off0) node) !! 0%nat = Some h).
    { rewrite lookup_take_lt by lia. rewrite lookup_drop.
      rewrite <- Hh'. f_equal. lia. }
    rewrite (flat_nibbles_odd _ _ _ Hf0) in Ha. injection Ha as <-.
    apply byte_to_nibbles_bz.
  - rewrite N.shiftr_div_pow2. change (2 ^ 4) with 16. unfold LEAF, b2n.
    destruct (N.ltb_spec 1 (bz h / 16)); split; intros; (lia || reflexivity || discriminate).
  - unfold LEAF, b2n. destruct (1 <? _); auto.
  - rewrite length_take. lia.
Qed.

(** ** The storage test vector *)

Lemma example_hashed_key :
  bz <$> Example.hashed_key
  = [0x29; 0x0d; 0xec; 0xd9; 0x54; 0x8b; 0x62; 0xa8; 0xd6; 0x03; 0x45; 0xa9;
     0x88; 0x38; 0x6f; 0xc8; 0x4b; 0xa6; 0xbc; 0x95; 0x48; 0x40; 0x08; 0xf6;
     0x36; 0x2f; 0x93; 0x16; 0x0e; 0xf3; 0xe5; 0x63].
Proof. reflexivity. Qed.

Lemma example_tables :
  Rlp.decode1_small_lis 17 Example.branch = Some Example.branch_table
  ∧ Rlp.decode1_small_lis 2 Example.leaf = Some Example.leaf_table
  ∧ Node.key_as_nibbles NIBBLE_LENGTH Example.hashed_key = Some Example.key_nibbles.
Proof. split_and!; vm_compute; reflexivity. Qed.


Lemma resolve17_sound_witness :
  ∃ nibble off,
    Example.key_nibbles !! N.to_nat 0 = Some nibble
    ∧ RLP_List.length Example.branch_table !! N.to_nat (bz nibble) = Some 32
    ∧ RLP_List.offset Example.branch_table !! N.to_nat (bz nibble) = Some off
    ∧ off + 32 ≤ len Example.branch
    ∧ Example.leaf_hash = take 32 (drop (N.to_nat off) Example.branch)
    ∧ length Example.leaf_hash = 32%nat
    ∧ 32 = 32
    ∧ 1 = 0 + 1.
Proof.
  refine (proj2 (proj2 (proj2 (proj2
    (resolve17_sound Example.branch Example.branch_table Example.key_nibbles 0
       Example.leaf_hash 32 1 _ _ _))))).
  - reflexivity.
  - repeat constructor.
  - vm_compute. reflexivity.
Defined.

Lemma resolve2_sound_witness :
  RLP_List.num_fields Example.leaf_table = 2
  ∧ ∃ h,
      Example.leaf !! N.to_nat 2 = Some h
      ∧ bz h / 16 < 4
      ∧ ((bz h / 16) mod 2 = 0 → bz h mod 16 = 0)
      ∧ 2 ≤ 2 * 32 + (bz h / 16) mod 2
      ∧ 1 + (2 * 32 + (bz h / 16) mod 2 - 2) ≤ 64
      ∧ (∀ i, i < 2 * 32 + (bz h / 16) mod 2 - 2 →
              ∃ a, Example.key_nibbles !! N.to_nat (1 + i) = Some a
                   ∧ drop (2 - N.to_nat ((bz h / 16) mod 2))
                       (flat_nibbles (take (N.to_nat 32) (drop (N.to_nat 2) Example.leaf)))
                     !! N.to_nat i = Some a)
      ∧ ((bz h / 16) mod 2 = 1 →
         ∃ a, Example.key_nibbles !! N.to_nat 1 = Some a ∧ bz a = bz h mod 16)
      ∧ (1 = LEAF ↔ 2 ≤ bz h / 16)
      ∧ (1 = LEAF ∨ 1 = 0)
      ∧ 1 = 1
      ∧ 1 ≤ 33
      ∧ bytes [5] ++ replicate 32 x00
        = take (N.to_nat 33) (drop (N.to_nat 34) Example.leaf)
      ∧ length (bytes [5] ++ replicate 32 x00) = N.to_nat 33
      ∧ take (N.to_nat 1) (bytes [5] ++ replicate 32 x00)
        = take (N.to_nat 1) (drop (N.to_nat 34) Example.leaf)
      ∧ length (take (N.to_nat 1) (bytes [5] ++ replicate 32 x00)) = N.to_nat 1
      ∧ 64 = 1 + (2 * 32 + (bz h / 16) mod 2 - 2).
Proof.
  apply (resolve2_sound 33 Example.leaf Example.leaf_table Example.key_nibbles 1
           1 (bytes [5] ++ replicate 32 x00) 1 64 2 32 34 1).
  - reflexivity.
  - reflexivity.
  - reflexivity.
  - reflexivity.
  - reflexivity.
  - vm_compute. discriminate.
  - reflexivity.
  - reflexivity.
  - vm_compute. discriminate.
  - vm_compute. reflexivity.
Defined.

(** The claim puts no bound on the lengths the table records, and [resolve2]
    compares [niblen as u32]: with a first field of recorded length
    [2^31 + 1] the nibble count is [2^32], which is [0] as a [u32], so the
    loop compares no nibble.  The call succeeds as a [LEAF] and advances the
    cursor by [2^32], although the first decoded nibble is [1] and the key
    nibble at the cursor is [0]. *)
Lemma resolve2_u32_cast_skips_key_check :
  let node := bytes [0x20; 0x11] ++ replicate 68 x00 in
  let t := RLP_List.new [0; 34] [2 ^ 31 + 1; 1] [0; 0] 2 in
  let key := replicate 64 x00 in
  ∃ first_slot nib,
    Rlp.take_dot_drop 33 node 0 = Some first_slot
    ∧ Node.compact_decode NIBBLE_LENGTH first_slot (2 ^ 31 + 1) = Some (nib, 2 ^ 32)
    ∧ nib !! 0%nat = Some (zb 1)
    ∧ key !! 0%nat = Some (zb 0)
    ∧ Node.resolve2 33 node t key 0 = Some (LEAF, replicate 33 x00, 1, 2 ^ 32).
Proof.
  intros node t key. eexists _, _. split_and!.
  - vm_compute. reflexivity.
  - vm_compute. reflexivity.
  - reflexivity.
  - reflexivity.
  - vm_compute. reflexivity.
Qed.

(** ** The list decoders *)

Lemma decode_len_type arr h :
  Rlp.decode_len arr = Some h →
  RLP_Header.data_type h = 0 ∨ RLP_Header.data_type h = 1.
Proof.
  unfold Rlp.decode_len. intros H.
  apply bind_Some in H as (p & _ & H). cbv zeta in H.
  apply bind_Some in H as (p1 & _ & H).
  apply bind_Some in H as (dl & _ & H).
  injection H as <-. simpl. unfold b2n. destruct (_ <=? _); auto.
Qed.

Lemma decode1_body_Some input total i off nf o l t st' :
  Rlp.decode1_body input total i (off, nf, o, l, t) = Some st' →
  ∃ fh, item_header input off = Some fh
        ∧ (RLP_Header.data_type fh = 0 ∨ RLP_Header.data_type fh = 1)
        ∧ i < len o ∧ i < len l ∧ i < len t
        ∧ st' = dec_step total i (RLP_Header.offset fh) (RLP_Header.length fh)
                  (RLP_Header.data_type fh) (off, nf, o, l, t).
Proof.
  unfold Rlp.decode1_body, item_header. intros H. cbv zeta in H.
  apply bind_Some in H as (header & Hh & H).
  apply bind_Some in H as (fh & Hfh & H).
  apply bind_Some in H as (tfl & Htfl & H). apply wadd_Some in Htfl as [-> _].
  apply bind_Some in H as (o1 & Ho1 & H). apply wadd_Some in Ho1 as [-> _].
  apply bind_Some in H as (o' & Ho' & H). apply set_Some in Ho' as [-> Hio].
  apply bind_Some in H as (l1 & Hl1 & H). apply wadd_Some in Hl1 as [-> _].
  apply bind_Some in H as (l' & Hl' & H). apply set_Some in Hl' as [-> Hil].
  apply bind_Some in H as (t' & Ht' & H). apply set_Some in Ht' as [-> Hit].
  apply bind_Some in H as (off' & Hoff' & H). apply wadd_Some in Hoff' as [-> _].
  apply bind_Some in H as (nf' & Hnf' & H). apply wadd_Some in Hnf' as [-> _].
  injection H as <-.
  exists fh. rewrite Hh. cbn [mbind option_bind].
  split_and!; try assumption; try reflexivity.
  by eapply decode_len_type.
Qed.

Lemma small_body_Some input total i off nf o l t st' :
  Rlp.decode1_small_lis_body input total i (off, nf, o, l, t) = Some st' →
  ∃ b, input !! N.to_nat off = Some b ∧ bz b < 0xb8
       ∧ i < len o ∧ i < len l ∧ i < len t
       ∧ st' = dec_step total i (if bz b <? 0x80 then 0 else 1)
                 (if bz b <? 0x80 then 1 else bz b - 0x80) 0 (off, nf, o, l, t).
Proof.
  unfold Rlp.decode1_small_lis_body. intros H. cbv zeta in H.
  apply bind_Some in H as (b & Hb & H).
  apply bind_Some in H as ([] & Hlt & H). apply assert_Some, N.ltb_lt in Hlt.
  apply bind_Some in H as (tfl & Htfl & H). apply wadd_Some in Htfl as [-> _].
  apply bind_Some in H as (o1 & Ho1 & H). apply wadd_Some in Ho1 as [-> _].
  apply bind_Some in H as (o' & Ho' & H). apply set_Some in Ho' as [-> Hio].
  apply bind_Some in H as (l' & Hl' & H). apply set_Some in Hl' as [-> Hil].
  apply bind_Some in H as (t' & Ht' & H). apply set_Some in Ht' as [-> Hit].
  apply bind_Some in H as (off' & Hoff' & H). apply wadd_Some in Hoff' as [-> _].
  apply bind_Some in H as (nf' & Hnf' & H). apply wadd_Some in Hnf' as [-> _].
  injection H as <-.
  exists b. split_and!; try assumption.
  unfold dec_step, Rlp.STRING, b2n. pose proof (bz_range b).
  destruct (N.ltb_spec (bz b) 0x80).
  - change (1 - 1) with 0. change (1 - 0) with 1.
    rewrite ?N.mul_0_l, ?N.mul_1_l, ?N.mul_0_r, ?N.mul_1_r, ?N.add_0_r, ?N.add_0_l.
    reflexivity.
  - rewrite wrapping_sub8_ge by lia.
    change (1 - 1) with 0. change (1 - 0) with 1.
    rewrite ?N.mul_0_l, ?N.mul_1_l, ?N.mul_0_r, ?N.mul_1_r, ?N.add_0_r, ?N.add_0_l.
    reflexivity.
Qed.

Lemma take_dot_drop_total {A} M (arr : list A) (n : N) :
  (0 < length arr)%nat → n + N.of_nat M < 2 ^ 64 →
  is_Some (Rlp.take_dot_drop M arr n).
Proof.
  intros Hne Hn. destruct arr as [|a0 arr]; [simpl in Hne; lia|].
  unfold Rlp.take_dot_drop. change (get (a0 :: arr) 0) with (Some a0).
  cbn [mbind option_bind]. set (l := a0 :: arr) in *.
  erewrite for_loop_ext.
  - erewrite (fill_loop_total
               (λ i, s ← wadd 64 i n; get l (b2n (s <? len l) * s))
               M _ ((λ i, default a0 (l !! (if N.of_nat i + n <? len l
                        then N.to_nat (N.of_nat i + n) else 0%nat))) <$> seq 0 M)).
    + eauto.
    + by rewrite length_replicate.
    + by rewrite length_fmap, length_seq.
    + intros j Hj.
      replace (wadd 64 (N.of_nat j) n) with (Some (N.of_nat j + n))
        by (symmetry; apply wadd_Some; split;
            [done | change (2 ^ 64) with 18446744073709551616 in *; lia]).
      cbn [mbind option_bind]. unfold get, b2n.
      rewrite list_lookup_fmap, lookup_seq_lt by done. simpl.
      destruct (N.ltb_spec (N.of_nat j + n) (len l)) as [Hlt'|Hge].
      * rewrite N.mul_1_l.
        destruct (lookup_lt_is_Some_2 l (N.to_nat (N.of_nat j + n)))
          as [x Hx]; [unfold len in Hlt'; lia|]. by rewrite Hx.
      * rewrite N.mul_0_l. reflexivity.
  - intros j t Hj. cbv beta.
    destruct (wadd 64 j n) as [s|]; [|done]. cbn [mbind option_bind].
    by destruct (get l _).
Qed.

Lemma item_header_short input pos b :
  input !! N.to_nat pos = Some b → bz b < 0xb8 → len input < 2 ^ 32 →
  item_header input pos
  = Some (RLP_Header.new (if bz b <? 0x80 then 0 else 1)
            (if bz b <? 0x80 then 1 else bz b - 0x80) 0).
Proof.
  intros Hb Hlt Hpos. unfold item_header.
  change (N.to_nat (Rlp.MAX_LEN_IN_BYTES + 1)) with 3%nat.
  destruct (Rlp.take_dot_drop 3 input pos) as [header|] eqn:E.
  - apply take_dot_drop_Some in E as [Hl Hf].
    destruct header as [|x [|y [|z [|]]]]; try discriminate Hl.
    destruct (Hf 0%nat ltac:(lia)) as [E0 _]. simpl in E0.
    pose proof (lookup_lt_Some _ _ _ Hb) as Hin.
    change (N.of_nat 0 + pos) with pos in E0.
    replace (pos <? len input) with true in E0
      by (symmetry; apply N.ltb_lt; unfold len; lia).
    rewrite Hb in E0. injection E0 as ->.
    cbn [mbind option_bind]. rewrite decode_len_correct by reflexivity.
    unfold decode_len_spec.
    replace (bz b <? 0xb8) with true by (symmetry; apply N.ltb_lt; lia).
    destruct (bz b <? 0x80); reflexivity.
  - exfalso. pose proof (lookup_lt_Some _ _ _ Hb) as Hin.
    destruct (take_dot_drop_total 3 input pos) as [out Hout].
    + lia.
    + change (2 ^ 64) with 18446744073709551616.
      change (2 ^ 32) with 4294967296 in Hpos. unfold len in Hpos. lia.
    + congruence.
Qed.

Lemma item_start_insert first o l n x y k :
  (k ≤ n)%nat →
  item_start first (<[n := x]> o) (<[n := y]> l) k = item_start first o l k.
Proof.
  intros Hk. destruct k as [|k]; simpl; [done|].
  by rewrite !list_lookup_insert_ne by lia.
Qed.

Lemma dec_inv_init input first total F :
  dec_inv input first total F 0 (first, 0, replicate F 0, replicate F 0, replicate F 0).
Proof.
  unfold dec_inv. rewrite !length_replicate.
  split_and!; try reflexivity; try (intros; lia).
  intros k Hk. by rewrite !lookup_replicate_2 by lia.
Qed.

Lemma dec_step_inv input first total F i st fh :
  dec_inv input first total F i st →
  (N.to_nat i < F)%nat →
  item_header input st.1.1.1.1 = Some fh →
  RLP_Header.data_type fh = 0 ∨ RLP_Header.data_type fh = 1 →
  dec_inv input first total F (N.succ i)
    (dec_step total i (RLP_Header.offset fh) (RLP_Header.length fh)
       (RLP_Header.data_type fh) st).
Proof.
  destruct st as [[[[off nf] o] l] t]. simpl.
  intros (Ho & Hl & Ht & Hnf & Hdone & Hoff & Hfields & Hzeros) Hi Hfh Hty.
  unfold dec_step, b2n.
  destruct (N.eqb_spec off total) as [Heq|Hne]; simpl negb; cbv iota.
  - (* nothing left to parse: the iteration writes zeros over zeros *)
    destruct (Hzeros (N.to_nat i) ltac:(lia)) as (Ho0 & Hl0 & Ht0).
    rewrite !N.mul_0_l, !N.add_0_r.
    rewrite !list_insert_id by assumption.
    unfold dec_inv. split_and!; try assumption; try lia.
  - (* an item is decoded, and it fills entry [nf = i] *)
    assert (nf = i) as -> by (destruct (N.ltb_spec nf i); [exfalso; auto | lia]).
    rewrite !N.mul_1_l.
    unfold dec_inv. rewrite !length_insert.
    split_and!; try assumption; try lia.
    + replace (N.to_nat (i + 1)) with (S (N.to_nat i)) by lia. simpl.
      rewrite !list_lookup_insert_eq by lia. simpl.
      destruct Hty as [-> | ->]; lia.
    + intros k Hk. destruct (decide (k = N.to_nat i)) as [->|Hk'].
      * rewrite !list_lookup_insert_eq by lia.
        rewrite item_start_insert by lia. rewrite <- Hoff.
        eexists _, _, _. split_and!; try reflexivity; [|exact Hne].
        exists fh. unfold Rlp.STRING, Rlp.LIST.
        split_and!; try assumption; try reflexivity.
        -- intros E. rewrite E. lia.
        -- intros E. rewrite E. lia.
        -- destruct Hty as [-> | ->]; lia.
      * rewrite !list_lookup_insert_ne by lia.
        rewrite item_start_insert by lia. apply Hfields. lia.
    + intros k Hk. rewrite !list_lookup_insert_ne by lia. apply Hzeros. lia.
Qed.

Lemma field_ok_mono input start o l ty : field_ok input start o l ty → start ≤ o + l.
Proof. intros (fh & _ & _ & _ & _ & _ & E). lia. Qed.

Lemma dec_inv_chain input first total F i off nf o l t :
  dec_inv input first total F i (off, nf, o, l, t) →
  ∀ k, (k ≤ N.to_nat nf)%nat → item_start first o l k ≤ off.
Proof.
  intros (Ho & Hl & Ht & Hnf & Hdone & Hoff & Hfields & Hzeros) k Hk.
  rewrite Hoff. generalize (N.to_nat nf) Hk (λ k' (H : (k' < N.to_nat nf)%nat), Hfields k' H).
  clear. intros n Hk Hfields.
  induction n as [|n IH]; [by replace k with 0%nat by lia|].
  destruct (decide (k = S n)) as [->|Hne]; [done|].
  transitivity (item_start first o l n).
  - apply IH; [lia|]. intros k' Hk'. apply Hfields. lia.
  - destruct (Hfields n ltac:(lia)) as (ok & lk & tk & Eo & El & _ & Hok & _).
    simpl. rewrite Eo, El. simpl. by eapply field_ok_mono.
Qed.

Lemma decode1_loop_inv input first total F st' :
  for_loop F 0 (Rlp.decode1_body input total)
    (first, 0, replicate F 0, replicate F 0, replicate F 0) = Some st' →
  dec_inv input first total F (N.of_nat F) st'.
Proof.
  intros Hrun.
  apply (for_loop_inv (dec_inv input first total F) _ _ _ _ _ Hrun).
  - apply dec_inv_init.
  - intros j [[[[off nf] o] l] t] u Hj Hinv Hbody.
    apply decode1_body_Some in Hbody as (fh & Hfh & Hty & _ & _ & _ & ->).
    apply dec_step_inv; [exact Hinv | lia | exact Hfh | exact Hty].
Qed.

Lemma small_loop_inv input first total F st' :
  len input < 2 ^ 32 →
  for_loop F 0 (Rlp.decode1_small_lis_body input total)
    (first, 0, replicate F 0, replicate F 0, replicate F 0) = Some st' →
  dec_inv input first total F (N.of_nat F) st'.
Proof.
  intros Hlen Hrun.
  apply (for_loop_inv (dec_inv input first total F) _ _ _ _ _ Hrun).
  - apply dec_inv_init.
  - intros j [[[[off nf] o] l] t] u Hj Hinv Hbody.
    apply small_body_Some in Hbody as (b & Hb & Hlt & _ & _ & _ & ->).
    pose proof (item_header_short input off b Hb Hlt Hlen) as Hfh.
    apply (dec_step_inv _ _ _ _ _ _ _ Hinv ltac:(lia) Hfh). by left.
Qed.

Lemma decode1_loop_walk input total n i st st' :
  for_loop n i (Rlp.decode1_body input total) st = Some st' →
  walk_items input total n st.1.1.1.1 = Some st'.1.1.1.1.
Proof.
  revert i st. induction n as [|n IH]; intros i st Hrun; simpl in Hrun.
  - by injection Hrun as <-.
  - apply bind_Some in Hrun as (u & Hbody & Hrun).
    destruct st as [[[[off nf] o] l] t].
    apply decode1_body_Some in Hbody as (fh & Hfh & _ & _ & _ & _ & ->).
    apply IH in Hrun. simpl in *. unfold b2n in Hrun.
    destruct (N.eqb_spec off total) as [->|Hne]; simpl negb in Hrun; cbv iota in Hrun.
    + rewrite N.mul_0_l, N.add_0_r in Hrun.
      destruct n as [|n]; simpl in Hrun |- *; [done|].
      by rewrite N.eqb_refl in Hrun.
    + rewrite Hfh. cbn [mbind option_bind].
      by rewrite N.mul_1_l, N.add_assoc in Hrun.
Qed.

(** C3.  The table of [decode1].  Whenever [decode1] with capacity [F]
    returns a table: its three arrays have [F] entries and [num_fields <= F];
    every field below [num_fields] ends inside the input; every entry from
    [num_fields] on is zero in offset, length and type; each field describes
    the item found where the previous field ends (the first one at the payload
    offset of the list header) - a string by the offset of its first payload
    byte and its payload length, a nested list by the offset of its header and
    a length that includes the header; and the last field ends exactly at the
    end of the list payload.  Conversely the decoder fails whenever walking
    the items' extents from the payload offset does not land exactly on the
    end of the payload. *)
Theorem decode1_table_invariant (F : nat) (input : list byte) :
  (∀ t, Rlp.decode1 F input = Some t →
     ∃ hdr, Rlp.decode_len input = Some hdr ∧
       let first := RLP_Header.offset hdr in
       let total := RLP_Header.length hdr + RLP_Header.offset hdr in
       let o := RLP_List.offset t in
       let l := RLP_List.length t in
       let ty := RLP_List.data_type t in
       let nf := N.to_nat (RLP_List.num_fields t) in
       length o = F ∧ length l = F ∧ length ty = F
       ∧ (nf ≤ F)%nat
       ∧ (∀ i, (i < nf)%nat →
               ∃ oi li, o !! i = Some oi ∧ l !! i = Some li ∧ oi + li ≤ len input)
       ∧ (∀ i, (nf ≤ i < F)%nat →
               o !! i = Some 0 ∧ l !! i = Some 0 ∧ ty !! i = Some 0)
       ∧ (∀ i, (i < nf)%nat →
               ∃ oi li ti, o !! i = Some oi ∧ l !! i = Some li ∧ ty !! i = Some ti
                           ∧ field_ok input (item_start first o l i) oi li ti)
       ∧ item_start first o l nf = total)
  ∧ (∀ hdr, Rlp.decode_len input = Some hdr →
       walk_items input (RLP_Header.length hdr + RLP_Header.offset hdr) F
         (RLP_Header.offset hdr)
       ≠ Some (RLP_Header.length hdr + RLP_Header.offset hdr) →
       Rlp.decode1 F input = None).
Proof.
  split.
  - intros t Hrun. unfold Rlp.decode1 in Hrun.
    apply bind_Some in Hrun as (hdr & Hhdr & Hrun). cbv zeta in Hrun.
    apply bind_Some in Hrun as (total & Htot & Hrun). apply wadd_Some in Htot as [-> _].
    apply bind_Some in Hrun as ([] & _ & Hrun).
    apply bind_Some in Hrun as ([] & Hfit & Hrun). apply assert_Some, N.leb_le in Hfit.
    apply bind_Some in Hrun as ([[[[off nf] o] l] ty] & Hloop & Hrun).
    apply bind_Some in Hrun as ([] & Hend & Hrun). apply assert_Some, N.eqb_eq in Hend.
    injection Hrun as <-. simpl.
    exists hdr. split; [exact Hhdr|].
    pose proof (decode1_loop_inv _ _ _ _ _ Hloop) as Hinv.
    pose proof (dec_inv_chain _ _ _ _ _ _ _ _ _ _ Hinv) as Hchain.
    destruct Hinv as (Ho & Hl & Ht & Hnf & Hdone & Hoff & Hfields & Hzeros).
    split_and!; try assumption.
    + lia.
    + intros i Hi.
      destruct (Hfields i Hi) as (oi & li & ti & Eo & El & _ & _ & _).
      exists oi, li. split_and!; try assumption.
      specialize (Hchain (S i) ltac:(lia)). simpl in Hchain.
      rewrite Eo, El in Hchain. simpl in Hchain. lia.
    + intros i Hi.
      destruct (Hfields i Hi) as (oi & li & ti & Eo & El & Et & Hok & _).
      by exists oi, li, ti.
    + congruence.
  - intros hdr Hhdr Hwalk.
    destruct (Rlp.decode1 F input) as [t|] eqn:Hrun; [|reflexivity].
    exfalso. apply Hwalk. unfold Rlp.decode1 in Hrun.
    rewrite Hhdr in Hrun. cbn [mbind option_bind] in Hrun. cbv zeta in Hrun.
    apply bind_Some in Hrun as (total & Htot & Hrun). apply wadd_Some in Htot as [-> _].
    apply bind_Some in Hrun as ([] & _ & Hrun).
    apply bind_Some in Hrun as ([] & _ & Hrun).
    apply bind_Some in Hrun as ([[[[off nf] o] l] ty] & Hloop & Hrun).
    apply bind_Some in Hrun as ([] & Hend & Hrun). apply assert_Some, N.eqb_eq in Hend.
    apply decode1_loop_walk in Hloop. simpl in Hloop. congruence.
Qed.

(** The three-string list of [rlp_decode_test], decoded with five slots. *)
Lemma decode1_table_invariant_witness :
  ∃ hdr, Rlp.decode_len (bytes [0xc9; 0x83; 0x63; 0x61; 0x74; 0x83; 0x64; 0x6f; 0x68; 0; 0])
         = Some hdr ∧
    let input := bytes [0xc9; 0x83; 0x63; 0x61; 0x74; 0x83; 0x64; 0x6f; 0x68; 0; 0] in
    let first := RLP_Header.offset hdr in
    let total := RLP_Header.length hdr + RLP_Header.offset hdr in
    let o := [2; 6; 9; 0; 0] in
    let l := [3; 3; 1; 0; 0] in
    let ty := [0; 0; 0; 0; 0] in
    length o = 5%nat ∧ length l = 5%nat ∧ length ty = 5%nat
    ∧ (3 ≤ 5)%nat
    ∧ (∀ i, (i < 3)%nat →
            ∃ oi li, o !! i = Some oi ∧ l !! i = Some li ∧ oi + li ≤ len input)
    ∧ (∀ i, (3 ≤ i < 5)%nat →
            o !! i = Some 0 ∧ l !! i = Some 0 ∧ ty !! i = Some 0)
    ∧ (∀ i, (i < 3)%nat →
            ∃ oi li ti, o !! i = Some oi ∧ l !! i = Some li ∧ ty !! i = Some ti
                        ∧ field_ok input (item_start first o l i) oi li ti)
    ∧ item_start first o l 3 = total.
Proof.
  apply (proj1 (decode1_table_invariant 5
           (bytes [0xc9; 0x83; 0x63; 0x61; 0x74; 0x83; 0x64; 0x6f; 0x68; 0; 0]))
           (RLP_List.new [2; 6; 9; 0; 0] [3; 3; 1; 0; 0] [0; 0; 0; 0; 0] 3)).
  vm_compute. reflexivity.
Defined.

(** ** [decode1_small_lis] against [decode1] *)

Lemma short_extent_pos p : 1 ≤ short_extent p.
Proof. unfold short_extent. destruct (p <? 0x80); lia. Qed.

Lemma short_items_le input stop pos k : short_items input stop pos k → pos ≤ stop.
Proof.
  induction 1 as [|pos b k Hb Hlt _ IH]; [lia|].
  pose proof (short_extent_pos (bz b)). lia.
Qed.

Lemma short_reach_le input pos q j : short_reach input pos q j → pos ≤ q.
Proof.
  induction 1 as [|pos b q j Hb Hlt _ IH]; [lia|].
  pose proof (short_extent_pos (bz b)). lia.
Qed.

Lemma for_loop_sim {St} n i (body body' : N → St → option St) s s' :
  (∀ j t t', body j t = Some t' → body' j t = Some t') →
  for_loop n i body s = Some s' → for_loop n i body' s = Some s'.
Proof.
  intros Hsim. revert i s. induction n as [|n IH]; intros i s Hrun; simpl in *.
  - exact Hrun.
  - apply bind_Some in Hrun as (t & Hb & Hrun).
    rewrite (Hsim _ _ _ Hb). simpl. by apply IH.
Qed.

Lemma decode1_body_unfold input total i off nf o l t :
  Rlp.decode1_body input total i (off, nf, o, l, t)
  = fh ← item_header input off;
    let field_off := RLP_Header.offset fh in
    let field_len := RLP_Header.length fh in
    let field_type := RLP_Header.data_type fh in
    let loop_ind := b2n (negb (off =? total)) in
    total_field_len ← wadd 64 field_off field_len;
    o1 ← wadd 64 off ((1 - field_type) * field_off);
    dec_off ← set o i (loop_ind * o1);
    l1 ← wadd 64 field_len (field_type * field_off);
    dec_len ← set l i (loop_ind * l1);
    dec_type ← set t i (loop_ind * field_type);
    offset ← wadd 64 off (loop_ind * total_field_len);
    num_fields ← wadd 64 nf loop_ind;
    Some (offset, num_fields, dec_off, dec_len, dec_type).
Proof.
  unfold Rlp.decode1_body, item_header.
  by destruct (Rlp.take_dot_drop _ input off).
Qed.

Lemma small_body_implies_general input total i st st' :
  len input < 2 ^ 32 →
  Rlp.decode1_small_lis_body input total i st = Some st' →
  Rlp.decode1_body input total i st = Some st'.
Proof.
  intros Hlen H. destruct st as [[[[off nf] o] l] t].
  rewrite decode1_body_unfold.
  unfold Rlp.decode1_small_lis_body in H. cbv zeta in H.
  apply bind_Some in H as (b & Hb & H).
  apply bind_Some in H as ([] & Hlt & H). apply assert_Some, N.ltb_lt in Hlt.
  rewrite (item_header_short input off b Hb Hlt Hlen). cbn [mbind option_bind].
  cbv zeta. simpl RLP_Header.offset. simpl RLP_Header.length.
  simpl RLP_Header.data_type.
  pose proof (bz_range b) as Hbr.
  assert (E1 : 1 - b2n (bz b <? 0x80) = if bz b <? 0x80 then 0 else 1)
    by (unfold b2n; destruct (bz b <? 0x80); reflexivity).
  assert (E2 : b2n (bz b <? 0x80) * 1
               + (1 - b2n (bz b <? 0x80)) * wrapping_sub 8 (bz b) 0x80
               = if bz b <? 0x80 then 1 else bz b - 0x80).
  { unfold b2n. destruct (N.ltb_spec (bz b) 0x80); [reflexivity|].
    rewrite wrapping_sub8_ge by lia. lia. }
  rewrite E2, E1 in H. clear E1 E2.
  set (fo := if bz b <? 0x80 then 0 else 1) in *.
  set (fl := if bz b <? 0x80 then 1 else bz b - 0x80) in *.
  change (1 - 0) with 1. rewrite N.mul_1_l, N.mul_0_l.
  unfold Rlp.STRING in H.
  replace (wadd 64 fl 0) with (Some fl).
  - cbn [mbind option_bind]. exact H.
  - symmetry. apply wadd_Some. split; [lia|].
    change (2 ^ 64) with 18446744073709551616.
    subst fl. destruct (bz b <? 0x80); lia.
Qed.

Lemma small_lis_implies_decode1 F input t :
  len input < 2 ^ 32 →
  Rlp.decode1_small_lis F input = Some t → Rlp.decode1 F input = Some t.
Proof.
  intros Hlen H. unfold Rlp.decode1_small_lis in H. unfold Rlp.decode1.
  apply bind_Some in H as (hdr & Hhdr & H). rewrite Hhdr. cbn [mbind option_bind].
  cbv zeta in H |- *.
  destruct (wadd 64 _ _) as [total|]; [|discriminate H]. cbn [mbind option_bind] in *.
  destruct (assert (_ =? Rlp.LIST)); [|discriminate H]. cbn [mbind option_bind] in *.
  destruct (assert (total <=? _)); [|discriminate H]. cbn [mbind option_bind] in *.
  apply bind_Some in H as (st' & Hloop & H).
  apply (for_loop_sim _ _ _ (Rlp.decode1_body input total)) in Hloop.
  - rewrite Hloop. exact H.
  - intros j s1 s2. by apply small_body_implies_general.
Qed.

Lemma small_body_eq input total i off nf o l t b :
  input !! N.to_nat off = Some b → bz b < 0xb8 →
  i < len o → i < len l → i < len t →
  off + short_extent (bz b) < 2 ^ 64 → nf + 1 < 2 ^ 64 →
  Rlp.decode1_small_lis_body input total i (off, nf, o, l, t)
  = Some (dec_step total i (if bz b <? 0x80 then 0 else 1)
            (if bz b <? 0x80 then 1 else bz b - 0x80) 0 (off, nf, o, l, t)).
Proof.
  intros Hb Hlt Hio Hil Hit Hoff Hnf. unfold Rlp.decode1_small_lis_body. cbv zeta.
  unfold get at 1. rewrite Hb. cbn [mbind option_bind].
  replace (bz b <? 0xb8) with true by (symmetry; by apply N.ltb_lt).
  simpl assert. cbn [mbind option_bind].
  pose proof (bz_range b) as Hbr.
  assert (E1 : 1 - b2n (bz b <? 0x80) = if bz b <? 0x80 then 0 else 1)
    by (unfold b2n; destruct (bz b <? 0x80); reflexivity).
  assert (E2 : b2n (bz b <? 0x80) * 1
               + (1 - b2n (bz b <? 0x80)) * wrapping_sub 8 (bz b) 0x80
               = if bz b <? 0x80 then 1 else bz b - 0x80).
  { unfold b2n. destruct (N.ltb_spec (bz b) 0x80); [reflexivity|].
    rewrite wrapping_sub8_ge by lia. lia. }
  rewrite E2, E1. clear E1 E2.
  unfold short_extent in Hoff.
  set (fo := if bz b <? 0x80 then 0 else 1) in *.
  set (fl := if bz b <? 0x80 then 1 else bz b - 0x80) in *.
  assert (Hext : fo + fl = if bz b <? 0x80 then 1 else 1 + (bz b - 0x80))
    by (subst fo fl; destruct (bz b <? 0x80); lia).
  rewrite <- Hext in Hoff.
  assert (Hind : b2n (negb (off =? total)) ≤ 1)
    by (unfold b2n; destruct (negb _); lia).
  set (ind := b2n (negb (off =? total))) in *.
  change (2 ^ 64) with 18446744073709551616 in *.
  replace (wadd 64 fo fl) with (Some (fo + fl))
    by (symmetry; apply wadd_Some; change (2 ^ 64) with 18446744073709551616; lia).
  cbn [mbind option_bind].
  replace (wadd 64 off fo) with (Some (off + fo))
    by (symmetry; apply wadd_Some; change (2 ^ 64) with 18446744073709551616; lia).
  cbn [mbind option_bind].
  replace (set o i (ind * (off + fo))) with (Some (<[N.to_nat i := ind * (off + fo)]> o))
    by (symmetry; by apply set_Some).
  cbn [mbind option_bind].
  replace (set l i (ind * fl)) with (Some (<[N.to_nat i := ind * fl]> l))
    by (symmetry; by apply set_Some).
  cbn [mbind option_bind].
  replace (set t i (ind * Rlp.STRING)) with (Some (<[N.to_nat i := ind * Rlp.STRING]> t))
    by (symmetry; by apply set_Some).
  cbn [mbind option_bind].
  replace (wadd 64 off (ind * (fo + fl))) with (Some (off + ind * (fo + fl)))
    by (symmetry; apply wadd_Some; change (2 ^ 64) with 18446744073709551616; nia).
  cbn [mbind option_bind].
  replace (wadd 64 nf ind) with (Some (nf + ind))
    by (symmetry; apply wadd_Some; change (2 ^ 64) with 18446744073709551616; lia).
  cbn [mbind option_bind]. unfold dec_step. fold ind. unfold Rlp.STRING.
  change (1 - 0) with 1. by rewrite N.mul_1_l, N.mul_0_l, N.add_0_r.
Qed.

Lemma short_items_inv input stop pos k :
  short_items input stop pos k →
  (pos = stop ∧ k = 0%nat)
  ∨ ∃ b k', k = S k' ∧ input !! N.to_nat pos = Some b ∧ bz b < 0xb8
            ∧ short_items input stop (pos + short_extent (bz b)) k'.
Proof. destruct 1; eauto 10. Qed.

Lemma small_loop_total input total n :
  len input < 2 ^ 32 → total ≤ len input →
  ∀ i pos nf o l t k,
    short_items input total pos k → (k ≤ n)%nat →
    (k = n ∨ ∃ b, input !! N.to_nat total = Some b ∧ bz b < 0xb8) →
    nf + N.of_nat k + 1 < 2 ^ 64 →
    i + N.of_nat n ≤ len o → i + N.of_nat n ≤ len l → i + N.of_nat n ≤ len t →
    ∃ st', for_loop n i (Rlp.decode1_small_lis_body input total) (pos, nf, o, l, t)
           = Some st' ∧ st'.1.1.1.1 = total.
Proof.
  intros Hlen Htot. change (2 ^ 32) with 4294967296 in Hlen.
  induction n as [|n IH]; intros i pos nf o l t k Hitems Hk Hpad Hnf Hio Hil Hit.
  - apply short_items_inv in Hitems as [[-> ->]|(b & k' & -> & _)]; [|lia].
    simpl. eauto.
  - cbn [for_loop]. change (2 ^ 64) with 18446744073709551616 in Hnf.
    apply short_items_inv in Hitems as [[-> ->]|(b & k' & -> & Hb & Hlt & Htail)].
    + (* the payload is exhausted: a masked iteration over the next byte *)
      destruct Hpad as [Hpad|(b & Hb & Hlt)]; [lia|].
      assert (Hov : total + short_extent (bz b) < 2 ^ 64)
        by (unfold short_extent; pose proof (bz_range b);
            change (2 ^ 64) with 18446744073709551616; destruct (_ <? _); lia).
      assert (Hnf1 : nf + 1 < 2 ^ 64)
        by (change (2 ^ 64) with 18446744073709551616; lia).
      rewrite (small_body_eq _ _ _ _ _ _ _ _ b Hb Hlt) by (assumption || lia).
      cbn [mbind option_bind]. unfold dec_step.
      rewrite N.eqb_refl. simpl negb. unfold b2n at 1 2 3 4 5.
      rewrite !N.mul_0_l, !N.add_0_r.
      apply (IH _ _ _ _ _ _ 0%nat); try lia.
      * constructor.
      * right. eauto.
      * rewrite len_insert. lia.
      * rewrite len_insert. lia.
      * rewrite len_insert. lia.
    + (* an item *)
      pose proof (short_items_le _ _ _ _ Htail) as Hle.
      pose proof (short_extent_pos (bz b)) as Hpos.
      assert (Hov : pos + short_extent (bz b) < 2 ^ 64)
        by (change (2 ^ 64) with 18446744073709551616; lia).
      assert (Hnf1 : nf + 1 < 2 ^ 64)
        by (change (2 ^ 64) with 18446744073709551616; lia).
      rewrite (small_body_eq _ _ _ _ _ _ _ _ b Hb Hlt) by (assumption || lia).
      cbn [mbind option_bind]. unfold dec_step.
      replace (pos =? total) with false by (symmetry; apply N.eqb_neq; lia).
      simpl negb. unfold b2n at 1 2 3 4 5. rewrite !N.mul_1_l.
      replace (pos + ((if bz b <? 0x80 then 0 else 1)
                      + (if bz b <? 0x80 then 1 else bz b - 0x80)))
        with (pos + short_extent (bz b))
        by (unfold short_extent; destruct (bz b <? 0x80); lia).
      apply (IH _ _ _ _ _ _ k'); try lia.
      * exact Htail.
      * destruct Hpad as [Hpad|Hpad]; [left; lia | by right].
      * rewrite len_insert. lia.
      * rewrite len_insert. lia.
      * rewrite len_insert. lia.
Qed.

Lemma small_loop_bad input total q b j :
  q < total → input !! N.to_nat q = Some b → 0xb8 ≤ bz b →
  ∀ pos, short_reach input pos q j →
  ∀ n i nf o l t st',
    for_loop n i (Rlp.decode1_small_lis_body input total) (pos, nf, o, l, t)
    = Some st' →
    st'.1.1.1.1 ≠ total.
Proof.
  intros Hq Hb Hbad pos Hreach.
  induction Hreach as [pos|pos b0 q j Hb0 Hlt0 Htail IH];
    intros n i nf o l t st' Hrun.
  - destruct n as [|n]; simpl in Hrun.
    + injection Hrun as <-. simpl. lia.
    + apply bind_Some in Hrun as (u & Hbody & _).
      apply small_body_Some in Hbody as (b' & Hb' & Hlt' & _).
      rewrite Hb in Hb'. injection Hb' as <-. lia.
  - pose proof (short_reach_le _ _ _ _ Htail) as Hle.
    pose proof (short_extent_pos (bz b0)) as Hpos.
    destruct n as [|n]; simpl in Hrun.
    + injection Hrun as <-. simpl. lia.
    + apply bind_Some in Hrun as (u & Hbody & Hrun).
      apply small_body_Some in Hbody as (b' & Hb' & Hlt' & _ & _ & _ & ->).
      rewrite Hb0 in Hb'. injection Hb' as <-.
      unfold dec_step in Hrun.
      replace (pos =? total) with false in Hrun
        by (symmetry; apply N.eqb_neq; lia).
      simpl negb in Hrun. unfold b2n at 1 in Hrun. rewrite N.mul_1_l in Hrun.
      replace (pos + ((if bz b0 <? 0x80 then 0 else 1)
                      + (if bz b0 <? 0x80 then 1 else bz b0 - 0x80)))
        with (pos + short_extent (bz b0)) in Hrun
        by (unfold short_extent; destruct (bz b0 <? 0x80); lia).
      by eapply (IH Hq Hb).
Qed.

Lemma items_reach_le input pos q j : items_reach input pos q j → pos ≤ q.
Proof. induction 1; lia. Qed.

Lemma items_reach_first_bad input pos q j b :
  len input < 2 ^ 32 →
  items_reach input pos q j → input !! N.to_nat q = Some b → 0xb8 ≤ bz b →
  ∃ q' j' b', short_reach input pos q' j' ∧ q' ≤ q
              ∧ input !! N.to_nat q' = Some b' ∧ 0xb8 ≤ bz b'.
Proof.
  intros Hlen Hreach Hb Hbad.
  induction Hreach as [pos|pos fh q j Hfh Htail IH].
  - exists pos, 0%nat, b. split_and!; [constructor | lia | done | done].
  - pose proof (items_reach_le _ _ _ _ Htail) as Hle.
    pose proof (lookup_lt_Some _ _ _ Hb) as Hq.
    destruct (lookup_lt_is_Some_2 input (N.to_nat pos)) as [b0 Hb0]; [lia|].
    destruct (N.lt_ge_cases (bz b0) 0xb8) as [Hshort|Hlong].
    + rewrite (item_header_short _ _ _ Hb0 Hshort Hlen) in Hfh.
      injection Hfh as <-. simpl in *.
      destruct (IH Hb) as (q' & j' & b' & Hr & Hq' & Hb' & Hbad').
      exists q', (S j'), b'. split_and!; try assumption.
      econstructor; [exact Hb0 | exact Hshort |].
      replace (pos + short_extent (bz b0))
        with (pos + (if bz b0 <? 0x80 then 0 else 1)
                  + (if bz b0 <? 0x80 then 1 else bz b0 - 0x80))
        by (unfold short_extent; destruct (bz b0 <? 0x80); lia).
      exact Hr.
    + exists pos, 0%nat, b0. split_and!; [constructor | lia | done | done].
Qed.

Lemma short_items_count input stop pos k :
  short_items input stop pos k → pos + N.of_nat k ≤ stop.
Proof.
  induction 1 as [|pos b k Hb Hlt _ IH]; [lia|].
  pose proof (short_extent_pos (bz b)). lia.
Qed.

(** C4 (as amended).  For an input array (of a length a [u32] can hold):
    whenever [decode1_small_lis] returns a table, [decode1] returns exactly
    the same table; on a well-formed RLP list whose [k <= F] items are all
    strings with header byte below [0xb8], and which either fills all [F]
    slots or is followed in the array by a byte below [0xb8] (the zero
    padding of a node window), both decoders succeed with the same table; and
    [decode1_small_lis] fails on any input in which some item of the list has
    a header byte of [0xb8] or more. *)
Theorem decode1_small_lis_refines (F : nat) (input : list byte) :
  len input < 2 ^ 32 →
  (∀ t, Rlp.decode1_small_lis F input = Some t → Rlp.decode1 F input = Some t)
  ∧ (∀ hdr k,
       Rlp.decode_len input = Some hdr →
       RLP_Header.data_type hdr = Rlp.LIST →
       RLP_Header.length hdr + RLP_Header.offset hdr ≤ len input →
       short_items input (RLP_Header.length hdr + RLP_Header.offset hdr)
         (RLP_Header.offset hdr) k →
       (k ≤ F)%nat →
       (k = F ∨ ∃ b, input !! N.to_nat (RLP_Header.length hdr + RLP_Header.offset hdr)
                     = Some b ∧ bz b < 0xb8) →
       ∃ t, Rlp.decode1_small_lis F input = Some t ∧ Rlp.decode1 F input = Some t)
  ∧ (∀ hdr q j b,
       Rlp.decode_len input = Some hdr →
       items_reach input (RLP_Header.offset hdr) q j →
       q < RLP_Header.length hdr + RLP_Header.offset hdr →
       input !! N.to_nat q = Some b → 0xb8 ≤ bz b →
       Rlp.decode1_small_lis F input = None).
Proof.
  intros Hlen. split_and!.
  - intros t. by apply small_lis_implies_decode1.
  - intros hdr k Hhdr Hty Hfit Hitems Hk Hpad.
    assert (∃ t, Rlp.decode1_small_lis F input = Some t) as [t Ht];
      [|exists t; split; [exact Ht | by apply small_lis_implies_decode1]].
    unfold Rlp.decode1_small_lis. rewrite Hhdr. cbn [mbind option_bind]. cbv zeta.
    pose proof (short_items_count _ _ _ _ Hitems) as Hcount.
    change (2 ^ 32) with 4294967296 in Hlen.
    replace (wadd 64 (RLP_Header.length hdr) (RLP_Header.offset hdr))
      with (Some (RLP_Header.length hdr + RLP_Header.offset hdr))
      by (symmetry; apply wadd_Some; change (2 ^ 64) with 18446744073709551616; lia).
    cbn [mbind option_bind]. rewrite Hty. simpl assert. cbn [mbind option_bind].
    replace (RLP_Header.length hdr + RLP_Header.offset hdr <=? len input) with true
      by (symmetry; by apply N.leb_le).
    simpl assert. cbn [mbind option_bind].
    destruct (small_loop_total input (RLP_Header.length hdr + RLP_Header.offset hdr) F
                ltac:(change (2 ^ 32) with 4294967296; exact Hlen) Hfit
                0 (RLP_Header.offset hdr) 0 (replicate F 0) (replicate F 0)
                (replicate F 0) k Hitems Hk Hpad)
      as ([[[[off nf] o] l] ty] & Hloop & Hoff).
    + change (2 ^ 64) with 18446744073709551616. lia.
    + rewrite len_replicate. lia.
    + rewrite len_replicate. lia.
    + rewrite len_replicate. lia.
    + rewrite Hloop. cbn [mbind option_bind]. simpl in Hoff. subst off.
      rewrite N.eqb_refl. simpl. eauto.
  - intros hdr q j b Hhdr Hreach Hq Hb Hbad.
    destruct (Rlp.decode1_small_lis F input) as [t|] eqn:Hrun; [|reflexivity].
    exfalso. unfold Rlp.decode1_small_lis in Hrun.
    rewrite Hhdr in Hrun. cbn [mbind option_bind] in Hrun. cbv zeta in Hrun.
    apply bind_Some in Hrun as (total & Htot & Hrun). apply wadd_Some in Htot as [-> _].
    apply bind_Some in Hrun as ([] & _ & Hrun).
    apply bind_Some in Hrun as ([] & _ & Hrun).
    apply bind_Some in Hrun as ([[[[off nf] o] l] ty] & Hloop & Hrun).
    apply bind_Some in Hrun as ([] & Hend & Hrun). apply assert_Some, N.eqb_eq in Hend.
    destruct (items_reach_first_bad _ _ _ _ _ Hlen Hreach Hb Hbad)
      as (q' & j' & b' & Hr & Hq' & Hb' & Hbad').
    assert (Hq'' : q' < RLP_Header.length hdr + RLP_Header.offset hdr) by lia.
    apply (small_loop_bad input _ q' b' j' Hq'' Hb' Hbad' _ Hr) in Hloop.
    simpl in Hloop. congruence.
Qed.

(** The three-string list of [rlp_decode_test], with its two bytes of zero
    padding, decoded with five slots. *)
Lemma decode1_small_lis_refines_witness :
  ∃ t, Rlp.decode1_small_lis 5
         (bytes [0xc9; 0x83; 0x63; 0x61; 0x74; 0x83; 0x64; 0x6f; 0x68; 0; 0]) = Some t
       ∧ Rlp.decode1 5
           (bytes [0xc9; 0x83; 0x63; 0x61; 0x74; 0x83; 0x64; 0x6f; 0x68; 0; 0]) = Some t.
Proof.
  destruct (decode1_small_lis_refines 5
              (bytes [0xc9; 0x83; 0x63; 0x61; 0x74; 0x83; 0x64; 0x6f; 0x68; 0; 0]))
    as (_ & H & _); [reflexivity|].
  apply (H (RLP_Header.new 1 9 Rlp.LIST) 3%nat).
  - reflexivity.
  - reflexivity.
  - vm_compute. discriminate.
  - eapply short_items_next; [reflexivity | reflexivity |].
    eapply short_items_next; [reflexivity | reflexivity |].
    eapply short_items_next; [reflexivity | reflexivity |].
    apply short_items_done.
  - lia.
  - right. exists x00. split; reflexivity.
Defined.

(** The claim as stated does not ask for the padding: the empty list [[0xc0]]
    in an array of exactly one byte is a well-formed list of short strings,
    [decode1] decodes it (the first case of [rlp_decode_test]), and
    [decode1_small_lis] fails on it, reading the byte after the payload. *)
Lemma decode1_small_lis_reads_past_payload :
  (∃ hdr, Rlp.decode_len (bytes [0xc0]) = Some hdr
          ∧ RLP_Header.data_type hdr = Rlp.LIST
          ∧ RLP_Header.length hdr + RLP_Header.offset hdr ≤ len (bytes [0xc0])
          ∧ short_items (bytes [0xc0])
              (RLP_Header.length hdr + RLP_Header.offset hdr)
              (RLP_Header.offset hdr) 0)
  ∧ Rlp.decode1 1 (bytes [0xc0]) = Some (RLP_List.new [0] [0] [0] 0)
  ∧ Rlp.decode1_small_lis 1 (bytes [0xc0]) = None.
Proof.
  split_and!.
  - exists (RLP_Header.new 1 0 Rlp.LIST). split_and!.
    + reflexivity.
    + reflexivity.
    + vm_compute. discriminate.
    + apply short_items_done.
  - reflexivity.
  - reflexivity.
Qed.

(** ** The proof drivers *)

Lemma memcpy_Some (dest src : list byte) (offset : N) (out : list byte) :
  Utils.memcpy dest src offset = Some out →
  out = take (length dest) (drop (N.to_nat offset) src)
  ∧ length out = length dest
  ∧ (length dest ≠ 0%nat → offset + len dest ≤ len src).
Proof.
  unfold Utils.memcpy. intros Hrun.
  erewrite for_loop_ext in Hrun.
  - apply (fill_loop_Some (λ j, k ← wadd 32 offset j; get src k)) in Hrun
      as [Hl Hf]; [|reflexivity].
    assert (Hin : ∀ j, (j < length dest)%nat →
                       out !! j = src !! (N.to_nat offset + j)%nat).
    { intros j Hj. rewrite <- (Hf j Hj).
      destruct (wadd 32 offset (N.of_nat j)) as [k|] eqn:E; simpl.
      - apply wadd_Some in E as [-> _]. unfold get. f_equal. lia.
      - specialize (Hf j Hj). rewrite E in Hf. simpl in Hf.
        destruct (lookup_lt_is_Some_2 out j) as [x Hx]; [lia|]. congruence. }
    split_and!; [|exact Hl|].
    + apply list_eq. intros j. destruct (decide (j < length dest)%nat) as [Hj|Hj].
      * rewrite Hin by exact Hj. rewrite lookup_take_lt by exact Hj.
        by rewrite lookup_drop.
      * rewrite lookup_ge_None_2 by lia. symmetry. apply lookup_ge_None_2.
        rewrite length_take. lia.
    + intros Hn. specialize (Hin (length dest - 1)%nat ltac:(lia)).
      destruct (lookup_lt_is_Some_2 out (length dest - 1)) as [x Hx]; [lia|].
      rewrite Hx in Hin. symmetry in Hin. apply lookup_lt_Some in Hin.
      unfold len. lia.
  - intros j t Hj. cbv beta.
    destruct (wadd 32 offset j) as [k|]; [|reflexivity]. cbn [mbind option_bind].
    by destruct (get src k).
Qed.

Lemma decode_len_bounds arr h :
  len arr < 2 ^ 32 → Rlp.decode_len arr = Some h →
  RLP_Header.offset h ≤ 3 ∧ RLP_Header.length h < 65536.
Proof.
  intros Hlen H. destruct arr as [|p rest]; [discriminate H|].
  rewrite decode_len_correct in H by exact Hlen.
  unfold decode_len_spec in H. pose proof (bz_range p).
  repeat case_match; try discriminate H; injection H as <-; simpl;
    repeat match goal with H : (_ <? _) = _ |- _ =>
      first [apply N.ltb_lt in H | apply N.ltb_ge in H] end;
    repeat match goal with H : (_ <=? _) = _ |- _ =>
      first [apply N.leb_le in H | apply N.leb_gt in H] end;
    (split; [lia|]); try lia;
    apply be_read_take_bound; lia.
Qed.

(** C9 (as amended).  A masked iteration is a no-op on the two references:
    for every call of [verify_internal_node] with [cur_depth >= depth - 1] and
    [cur_depth <= 255] that returns, the extracted hash and the key pointer
    are returned as they were passed. *)
Theorem verify_internal_node_masked (keccak256 : list byte → N → list byte)
    (extracted_hash : list byte) (key_ptr : N) (key_nibbles path : list byte)
    (depth cur_depth : N) (h' : list byte) (key_ptr' : N) :
  depth - 1 ≤ cur_depth → cur_depth ≤ 255 →
  Node.verify_internal_node keccak256 extracted_hash key_ptr key_nibbles path
    depth cur_depth = Some (h', key_ptr') →
  h' = extracted_hash ∧ key_ptr' = key_ptr.
Proof.
  intros Hout Hcur Hrun. unfold Node.verify_internal_node in Hrun.
  apply bind_Some in Hrun as (d1 & Hd1 & Hrun). apply wsub_Some in Hd1 as [-> Hd].
  cbv zeta in Hrun.
  replace (cast 8 cur_depth <? cast 8 (depth - 1)) with false in Hrun.
  - apply bind_Some in Hrun as (off & _ & Hrun).
    apply bind_Some in Hrun as (node & _ & Hrun).
    apply bind_Some in Hrun as (ok & _ & Hrun).
    apply bind_Some in Hrun as ([] & _ & Hrun).
    apply bind_Some in Hrun as ([[ty rk] kp] & _ & Hrun).
    apply bind_Some in Hrun as ([] & _ & Hrun).
    by injection Hrun as <- <-.
  - symmetry. apply N.ltb_ge.
    rewrite !cast_small by (change (2 ^ 8) with 256; lia). exact Hout.
Qed.

(** C10.  With [depth = 0] both verifiers fail, whatever the key, the proof
    bytes, the value and the root: the first thing an internal step or the
    leaf step computes is [depth - 1], which underflows. *)
Theorem depth_zero_fails (keccak256 : list byte → N → list byte)
    (MAX_ACCOUNT_STATE_LENGTH : N) (key proof value root : list byte) :
  Proof.verify_storage_root keccak256 (TrieProof.new key proof 0 value) root = None
  ∧ Proof.verify_state_root keccak256 MAX_ACCOUNT_STATE_LENGTH
      (TrieProof.new key proof 0 value) root = None.
Proof.
  assert (Hloop : ∀ kn n st,
    for_loop n 0 (Proof.internal_step keccak256 kn proof 0) st
    = if n is O then Some st else None).
  { intros kn [|n] st; [reflexivity|]. reflexivity. }
  split.
  - unfold Proof.verify_storage_root. simpl TrieProof.proof. simpl TrieProof.depth.
    simpl TrieProof.key.
    destruct (assert _); [|reflexivity]. cbn [mbind option_bind].
    destruct (Node.key_as_nibbles _ _) as [kn|]; [|reflexivity]. cbn [mbind option_bind].
    destruct (wsub _ 1) as [n|]; [|reflexivity]. cbn [mbind option_bind].
    rewrite Hloop. destruct (N.to_nat n); [|reflexivity]. cbn [mbind option_bind].
    unfold Proof.verify_storage_leaf_node. simpl TrieProof.value.
    by destruct (Utils.byte_value value) as [[v vl]|].
  - unfold Proof.verify_state_root. simpl TrieProof.proof. simpl TrieProof.depth.
    simpl TrieProof.key.
    destruct (assert _); [|reflexivity]. cbn [mbind option_bind].
    destruct (Node.key_as_nibbles _ _) as [kn|]; [|reflexivity]. cbn [mbind option_bind].
    destruct (wsub _ 1) as [n|]; [|reflexivity]. cbn [mbind option_bind].
    rewrite Hloop. destruct (N.to_nat n); [|reflexivity]. cbn [mbind option_bind].
    unfold Proof.verify_state_leaf_node. simpl TrieProof.value.
    by destruct (Utils.byte_value value) as [[v vl]|].
Qed.

Lemma verify_internal_node_masked_witness :
  Example.leaf_hash = Example.leaf_hash ∧ 1 = 1.
Proof.
  apply (verify_internal_node_masked Keccak.keccak256 Example.leaf_hash 1
           Example.key_nibbles (Example.branch ++ Example.leaf) 2 1).
  - vm_compute. discriminate.
  - vm_compute. discriminate.
  - vm_compute. reflexivity.
Defined.

(** The claim as stated reads the range test on the full [u64] values; the
    code compares their [u8] truncations.  On a proof of 258 windows the
    driver's loop reaches [cur_depth = 256]; with [depth = 2] that call is out
    of range ([256 >= depth - 1]), yet it is treated as in range ([0 < 1]): it
    verifies and resolves window 256 and replaces both references. *)
Lemma verify_internal_node_u8_wraps_into_range :
  2 - 1 ≤ 256
  ∧ Node.verify_internal_node Keccak.keccak256 Example.root 0 Example.key_nibbles
      (replicate (256 * 532) x00 ++ Example.branch ++ Example.leaf) 2 256
    = Some (Example.leaf_hash, 1)
  ∧ Example.leaf_hash ≠ Example.root ∧ 1 ≠ 0.
Proof.
  split_and!.
  - vm_compute. discriminate.
  - vm_compute. reflexivity.
  - vm_compute. discriminate.
  - lia.
Qed.

(** C1 (as amended).  An in-range internal step checks the hash of its
    window.  For [cur_depth < depth - 1 <= 255], [verify_internal_node]
    succeeds only if the window [node] of 532 bytes at index [cur_depth] lies
    in the proof, its RLP header decodes, and [keccak256] of its first [L]
    bytes - [L] the header's [offset + length], saturated to 532 - equals the
    hash passed in; the hash and key pointer it returns are those
    [resolve_nibble32] resolves from that window, whose node type is not
    [LEAF]. *)
Theorem verify_internal_node_in_range (keccak256 : list byte → N → list byte)
    (extracted_hash : list byte) (key_ptr : N) (key_nibbles path : list byte)
    (depth cur_depth : N) (h' : list byte) (key_ptr' : N) :
  cur_depth < depth - 1 → depth - 1 ≤ 255 →
  Node.verify_internal_node keccak256 extracted_hash key_ptr key_nibbles path
    depth cur_depth = Some (h', key_ptr') →
  let node := take 532 (drop (N.to_nat (cur_depth * 532)) path) in
  length node = 532%nat
  ∧ (cur_depth + 1) * 532 ≤ len path
  ∧ ∃ hdr node_type,
      Rlp.decode_len node = Some hdr
      ∧ keccak256 node
          (N.min (RLP_Header.offset hdr + RLP_Header.length hdr) 532)
        = extracted_hash
      ∧ Node.resolve_nibble32 key_nibbles key_ptr node
        = Some (node_type, h', key_ptr')
      ∧ node_type ≠ LEAF.
Proof.
  intros Hin Hd Hrun node. unfold Node.verify_internal_node in Hrun.
  apply bind_Some in Hrun as (d1 & Hd1 & Hrun). apply wsub_Some in Hd1 as [-> _].
  cbv zeta in Hrun.
  replace (cast 8 cur_depth <? cast 8 (depth - 1)) with true in Hrun
    by (symmetry; apply N.ltb_lt;
        rewrite !cast_small by (change (2 ^ 8) with 256; lia); exact Hin).
  cbv iota in Hrun. simpl negb in Hrun. simpl orb in Hrun.
  apply bind_Some in Hrun as (off & Hoff & Hrun). apply wmul_Some in Hoff as [-> _].
  apply bind_Some in Hrun as (nd & Hnd & Hrun).
  unfold MAX_TRIE_NODE_LENGTH in Hnd.
  rewrite cast_small in Hnd by (change (2 ^ 32) with 4294967296; lia).
  apply memcpy_Some in Hnd as (Hnd & Hlen & Hfit).
  rewrite length_replicate in Hnd, Hlen, Hfit.
  change (N.to_nat 532) with 532%nat in Hnd, Hlen, Hfit.
  rewrite len_replicate in Hfit. specialize (Hfit ltac:(lia)).
  fold node in Hnd. subst nd.
  apply bind_Some in Hrun as (ok & Hok & Hrun).
  apply bind_Some in Hrun as ([] & Hhash & Hrun). apply assert_Some in Hhash. subst ok.
  apply bind_Some in Hrun as ([[ty rk] kp] & Hres & Hrun).
  apply bind_Some in Hrun as ([] & Hty & Hrun).
  apply assert_Some, negb_true_iff, N.eqb_neq in Hty.
  injection Hrun as <- <-.
  split; [exact Hlen|]. split; [lia|].
  unfold Node.verify_node_hash in Hok.
  apply bind_Some in Hok as (hdr & Hhdr & Hok).
  apply bind_Some in Hok as (nl & Hnl & Hok). apply wadd_Some in Hnl as [-> _].
  cbv zeta in Hok. injection Hok as Hok. apply bool_decide_eq_true in Hok.
  exists hdr, ty. split_and!; try assumption.
  rewrite <- Hok. f_equal.
  assert (Hln : len node = 532) by (unfold len; rewrite Hlen; reflexivity).
  destruct (decode_len_bounds node hdr) as [Hb1 Hb2];
    [rewrite Hln; reflexivity | exact Hhdr |].
  rewrite Hln. change (cast 32 532) with 532.
  rewrite (cast_small 32 (RLP_Header.offset hdr + RLP_Header.length hdr))
    by (change (2 ^ 32) with 4294967296; lia).
  unfold b2n.
  destruct (N.ltb_spec 532 (RLP_Header.offset hdr + RLP_Header.length hdr)).
  - rewrite N.mul_1_l. change (1 - 1) with 0. rewrite N.mul_0_l, N.add_0_r.
    change (cast 32 532) with 532. lia.
  - rewrite N.mul_0_l, N.add_0_l. change (1 - 0) with 1. rewrite N.mul_1_l.
    rewrite cast_small by (change (2 ^ 32) with 4294967296; lia). lia.
Qed.

Lemma verify_internal_node_in_range_witness :
  length (take 532 (drop (N.to_nat (0 * 532)) (Example.branch ++ Example.leaf)))
  = 532%nat
  ∧ (0 + 1) * 532 ≤ len (Example.branch ++ Example.leaf)
  ∧ ∃ hdr node_type,
      Rlp.decode_len
        (take 532 (drop (N.to_nat (0 * 532)) (Example.branch ++ Example.leaf)))
      = Some hdr
      ∧ Keccak.keccak256
          (take 532 (drop (N.to_nat (0 * 532)) (Example.branch ++ Example.leaf)))
          (N.min (RLP_Header.offset hdr + RLP_Header.length hdr) 532)
        = Example.root
      ∧ Node.resolve_nibble32 Example.key_nibbles 0
          (take 532 (drop (N.to_nat (0 * 532)) (Example.branch ++ Example.leaf)))
        = Some (node_type, Example.leaf_hash, 1)
      ∧ node_type ≠ LEAF.
Proof.
  apply (verify_internal_node_in_range Keccak.keccak256 Example.root 0
           Example.key_nibbles (Example.branch ++ Example.leaf) 2 0
           Example.leaf_hash 1).
  - reflexivity.
  - vm_compute. discriminate.
  - vm_compute. reflexivity.
Defined.

(** The claim as stated reads the range test on the full [u64] values.  With
    [depth = 257] the step at [cur_depth = 0] is an internal step
    ([0 < depth - 1]), but [(depth - 1) as u8] is 0 and the step is masked: it
    succeeds on a window whose hash is not the hash passed in. *)
Lemma verify_internal_node_u8_wraps_out_of_range :
  0 < 257 - 1
  ∧ Node.verify_internal_node Keccak.keccak256 (replicate 32 x00) 0
      Example.key_nibbles (Example.branch ++ Example.leaf) 257 0
    = Some (replicate 32 x00, 0)
  ∧ Rlp.decode_len
      (take 532 (drop (N.to_nat (0 * 532)) (Example.branch ++ Example.leaf)))
    = Some (RLP_Header.new 1 49 Rlp.LIST)
  ∧ Keccak.keccak256
      (take 532 (drop (N.to_nat (0 * 532)) (Example.branch ++ Example.leaf)))
      (N.min (1 + 49) 532)
    ≠ replicate 32 x00.
Proof.
  split_and!.
  - reflexivity.
  - vm_compute. reflexivity.
  - vm_compute. reflexivity.
  - vm_compute. discriminate.
Qed.

(** ** The nibble cursor across a run *)

Lemma for_trace_spec {St} n i (body : N → St → option St) s s' :
  for_loop n i body s = Some s' →
  length (for_trace n i body s) = S n
  ∧ for_trace n i body s !! 0%nat = Some s
  ∧ for_trace n i body s !! n = Some s'
  ∧ ∀ k a b, for_trace n i body s !! k = Some a →
             for_trace n i body s !! S k = Some b →
             body (i + N.of_nat k) a = Some b.
Proof.
  revert i s. induction n as [|n IH]; intros i s Hrun; simpl in Hrun.
  - injection Hrun as <-. simpl. split_and!; try reflexivity.
    intros k a b _ Hb. destruct k; discriminate Hb.
  - apply bind_Some in Hrun as (t & Hb & Hrun).
    destruct (IH _ _ Hrun) as (Hl & H0 & Hn & Hstep).
    simpl. rewrite Hb. split_and!.
    + simpl. by rewrite Hl.
    + reflexivity.
    + exact Hn.
    + intros k a b Ha Hb'. destruct k as [|k]; simpl in Ha, Hb'.
      * injection Ha as <-. rewrite H0 in Hb'. injection Hb' as <-.
        by rewrite N.add_0_r.
      * replace (i + N.of_nat (S k)) with (N.succ i + N.of_nat k) by lia.
        by apply Hstep.
Qed.

Lemma resolve2_cursor M node t key kp ty v vl kp' :
  Node.resolve2 M node t key kp = Some (ty, v, vl, kp') → kp ≤ kp'.
Proof.
  unfold Node.resolve2. intros H.
  apply bind_Some in H as ([] & _ & H).
  apply bind_Some in H as (off0 & _ & H).
  apply bind_Some in H as (fs & _ & H).
  apply bind_Some in H as (len0 & _ & H).
  apply bind_Some in H as ([nib niblen] & _ & H).
  apply bind_Some in H as (room & _ & H).
  apply bind_Some in H as ([] & _ & H).
  apply bind_Some in H as ([] & _ & H).
  apply bind_Some in H as (vl' & _ & H).
  apply bind_Some in H as ([] & _ & H).
  apply bind_Some in H as (kp1 & Hkp & H). apply wadd_Some in Hkp as [-> _].
  apply bind_Some in H as (off1 & _ & H).
  apply bind_Some in H as (e & _ & H).
  apply bind_Some in H as ([] & _ & H).
  apply bind_Some in H as (value & _ & H).
  apply bind_Some in H as (fs0 & _ & H).
  injection H as _ _ _ <-. lia.
Qed.

Lemma resolve17_cursor node t key kp h l kp' :
  Node.resolve17 node t key kp = Some (h, l, kp') → kp' = kp + 1.
Proof.
  unfold Node.resolve17. intros H.
  apply bind_Some in H as ([] & _ & H).
  apply bind_Some in H as ([] & _ & H).
  apply bind_Some in H as (l16 & _ & H).
  apply bind_Some in H as ([] & _ & H).
  apply bind_Some in H as (nib & _ & H).
  apply bind_Some in H as (rl & _ & H).
  apply bind_Some in H as ([] & _ & H).
  apply bind_Some in H as ([] & _ & H).
  apply bind_Some in H as (kp1 & Hkp & H). apply wadd_Some in Hkp as [-> _].
  apply bind_Some in H as (off & _ & H).
  apply bind_Some in H as (rk & _ & H).
  by injection H as _ _ <-.
Qed.

Lemma resolve_nibble32_cursor key kp node ty h kp' :
  Node.resolve_nibble32 key kp node = Some (ty, h, kp') → kp ≤ kp'.
Proof.
  unfold Node.resolve_nibble32. intros H.
  apply bind_Some in H as (t & _ & H).
  apply bind_Some in H as ([[[ty' rk] rkl] kp1] & Hres & H).
  apply bind_Some in H as ([] & _ & H). injection H as _ _ <-.
  destruct (RLP_List.num_fields t =? 2).
  - by eapply resolve2_cursor.
  - apply bind_Some in Hres as (l16 & _ & Hres).
    apply bind_Some in Hres as ([] & _ & Hres).
    apply bind_Some in Hres as ([[rk' rkl'] kp2] & H17 & Hres).
    injection Hres as _ _ _ <-. apply resolve17_cursor in H17. lia.
Qed.

Lemma internal_step_cursor keccak256 key_nibbles path depth i st st' :
  Proof.internal_step keccak256 key_nibbles path depth i st = Some st' →
  st.2 ≤ st'.2.
Proof.
  unfold Proof.internal_step, Node.verify_internal_node. intros H.
  apply bind_Some in H as (d1 & _ & H). cbv zeta in H.
  apply bind_Some in H as (off & _ & H).
  apply bind_Some in H as (node & _ & H).
  apply bind_Some in H as (ok & _ & H).
  apply bind_Some in H as ([] & _ & H).
  apply bind_Some in H as ([[ty rk] kp] & Hres & H).
  apply bind_Some in H as ([] & _ & H).
  injection H as <-. simpl.
  destruct (cast 8 i <? cast 8 d1); [|lia].
  by eapply resolve_nibble32_cursor.
Qed.

Lemma key_as_nibbles_len NIB key kn :
  Node.key_as_nibbles NIB key = Some kn → NIB = 2 * len key.
Proof.
  unfold Node.key_as_nibbles. intros H.
  apply bind_Some in H as (k2 & Hk2 & H). apply wmul_Some in Hk2 as [-> _].
  apply bind_Some in H as ([] & Ha & _). by apply assert_Some, N.eqb_eq in Ha.
Qed.

Lemma cursor_run_spec keccak256 key_nibbles path depth root st terminal :
  for_loop (N.to_nat (len path / MAX_TRIE_NODE_LENGTH - 1)) 0
    (Proof.internal_step keccak256 key_nibbles path depth) (root, 0) = Some st →
  st.2 ≤ terminal →
  let cs := cursor_run keccak256 key_nibbles path depth root terminal in
  cs !! 0%nat = Some 0
  ∧ (∀ k a b, cs !! k = Some a → cs !! S k = Some b → a ≤ b)
  ∧ cs !! (length cs - 1)%nat = Some terminal.
Proof.
  intros Hloop Hterm cs. subst cs. unfold cursor_run.
  set (n := N.to_nat (len path / MAX_TRIE_NODE_LENGTH - 1)) in *.
  destruct (for_trace_spec _ _ _ _ _ Hloop) as (Hl & H0 & Hn & Hstep).
  set (tr := for_trace n 0 _ _) in *.
  split_and!.
  - rewrite lookup_app_l by (rewrite length_fmap; lia).
    by rewrite list_lookup_fmap, H0.
  - intros k a b Ha Hb.
    destruct (decide (S k < S n)%nat) as [Hk|Hk].
    + rewrite lookup_app_l in Ha, Hb by (rewrite length_fmap; lia).
      rewrite list_lookup_fmap in Ha, Hb.
      destruct (tr !! k) as [x|] eqn:Ex; [|discriminate Ha].
      destruct (tr !! S k) as [y|] eqn:Ey; [|discriminate Hb].
      injection Ha as <-. injection Hb as <-.
      eapply internal_step_cursor. by eapply Hstep.
    + destruct (decide (k = n)) as [->|Hne].
      * rewrite lookup_app_l in Ha by (rewrite length_fmap; lia).
        rewrite list_lookup_fmap, Hn in Ha. injection Ha as <-.
        rewrite lookup_app_r in Hb by (rewrite length_fmap; lia).
        rewrite length_fmap, Hl in Hb.
        replace (S n - S n)%nat with 0%nat in Hb by lia.
        injection Hb as <-. exact Hterm.
      * apply lookup_lt_Some in Hb.
        rewrite length_app, length_fmap, Hl in Hb. simpl in Hb. lia.
  - rewrite length_app, length_fmap, Hl. simpl.
    rewrite lookup_app_r by (rewrite length_fmap; lia).
    rewrite length_fmap, Hl.
    by replace (n + 1 - 0 - S n)%nat with 0%nat by lia.
Qed.

(** C7 (as amended).  Across a successful run of either verifier the nibble
    cursor starts at 0, never decreases from one step to the next (through
    every iteration of the loop over the internal nodes, then through the
    resolution of the terminal node), and after the terminal leaf is resolved
    it is exactly 64 - twice the 32 bytes of the hashed key - for storage
    proofs and for state proofs alike. *)
Theorem cursor_monotone_and_exhausted (keccak256 : list byte → N → list byte)
    (MAX_ACCOUNT_STATE_LENGTH : N) (p : TrieProof.t) (root : list byte) :
  (Proof.verify_storage_root keccak256 p root = Some true →
   ∃ key_nibbles st rlp_list ty v vl terminal,
     let leaf_node :=
       take 532 (drop (N.to_nat (cast 32 (TrieProof.depth p - 1) * 532))
                   (TrieProof.proof p)) in
     Node.key_as_nibbles NIBBLE_LENGTH (keccak256 (TrieProof.key p) 32)
     = Some key_nibbles
     ∧ for_loop (N.to_nat (len (TrieProof.proof p) / MAX_TRIE_NODE_LENGTH - 1)) 0
         (Proof.internal_step keccak256 key_nibbles (TrieProof.proof p)
            (TrieProof.depth p)) (root, 0) = Some st
     ∧ Rlp.decode1_small_lis 2 leaf_node = Some rlp_list
     ∧ Node.resolve2 33 leaf_node rlp_list key_nibbles st.2
       = Some (ty, v, vl, terminal)
     ∧ ty = LEAF
     ∧ let cs := cursor_run keccak256 key_nibbles (TrieProof.proof p)
                   (TrieProof.depth p) root terminal in
       cs !! 0%nat = Some 0
       ∧ (∀ k a b, cs !! k = Some a → cs !! S k = Some b → a ≤ b)
       ∧ cs !! (length cs - 1)%nat = Some terminal
       ∧ terminal = 64)
  ∧ (Proof.verify_state_root keccak256 MAX_ACCOUNT_STATE_LENGTH p root = Some true →
     ∃ key_nibbles st rlp_list ty v vl terminal,
       let leaf_node :=
         take 532 (drop (N.to_nat (cast 32 (TrieProof.depth p - 1) * 532))
                     (TrieProof.proof p)) in
       Node.key_as_nibbles NIBBLE_LENGTH (keccak256 (TrieProof.key p) 20)
       = Some key_nibbles
       ∧ for_loop (N.to_nat (len (TrieProof.proof p) / MAX_TRIE_NODE_LENGTH - 1)) 0
           (Proof.internal_step keccak256 key_nibbles (TrieProof.proof p)
              (TrieProof.depth p)) (root, 0) = Some st
       ∧ Rlp.decode1 2 leaf_node = Some rlp_list
       ∧ Node.resolve2 MAX_ACCOUNT_STATE_LENGTH leaf_node rlp_list key_nibbles st.2
         = Some (ty, v, vl, terminal)
       ∧ ty = LEAF
       ∧ let cs := cursor_run keccak256 key_nibbles (TrieProof.proof p)
                     (TrieProof.depth p) root terminal in
         cs !! 0%nat = Some 0
         ∧ (∀ k a b, cs !! k = Some a → cs !! S k = Some b → a ≤ b)
         ∧ cs !! (length cs - 1)%nat = Some terminal
         ∧ terminal = 64).
Proof.
  split.
  - intros Hrun. unfold Proof.verify_storage_root in Hrun. cbv zeta in Hrun.
    apply bind_Some in Hrun as ([] & _ & Hrun).
    apply bind_Some in Hrun as (kn & Hkn & Hrun).
    apply bind_Some in Hrun as (n & Hn & Hrun). apply wsub_Some in Hn as [-> _].
    apply bind_Some in Hrun as ([h kp] & Hloop & Hrun).
    apply bind_Some in Hrun as ([] & Hleaf & _).
    pose proof (key_as_nibbles_len _ _ _ Hkn) as Hklen. unfold NIBBLE_LENGTH in Hklen.
    unfold Proof.verify_storage_leaf_node in Hleaf.
    apply bind_Some in Hleaf as ([value vlen] & _ & Hleaf).
    apply bind_Some in Hleaf as (d1 & Hd1 & Hleaf). apply wsub_Some in Hd1 as [-> _].
    apply bind_Some in Hleaf as (off & Hoff & Hleaf). apply wmul_Some in Hoff as [-> _].
    apply bind_Some in Hleaf as (leaf & Hmem & Hleaf).
    apply memcpy_Some in Hmem as (-> & _ & _).
    rewrite length_replicate in Hleaf.
    change (N.to_nat MAX_TRIE_NODE_LENGTH) with 532%nat in Hleaf.
    unfold MAX_TRIE_NODE_LENGTH in Hleaf.
    apply bind_Some in Hleaf as (ok & _ & Hleaf).
    apply bind_Some in Hleaf as ([] & _ & Hleaf).
    apply bind_Some in Hleaf as (rlp & Hrlp & Hleaf).
    apply bind_Some in Hleaf as ([[[ty v] vl] tkp] & Hres & Hleaf).
    apply bind_Some in Hleaf as ([] & Hty & Hleaf). apply assert_Some, N.eqb_eq in Hty.
    apply bind_Some in Hleaf as (bound & _ & Hleaf).
    apply bind_Some in Hleaf as ([] & _ & Hleaf).
    apply bind_Some in Hleaf as (k2 & Hk2 & Hleaf). apply wmul_Some in Hk2 as [-> _].
    apply bind_Some in Hleaf as ([] & Hend & _). apply assert_Some, N.eqb_eq in Hend.
    exists kn, (h, kp), rlp, ty, v, vl, tkp. cbv zeta.
    pose proof (resolve2_cursor _ _ _ _ _ _ _ _ _ Hres) as Hmono.
    destruct (cursor_run_spec _ _ _ _ _ _ tkp Hloop Hmono) as (H0 & Hstep & Hlast).
    split_and!; try assumption. lia.
  - intros Hrun. unfold Proof.verify_state_root in Hrun. cbv zeta in Hrun.
    apply bind_Some in Hrun as ([] & _ & Hrun).
    apply bind_Some in Hrun as (kn & Hkn & Hrun).
    apply bind_Some in Hrun as (n & Hn & Hrun). apply wsub_Some in Hn as [-> _].
    apply bind_Some in Hrun as ([h kp] & Hloop & Hrun).
    apply bind_Some in Hrun as ([] & Hleaf & _).
    pose proof (key_as_nibbles_len _ _ _ Hkn) as Hklen. unfold NIBBLE_LENGTH in Hklen.
    unfold Proof.verify_state_leaf_node in Hleaf.
    apply bind_Some in Hleaf as ([value vlen] & _ & Hleaf).
    apply bind_Some in Hleaf as (d1 & Hd1 & Hleaf). apply wsub_Some in Hd1 as [-> _].
    apply bind_Some in Hleaf as (off & Hoff & Hleaf). apply wmul_Some in Hoff as [-> _].
    apply bind_Some in Hleaf as (leaf & Hmem & Hleaf).
    apply memcpy_Some in Hmem as (-> & _ & _).
    rewrite length_replicate in Hleaf.
    change (N.to_nat MAX_TRIE_NODE_LENGTH) with 532%nat in Hleaf.
    unfold MAX_TRIE_NODE_LENGTH in Hleaf.
    apply bind_Some in Hleaf as (ok & _ & Hleaf).
    apply bind_Some in Hleaf as ([] & _ & Hleaf).
    apply bind_Some in Hleaf as (rlp & Hrlp & Hleaf).
    apply bind_Some in Hleaf as ([[[ty v] vl] tkp] & Hres & Hleaf).
    apply bind_Some in Hleaf as ([] & Hty & Hleaf). apply assert_Some, N.eqb_eq in Hty.
    apply bind_Some in Hleaf as ([] & _ & Hleaf).
    apply bind_Some in Hleaf as (k2 & Hk2 & Hleaf). apply wmul_Some in Hk2 as [-> _].
    apply bind_Some in Hleaf as ([] & Hend & _). apply assert_Some, N.eqb_eq in Hend.
    exists kn, (h, kp), rlp, ty, v, vl, tkp. cbv zeta.
    pose proof (resolve2_cursor _ _ _ _ _ _ _ _ _ Hres) as Hmono.
    destruct (cursor_run_spec _ _ _ _ _ _ tkp Hloop Hmono) as (H0 & Hstep & Hlast).
    split_and!; try assumption. lia.
Qed.

Lemma cursor_monotone_and_exhausted_witness :
  ∃ key_nibbles st rlp_list ty v vl terminal,
    Node.key_as_nibbles NIBBLE_LENGTH (Keccak.keccak256 Example.key 32)
    = Some key_nibbles
    ∧ for_loop 1 0
        (Proof.internal_step Keccak.keccak256 key_nibbles
           (Example.branch ++ Example.leaf) 2) (Example.root, 0) = Some st
    ∧ Rlp.decode1_small_lis 2
        (take 532 (drop 532 (Example.branch ++ Example.leaf))) = Some rlp_list
    ∧ Node.resolve2 33 (take 532 (drop 532 (Example.branch ++ Example.leaf)))
        rlp_list key_nibbles st.2 = Some (ty, v, vl, terminal)
    ∧ ty = LEAF
    ∧ cursor_run Keccak.keccak256 key_nibbles (Example.branch ++ Example.leaf)
        2 Example.root terminal !! 0%nat = Some 0
    ∧ (∀ k a b,
         cursor_run Keccak.keccak256 key_nibbles (Example.branch ++ Example.leaf)
           2 Example.root terminal !! k = Some a →
         cursor_run Keccak.keccak256 key_nibbles (Example.branch ++ Example.leaf)
           2 Example.root terminal !! S k = Some b → a ≤ b)
    ∧ cursor_run Keccak.keccak256 key_nibbles (Example.branch ++ Example.leaf)
        2 Example.root terminal
      !! (length (cursor_run Keccak.keccak256 key_nibbles
                    (Example.branch ++ Example.leaf) 2 Example.root terminal) - 1)%nat
      = Some terminal
    ∧ terminal = 64.
Proof.
  apply (proj1 (cursor_monotone_and_exhausted Keccak.keccak256 134
                  Example.storage_proof Example.root)).
  vm_compute. reflexivity.
Defined.

(** The claim as stated expects the cursor of a state proof to end at
    [2 * 20 = 40], twice the length of the address.  The path is the hashed
    address, 32 bytes: this state proof verifies, and its terminal resolver
    returns the cursor 64. *)
Lemma state_proof_cursor_ends_at_64 :
  len (TrieProof.key StateExample.state_proof) = 20
  ∧ Proof.verify_state_root Keccak.keccak256 134 StateExample.state_proof
      StateExample.root = Some true
  ∧ ∃ key_nibbles rlp_list ty v vl,
      Node.key_as_nibbles NIBBLE_LENGTH
        (Keccak.keccak256 (TrieProof.key StateExample.state_proof) 20)
      = Some key_nibbles
      ∧ Rlp.decode1 2 StateExample.leaf = Some rlp_list
      ∧ Node.resolve2 134 StateExample.leaf rlp_list key_nibbles 0
        = Some (ty, v, vl, 64)
      ∧ 64 ≠ 2 * 20.
Proof.
  split_and!.
  - reflexivity.
  - vm_compute. reflexivity.
  - eexists _, _, _, _, _. split_and!.
    + vm_compute. reflexivity.
    + vm_compute. reflexivity.
    + vm_compute. reflexivity.
    + lia.
Qed.

(** * Further properties of the code *)

(** ** utils.nr *)

Lemma memcpy_window_eq (dest src : list byte) (offset : N) :
  len src < 2 ^ 32 →
  dest = [] ∨ offset + len dest ≤ len src →
  Utils.memcpy dest src offset
  = Some (take (length dest) (drop (N.to_nat offset) src)).
Proof.
  intros Hsrc Hfit. unfold Utils.memcpy.
  erewrite for_loop_ext.
  + apply (fill_loop_total (λ j, k ← wadd 32 offset j; get src k)); [reflexivity|..].
    * rewrite length_take, length_drop.
      destruct Hfit as [-> | Hfit]; [reflexivity|]. unfold len in Hfit. lia.
    * intros j Hj. destruct Hfit as [-> | Hfit]; [simpl in Hj; lia|].
      unfold len in Hfit, Hsrc. change (2 ^ 32) with 4294967296 in Hsrc.
      replace (wadd 32 offset (N.of_nat j)) with (Some (offset + N.of_nat j))
        by (symmetry; apply wadd_Some; change (2 ^ 32) with 4294967296; lia).
      cbn [mbind option_bind]. unfold get.
      rewrite lookup_take_lt by exact Hj. rewrite lookup_drop. f_equal. lia.
  + intros j t Hj. cbv beta.
    destruct (wadd 32 offset j) as [k|]; [|reflexivity]. cbn [mbind option_bind].
    by destruct (get src k).
Qed.

(** [memcpy] copies the window of [src] that starts at [offset] and has the
    length of [dest]: it succeeds when [dest] is empty or the window lies
    inside [src], and fails otherwise, whatever [dest] held. *)
Theorem memcpy_copies_window (dest src : list byte) (offset : N) :
  len src < 2 ^ 32 →
  (dest = [] ∨ offset + len dest ≤ len src →
   Utils.memcpy dest src offset
   = Some (take (length dest) (drop (N.to_nat offset) src)))
  ∧ (dest ≠ [] → len src < offset + len dest →
     Utils.memcpy dest src offset = None).
Proof.
  intros Hsrc. split.
  - by apply memcpy_window_eq.
  - intros Hne Hout.
    destruct (Utils.memcpy dest src offset) as [out|] eqn:E; [|reflexivity].
    apply memcpy_Some in E as (_ & _ & Hfit).
    assert (length dest ≠ 0%nat) by (destruct dest; [done | simpl; lia]).
    specialize (Hfit ltac:(assumption)). lia.
Qed.

Lemma memcpy_copies_window_witness :
  Utils.memcpy (bytes [9; 9]) (bytes [1; 2; 3; 4]) 1 = Some (bytes [2; 3])
  ∧ Utils.memcpy (bytes [9; 9]) (bytes [1; 2; 3; 4]) 3 = None.
Proof.
  destruct (memcpy_copies_window (bytes [9; 9]) (bytes [1; 2; 3; 4]) 1) as [H1 _];
    [reflexivity|].
  destruct (memcpy_copies_window (bytes [9; 9]) (bytes [1; 2; 3; 4]) 3) as [_ H2];
    [reflexivity|].
  split.
  - apply H1. right. vm_compute. discriminate.
  - apply H2; [discriminate | reflexivity].
Defined.

Lemma assert_subarray_Some (subarray array : list byte) (n offset : N) :
  Utils.assert_subarray subarray array n offset = Some () →
  ∀ i, i < n → i < len subarray →
       ∃ a, subarray !! N.to_nat i = Some a
            ∧ array !! N.to_nat (offset + i) = Some a.
Proof.
  intros Hrun i Hi Hin. unfold Utils.assert_subarray in Hrun.
  pose proof (for_loop_inv
    (λ j (_ : unit), ∀ i, i < j → i < n →
       ∃ a, subarray !! N.to_nat i = Some a
            ∧ array !! N.to_nat (offset + i) = Some a)
    _ _ _ _ _ Hrun) as Hinv.
  cbv beta in Hinv. apply Hinv; [| |unfold len in Hin; lia|exact Hi].
  + intros k Hk. lia.
  + intros j [] [] Hj IH Hbody k Hk Hkn.
    destruct (decide (k = j)) as [->|Hne]; [|apply IH; [lia|exact Hkn]].
    apply N.ltb_lt in Hkn. rewrite Hkn in Hbody.
    apply bind_Some in Hbody as (a & Ha & Hbody).
    apply bind_Some in Hbody as (s & Hs & Hbody).
    apply bind_Some in Hbody as (b & Hb & Hbody).
    apply assert_Some, bool_decide_eq_true in Hbody. subst b.
    apply wadd_Some in Hs as [-> _]. exists a. split; [exact Ha | exact Hb].
Qed.

Lemma assert_subarray_total (subarray array : list byte) (n offset : N) :
  offset + len subarray < 2 ^ 32 →
  (∀ i, i < n → i < len subarray →
        ∃ a, subarray !! N.to_nat i = Some a
             ∧ array !! N.to_nat (offset + i) = Some a) →
  Utils.assert_subarray subarray array n offset = Some ().
Proof.
  intros Hov Hall. unfold Utils.assert_subarray.
  destruct (for_loop_total (λ _ (_ : unit), True) (length subarray) 0
              (λ i _, if i <? n
                      then a ← get subarray i; j ← wadd 32 offset i; b ← get array j;
                           assert (bool_decide (a = b))
                      else Some ()) ()) as ([] & Hrun & _); [exact I| |exact Hrun].
  intros j [] Hj _. exists (). split; [|exact I].
  destruct (N.ltb_spec j n) as [Hjn|Hjn]; [|reflexivity].
  destruct (Hall j Hjn) as (a & Ha & Hb); [unfold len; lia|].
  unfold get. rewrite Ha. cbn [mbind option_bind].
  replace (wadd 32 offset j) with (Some (offset + j))
    by (symmetry; apply wadd_Some; unfold len in Hov; lia).
  cbn [mbind option_bind]. rewrite Hb. cbn [mbind option_bind].
  by rewrite bool_decide_eq_true_2.
Qed.

(** [assert_subarray] compares [min(len, N)] elements, [N] the length of
    [subarray]: it succeeds exactly when every [subarray[i]] with
    [i < len] and [i < N] equals [array[offset + i]], which must exist.  A
    [len] beyond [N] is not an error. *)
Theorem assert_subarray_iff (subarray array : list byte) (n offset : N) :
  offset + len subarray < 2 ^ 32 →
  Utils.assert_subarray subarray array n offset = Some ()
  ↔ ∀ i, i < n → i < len subarray →
         ∃ a, subarray !! N.to_nat i = Some a
              ∧ array !! N.to_nat (offset + i) = Some a.
Proof.
  intros Hov. split.
  - apply assert_subarray_Some.
  - by apply assert_subarray_total.
Qed.

Lemma assert_subarray_iff_witness :
  Utils.assert_subarray (bytes [7; 8; 0]) (bytes [1; 7; 8; 9]) 2 1 = Some ()
  ↔ ∀ i, i < 2 → i < len (bytes [7; 8; 0]) →
         ∃ a, bytes [7; 8; 0] !! N.to_nat i = Some a
              ∧ bytes [1; 7; 8; 9] !! N.to_nat (1 + i) = Some a.
Proof.
  apply (assert_subarray_iff (bytes [7; 8; 0]) (bytes [1; 7; 8; 9]) 2 1).
  reflexivity.
Defined.

Lemma be_read_acc acc l :
  foldl (λ a b, 256 * a + bz b) acc l = acc * 256 ^ len l + be_read l.
Proof.
  unfold be_read. revert acc. induction l as [|x l IH]; intros acc.
  - simpl. unfold len. simpl. lia.
  - simpl. rewrite IH. rewrite (IH (256 * 0 + bz x)).
    unfold len. simpl length. rewrite Nat2N.inj_succ, N.pow_succ_r'. lia.
Qed.

Lemma be_read_cons x l : be_read (x :: l) = bz x * 256 ^ len l + be_read l.
Proof. unfold be_read at 1. simpl. rewrite be_read_acc. lia. Qed.

Lemma be_read_bound l : be_read l < 256 ^ len l.
Proof.
  induction l as [|x l IH]; [unfold be_read, len; simpl; lia|].
  rewrite be_read_cons. pose proof (bz_range x).
  unfold len in *. simpl length. rewrite Nat2N.inj_succ, N.pow_succ_r'. nia.
Qed.

Lemma be_read_app l1 l2 :
  be_read (l1 ++ l2) = be_read l1 * 256 ^ len l2 + be_read l2.
Proof.
  induction l1 as [|x l1 IH]; [unfold be_read at 2; simpl; lia|].
  simpl app. rewrite !be_read_cons, IH.
  unfold len. rewrite length_app, Nat2N.inj_add, N.pow_add_r. lia.
Qed.

Lemma be_read_zeros n : be_read (replicate n x00) = 0.
Proof.
  induction n as [|n IH]; [reflexivity|].
  simpl replicate. rewrite be_read_cons, IH, bz_x00. lia.
Qed.

Lemma lead_zeros_split l :
  l = replicate (lead_zeros l) x00 ++ drop (lead_zeros l) l.
Proof.
  induction l as [|x l IH]; [reflexivity|]. simpl.
  destruct (N.eqb_spec (bz x) 0) as [E|E]; [|reflexivity].
  simpl. rewrite <- IH. f_equal. apply bz_inj. by rewrite bz_x00.
Qed.

Lemma be_read_zero_iff l : be_read l = 0 ↔ lead_zeros l = length l.
Proof.
  induction l as [|x l IH]; [done|].
  rewrite be_read_cons. simpl. pose proof (be_read_bound l).
  destruct (N.eqb_spec (bz x) 0) as [E|E].
  - rewrite E. simpl. rewrite IH. lia.
  - split; [|lia]. intros H0. exfalso.
    assert (0 < 256 ^ len l) by (apply N.neq_0_lt_0, N.pow_nonzero; lia). nia.
Qed.

(** [byte_value] keeps the number: for a big-endian byte array it returns
    the array's significant bytes moved to the front, zero-filled behind, and
    their count [n]; the first [n] bytes of the result read as the same number
    as the input, [n] is 0 exactly for the number 0, and otherwise the
    result starts with a non-zero byte. *)
Theorem byte_value_preserves_number (b : list byte) :
  len b < 2 ^ 31 →
  ∃ s n, Utils.byte_value b = Some (s, n)
         ∧ length s = length b
         ∧ n ≤ len b
         ∧ be_read (take (N.to_nat n) s) = be_read b
         ∧ drop (N.to_nat n) s = replicate (length b - N.to_nat n) x00
         ∧ (n = 0 ↔ be_read b = 0)
         ∧ (0 < n → ∃ x, s !! 0%nat = Some x ∧ bz x ≠ 0).
Proof.
  intros Hlen. rewrite byte_value_spec by exact Hlen.
  pose proof (lead_zeros_le b) as Hle.
  set (z := lead_zeros b) in *.
  assert (Hd : length (drop z b) = (length b - z)%nat) by apply length_drop.
  eexists _, _. split; [reflexivity|].
  rewrite Nat2N.id.
  split_and!.
  - rewrite length_app, length_replicate, Hd. lia.
  - unfold len. lia.
  - rewrite take_app_length' by (symmetry; exact Hd).
    rewrite (lead_zeros_split b) at 2. fold z.
    rewrite be_read_app, be_read_zeros. lia.
  - rewrite drop_app_length' by (symmetry; exact Hd). f_equal. lia.
  - rewrite be_read_zero_iff. fold z. lia.
  - intros Hpos.
    destruct (lead_zeros_nonzero b) as (x & Hx & Hnz); [fold z; lia|].
    exists x. split; [|exact Hnz].
    rewrite lookup_app_l by (rewrite Hd; lia).
    rewrite lookup_drop. fold z in Hx. by rewrite Nat.add_0_r.
Qed.

Lemma byte_value_preserves_number_witness :
  ∃ s n, Utils.byte_value (bytes [0; 0; 1; 0]) = Some (s, n)
         ∧ length s = length (bytes [0; 0; 1; 0])
         ∧ n ≤ len (bytes [0; 0; 1; 0])
         ∧ be_read (take (N.to_nat n) s) = be_read (bytes [0; 0; 1; 0])
         ∧ drop (N.to_nat n) s
           = replicate (length (bytes [0; 0; 1; 0]) - N.to_nat n) x00
         ∧ (n = 0 ↔ be_read (bytes [0; 0; 1; 0]) = 0)
         ∧ (0 < n → ∃ x, s !! 0%nat = Some x ∧ bz x ≠ 0).
Proof.
  apply (byte_value_preserves_number (bytes [0; 0; 1; 0])). reflexivity.
Defined.

(** Shifts compose: shifting left by [a] and then by [b] is shifting by
    [a + b], as long as the total stays inside the array. *)
Theorem left_byte_shift_composes (input : list byte) (a b : nat) :
  len input < 2 ^ 31 → (a + b ≤ length input)%nat →
  (s ← Utils.left_byte_shift input (N.of_nat a); Utils.left_byte_shift s (N.of_nat b))
  = Utils.left_byte_shift input (N.of_nat (a + b)).
Proof.
  intros Hlen Hab.
  rewrite (left_byte_shift_spec input a) by (exact Hlen || lia).
  cbn [mbind option_bind].
  assert (Hl : length (drop a input ++ replicate a x00) = length input)
    by (rewrite length_app, length_drop, length_replicate; lia).
  rewrite left_byte_shift_spec; [| unfold len in *; rewrite Hl; exact Hlen | lia].
  rewrite (left_byte_shift_spec input (a + b)) by (exact Hlen || lia).
  f_equal. rewrite drop_app_le by (rewrite length_drop; lia).
  rewrite drop_drop, <- app_assoc, <- replicate_add. reflexivity.
Qed.

Lemma left_byte_shift_composes_witness :
  (s ← Utils.left_byte_shift (bytes [1; 2; 3; 4; 5]) (N.of_nat 1);
   Utils.left_byte_shift s (N.of_nat 2))
  = Utils.left_byte_shift (bytes [1; 2; 3; 4; 5]) (N.of_nat (1 + 2)).
Proof.
  apply (left_byte_shift_composes (bytes [1; 2; 3; 4; 5]) 1 2).
  - reflexivity.
  - simpl. lia.
Defined.

(** ** The node resolvers *)

Lemma key_as_nibbles_flat (key : list byte) :
  len key < 2 ^ 31 →
  Node.key_as_nibbles (2 * len key) key = Some (flat_nibbles key).
Proof.
  intros Hlen. unfold len in Hlen. change (2 ^ 31) with 2147483648 in Hlen.
  assert (Hmul : wmul 32 2 (len key) = Some (2 * len key))
    by (apply wmul_Some; unfold len; change (2 ^ 32) with 4294967296; lia).
  unfold Node.key_as_nibbles. rewrite Hmul. cbn [mbind option_bind].
  rewrite N.eqb_refl. simpl assert. cbn [mbind option_bind].
  match goal with |- for_loop _ _ ?body ?init = _ =>
    destruct (for_loop_total
      (λ j nib, length nib = (2 * length key)%nat
                ∧ ∀ m, (m < 2 * N.to_nat j)%nat →
                       nib !! m = flat_nibbles key !! m)
      (length key) 0 body init) as (nib & Hrun & Hl & Hnib)
  end.
  * split; [rewrite length_replicate; unfold len; lia|]. intros m Hm. lia.
  * intros j nib Hj [Hl Hnib].
    destruct (lookup_lt_is_Some_2 key (N.to_nat j)) as [x Hx]; [lia|].
    unfold get at 1. rewrite Hx. cbn [mbind option_bind].
    replace (wmul 32 2 j) with (Some (2 * j))
      by (symmetry; apply wmul_Some; change (2 ^ 32) with 4294967296; lia).
    cbn [mbind option_bind].
    replace (set nib (2 * j) (Utils.byte_to_nibbles x).1)
      with (Some (<[N.to_nat (2 * j) := (Utils.byte_to_nibbles x).1]> nib))
      by (symmetry; apply set_Some; unfold len; split; [reflexivity | lia]).
    cbn [mbind option_bind].
    replace (wadd 32 (2 * j) 1) with (Some (2 * j + 1))
      by (symmetry; apply wadd_Some; change (2 ^ 32) with 4294967296; lia).
    cbn [mbind option_bind].
    eexists. split.
    { apply set_Some. split; [reflexivity|]. rewrite len_insert. unfold len. lia. }
    split; [by rewrite !length_insert|].
    intros m Hm.
    destruct (decide (m = N.to_nat (2 * j + 1))) as [->|Hne1].
    { rewrite list_lookup_insert_eq by (rewrite length_insert; lia).
      replace (N.to_nat (2 * j + 1)) with (2 * N.to_nat j + 1)%nat by lia.
      symmetry. by apply flat_nibbles_odd. }
    rewrite list_lookup_insert_ne by lia.
    destruct (decide (m = N.to_nat (2 * j))) as [->|Hne2].
    { rewrite list_lookup_insert_eq by lia.
      replace (N.to_nat (2 * j)) with (2 * N.to_nat j)%nat by lia.
      symmetry. by apply flat_nibbles_even. }
    rewrite list_lookup_insert_ne by lia. apply Hnib. lia.
  * rewrite Hrun. f_equal. apply list_eq. intros m.
    destruct (decide (m < 2 * length key)%nat) as [Hm|Hm].
    -- apply Hnib. lia.
    -- rewrite !lookup_ge_None_2; [reflexivity | rewrite flat_nibbles_length; lia | lia].
Qed.

(** [key_as_nibbles] fails unless [NIB_LEN = 2 * KEY_LEN]; otherwise it
    returns the nibbles of the key, high nibble first: every nibble is below
    16 and byte [i] of the key is [16 * nibble[2i] + nibble[2i + 1]]. *)
Theorem key_as_nibbles_roundtrip (NIB_LEN : N) (key : list byte) :
  len key < 2 ^ 31 →
  (NIB_LEN = 2 * len key →
   Node.key_as_nibbles NIB_LEN key = Some (flat_nibbles key)
   ∧ Forall (λ x, bz x < 16) (flat_nibbles key)
   ∧ ∀ i b, key !! i = Some b →
            ∃ hi lo, flat_nibbles key !! (2 * i)%nat = Some hi
                     ∧ flat_nibbles key !! (2 * i + 1)%nat = Some lo
                     ∧ bz b = 16 * bz hi + bz lo)
  ∧ (NIB_LEN ≠ 2 * len key → Node.key_as_nibbles NIB_LEN key = None).
Proof.
  intros Hlen. pose proof (key_as_nibbles_flat key Hlen) as Hflat.
  unfold len in Hlen. change (2 ^ 31) with 2147483648 in Hlen.
  assert (Hmul : wmul 32 2 (len key) = Some (2 * len key))
    by (apply wmul_Some; unfold len; change (2 ^ 32) with 4294967296; lia).
  split.
  - intros ->. split_and!.
    + exact Hflat.
    + clear Hmul Hlen Hflat. induction key as [|x key IH]; [constructor|]. cbn [flat_nibbles].
      pose proof (byte_to_nibbles_bz x) as [H1 H2]. pose proof (bz_range x).
      constructor; [rewrite H1; lia|]. constructor; [rewrite H2; lia|].
      exact IH.
    + intros i b Hb. eexists _, _. split; [by apply flat_nibbles_even|].
      split; [by apply flat_nibbles_odd|].
      pose proof (byte_to_nibbles_bz b) as [-> ->]. lia.
  - intros Hne. unfold Node.key_as_nibbles. rewrite Hmul. cbn [mbind option_bind].
    destruct (N.eqb_spec NIB_LEN (2 * len key)); [contradiction | reflexivity].
Qed.

Lemma key_as_nibbles_roundtrip_witness :
  Node.key_as_nibbles 4 (bytes [0xab; 0x07]) = Some (bytes [0xa; 0xb; 0x0; 0x7])
  ∧ Node.key_as_nibbles 5 (bytes [0xab; 0x07]) = None.
Proof.
  destruct (key_as_nibbles_roundtrip 4 (bytes [0xab; 0x07])) as [H1 _]; [reflexivity|].
  destruct (key_as_nibbles_roundtrip 5 (bytes [0xab; 0x07])) as [_ H2]; [reflexivity|].
  split.
  - apply H1. reflexivity.
  - apply H2. discriminate.
Defined.

Lemma flat_nibbles_app l1 l2 :
  flat_nibbles (l1 ++ l2) = flat_nibbles l1 ++ flat_nibbles l2.
Proof. induction l1 as [|x l1 IH]; [reflexivity|]. simpl. by rewrite IH. Qed.

(** [compact_decode] inverts the hex-prefix encoding.  On a first field of
    [1 + n] bytes [h :: bs] (in a 33-byte slot) whose prefix nibble
    [t = h >> 4] is below 4, with a zero low nibble when [t] is even, it
    returns the [2n + (t & 1)] nibbles of the field after the prefix: all
    nibbles of [h :: bs] but the first two when [t] is even, all but the
    first when [t] is odd.  A field of length 0 is rejected. *)
Theorem compact_decode_hex_prefix (h : byte) (bs pad : list byte) :
  length (h :: bs ++ pad) = 33%nat →
  bz h / 16 < 4 →
  ((bz h / 16) mod 2 = 0 → bz h mod 16 = 0) →
  2 * len bs + (bz h / 16) mod 2 ≤ 64 →
  (∃ nib,
     Node.compact_decode 64 (h :: bs ++ pad) (1 + len bs)
     = Some (nib, 2 * len bs + (bz h / 16) mod 2)
     ∧ length nib = 64%nat
     ∧ take (N.to_nat (2 * len bs + (bz h / 16) mod 2)) nib
       = drop (2 - N.to_nat ((bz h / 16) mod 2)) (flat_nibbles (h :: bs)))
  ∧ Node.compact_decode 64 (h :: bs ++ pad) 0 = None.
Proof.
  intros Hlen Ht Hpar Hcount.
  set (input := h :: bs ++ pad) in *.
  set (p := (bz h / 16) mod 2) in *.
  assert (Hp : p < 2) by (subst p; lia).
  pose proof (byte_to_nibbles_bz h) as [Hhi Hlo].
  assert (Hpre : ∀ flen : N, ∃ nib,
    Node.compact_decode 64 input flen
    = (l2 ← wmul 64 2 flen;
       l2p ← wadd 64 l2 (cast 64 p);
       out_length ← wsub l2p 2;
       _ ← assert (cast 32 out_length <=? cast 32 64);
       Some (nib, out_length))).
  { intros flen. unfold Node.compact_decode.
    assert (Hli : len input = 33) by (unfold len; rewrite Hlen; reflexivity).
    rewrite Hli.
    change (wmul 32 (cast 32 2) (cast 32 33)) with (Some 66).
    cbn [mbind option_bind].
    change (assert (66 <=? cast 32 (64 + 2))) with (Some ()).
    cbn [mbind option_bind].
    change (get input 0) with (Some h). cbn [mbind option_bind]. cbv zeta.
    rewrite Hhi, Hlo.
    replace (bz h / 16 <? 4) with true by (symmetry; by apply N.ltb_lt).
    change (assert true) with (Some ()). cbn [mbind option_bind].
    replace (cast 8 (1 - cast 1 (bz h / 16)) * (bz h mod 16) =? 0) with true.
    2:{ symmetry. apply N.eqb_eq. unfold cast.
        change (2 ^ 1) with 2. fold p. change (2 ^ 8) with 256.
        destruct (decide (p = 0)) as [E|E]; [rewrite (Hpar E); lia|].
        replace p with 1 by lia. reflexivity. }
    change (assert true) with (Some ()). cbn [mbind option_bind].
    change (wsub 33 1) with (Some 32). cbn [mbind option_bind].
    change (N.to_nat 32) with 32%nat. change (N.to_nat 64) with 64%nat.
    match goal with |- context [for_loop 32 0 ?body ?init] =>
      destruct (for_loop_total (λ _ (st : list byte * (byte * byte)), length st.1 = 64%nat)
                  32 0 body init) as ([nib prev] & Hrun & _)
    end.
    - reflexivity.
    - intros j [nibble prev] Hj Hl. simpl in Hl.
      replace (wadd 32 j 1) with (Some (j + 1))
        by (symmetry; apply wadd_Some; change (2 ^ 32) with 4294967296; lia).
      cbn [mbind option_bind].
      destruct (lookup_lt_is_Some_2 input (N.to_nat (j + 1))) as [x Hx]; [lia|].
      unfold get. rewrite Hx. cbn [mbind option_bind].
      replace (wmul 32 2 j) with (Some (2 * j))
        by (symmetry; apply wmul_Some; change (2 ^ 32) with 4294967296; lia).
      cbn [mbind option_bind].
      replace (wadd 32 (2 * j) 1) with (Some (2 * j + 1))
        by (symmetry; apply wadd_Some; change (2 ^ 32) with 4294967296; lia).
      unfold set.
      replace (2 * j <? len nibble) with true
        by (symmetry; apply N.ltb_lt; unfold len; lia).
      cbn [mbind option_bind]. rewrite len_insert.
      replace (2 * j + 1 <? len nibble) with true
        by (symmetry; apply N.ltb_lt; unfold len; lia).
      cbn [mbind option_bind].
      eexists. split; [reflexivity|]. simpl. by rewrite !length_insert.
    - exists nib. rewrite Hrun. cbn [mbind option_bind].
      unfold cast at 1. change (2 ^ 1) with 2. fold p. reflexivity. }
  split.
  - destruct (Hpre (1 + len bs)) as (nib & Hcd).
    assert (Hbs : len bs ≤ 32)
      by (subst input; unfold len; simpl in Hlen; rewrite length_app in Hlen; lia).
    assert (Hrun : Node.compact_decode 64 input (1 + len bs)
                   = Some (nib, 2 * len bs + p)).
    { rewrite Hcd.
      replace (wmul 64 2 (1 + len bs)) with (Some (2 * (1 + len bs)))
        by (symmetry; apply wmul_Some; change (2 ^ 64) with 18446744073709551616; lia).
      cbn [mbind option_bind].
      rewrite (cast_small 64 p) by (change (2 ^ 64) with 18446744073709551616; lia).
      replace (wadd 64 (2 * (1 + len bs)) p) with (Some (2 * (1 + len bs) + p))
        by (symmetry; apply wadd_Some; change (2 ^ 64) with 18446744073709551616; lia).
      cbn [mbind option_bind].
      replace (wsub (2 * (1 + len bs) + p) 2) with (Some (2 * len bs + p))
        by (symmetry; apply wsub_Some; lia).
      cbn [mbind option_bind].
      rewrite (cast_small 32 (2 * len bs + p)) by (change (2 ^ 32) with 4294967296; lia).
      change (cast 32 64) with 64.
      replace (2 * len bs + p <=? 64) with true by (symmetry; by apply N.leb_le).
      reflexivity. }
    exists nib. split; [exact Hrun|].
    apply compact_decode_Some in Hrun as (h' & Hh' & _ & _ & _ & _ & _ & Hnl & Hnib);
      [|exact Hlen].
    injection Hh' as <-. fold p in Hnib.
    split; [exact Hnl|].
    apply list_eq. intros m.
    destruct (decide (m < N.to_nat (2 * len bs + p))%nat) as [Hm|Hm].
    + rewrite lookup_take_lt by exact Hm. rewrite Hnib by lia.
      rewrite lookup_drop. subst input.
      change (h :: bs ++ pad) with ((h :: bs) ++ pad).
      rewrite flat_nibbles_app.
      rewrite lookup_app_l
        by (rewrite flat_nibbles_length; simpl length; unfold len in Hm; lia).
      f_equal. lia.
    + rewrite !lookup_ge_None_2; [reflexivity| |].
      * rewrite length_drop, flat_nibbles_length. simpl length. unfold len in Hm. lia.
      * rewrite length_take. lia.
  - destruct (Hpre 0) as (nib & Hcd). rewrite Hcd.
    change (wmul 64 2 0) with (Some 0). cbn [mbind option_bind].
    rewrite (cast_small 64 p) by (change (2 ^ 64) with 18446744073709551616; lia).
    replace (wadd 64 0 p) with (Some p)
      by (symmetry; apply wadd_Some; change (2 ^ 64) with 18446744073709551616; lia).
    cbn [mbind option_bind].
    unfold wsub. replace (2 <=? p) with false by (symmetry; apply N.leb_gt; lia).
    reflexivity.
Qed.

(** The odd leaf prefix [0x3a] followed by [0xbc] encodes the three nibbles
    [a, b, c]. *)
Lemma compact_decode_hex_prefix_witness :
  (∃ nib,
     Node.compact_decode 64 (bytes [0x3a; 0xbc] ++ replicate 31 x00) 2
     = Some (nib, 3)
     ∧ length nib = 64%nat
     ∧ take 3 nib = bytes [0xa; 0xb; 0xc])
  ∧ Node.compact_decode 64 (bytes [0x3a; 0xbc] ++ replicate 31 x00) 0 = None.
Proof.
  apply (compact_decode_hex_prefix (zb 0x3a) (bytes [0xbc]) (replicate 31 x00)).
  - reflexivity.
  - vm_compute. reflexivity.
  - vm_compute. discriminate.
  - vm_compute. discriminate.
Defined.

(** ** The list decoders: layout of the fields *)

Lemma decode1_inv F input t :
  Rlp.decode1 F input = Some t →
  ∃ hdr, Rlp.decode_len input = Some hdr
         ∧ RLP_Header.data_type hdr = Rlp.LIST
         ∧ RLP_Header.length hdr + RLP_Header.offset hdr ≤ len input
         ∧ dec_inv input (RLP_Header.offset hdr)
             (RLP_Header.length hdr + RLP_Header.offset hdr) F (N.of_nat F)
             (RLP_Header.length hdr + RLP_Header.offset hdr,
              RLP_List.num_fields t, RLP_List.offset t, RLP_List.length t,
              RLP_List.data_type t).
Proof.
  intros Hrun. unfold Rlp.decode1 in Hrun.
  apply bind_Some in Hrun as (hdr & Hhdr & Hrun). cbv zeta in Hrun.
  apply bind_Some in Hrun as (total & Htot & Hrun). apply wadd_Some in Htot as [-> _].
  apply bind_Some in Hrun as ([] & Hty & Hrun). apply assert_Some, N.eqb_eq in Hty.
  apply bind_Some in Hrun as ([] & Hfit & Hrun). apply assert_Some, N.leb_le in Hfit.
  apply bind_Some in Hrun as ([[[[off nf] o] l] ty] & Hloop & Hrun).
  apply bind_Some in Hrun as ([] & Hend & Hrun). apply assert_Some, N.eqb_eq in Hend.
  injection Hrun as <-. simpl. subst off.
  exists hdr. split; [exact Hhdr|]. split; [exact Hty|]. split; [exact Hfit|].
  exact (decode1_loop_inv _ _ _ _ _ Hloop).
Qed.

Lemma field_ok_start input start o l ty : field_ok input start o l ty → start ≤ o.
Proof.
  intros (fh & _ & _ & Hs & Hl & [E|E] & _).
  - destruct (Hs E) as [-> _]. lia.
  - destruct (Hl E) as [-> _]. lia.
Qed.

Lemma dec_inv_starts_mono input first total F i off nf o l t :
  dec_inv input first total F i (off, nf, o, l, t) →
  ∀ k k', (k ≤ k')%nat → (k' ≤ N.to_nat nf)%nat →
          item_start first o l k ≤ item_start first o l k'.
Proof.
  intros (_ & _ & _ & _ & _ & _ & Hfields & _) k k' Hk.
  induction Hk as [|k' Hk IH]; [lia|]. intros Hnf.
  specialize (IH ltac:(lia)).
  destruct (Hfields k' ltac:(lia)) as (ok & lk & tk & Eo & El & _ & Hok & _).
  apply field_ok_mono in Hok. simpl. rewrite Eo, El. simpl. lia.
Qed.

Lemma dec_inv_field input first total F i off nf o l t k ok lk :
  dec_inv input first total F i (off, nf, o, l, t) →
  (k < N.to_nat nf)%nat → o !! k = Some ok → l !! k = Some lk →
  item_start first o l k ≤ ok ∧ ok + lk = item_start first o l (S k)
  ∧ first ≤ ok ∧ ok + lk ≤ off.
Proof.
  intros Hinv Hk Eo El.
  pose proof (dec_inv_starts_mono _ _ _ _ _ _ _ _ _ _ Hinv) as Hmono.
  pose proof (dec_inv_chain _ _ _ _ _ _ _ _ _ _ Hinv (S k) ltac:(lia)) as Hend.
  destruct Hinv as (_ & _ & _ & _ & _ & _ & Hfields & _).
  destruct (Hfields k Hk) as (ok' & lk' & tk & Eo' & El' & _ & Hok & _).
  rewrite Eo in Eo'. rewrite El in El'. injection Eo' as <-. injection El' as <-.
  apply field_ok_start in Hok.
  specialize (Hmono 0%nat k ltac:(lia) ltac:(lia)). simpl in Hmono.
  simpl in Hend |- *. rewrite Eo, El in Hend |- *. simpl in Hend |- *.
  split_and!; [exact Hok | reflexivity | lia | exact Hend].
Qed.

(** The fields [decode1] records are laid out in order inside the list
    payload and do not overlap: field [i] lies between the end of the list
    header and the end of the payload, and ends where or before field [j]
    starts, for [i < j < num_fields]. *)
Theorem decode1_fields_ordered (F : nat) (input : list byte) (t : RLP_List.t) :
  Rlp.decode1 F input = Some t →
  ∃ hdr, Rlp.decode_len input = Some hdr
    ∧ (∀ i oi li, (i < N.to_nat (RLP_List.num_fields t))%nat →
         RLP_List.offset t !! i = Some oi → RLP_List.length t !! i = Some li →
         RLP_Header.offset hdr ≤ oi
         ∧ oi + li ≤ RLP_Header.offset hdr + RLP_Header.length hdr)
    ∧ (∀ i j oi li oj, (i < j)%nat → (j < N.to_nat (RLP_List.num_fields t))%nat →
         RLP_List.offset t !! i = Some oi → RLP_List.length t !! i = Some li →
         RLP_List.offset t !! j = Some oj →
         oi + li ≤ oj).
Proof.
  intros Hrun. apply decode1_inv in Hrun as (hdr & Hhdr & _ & _ & Hinv).
  exists hdr. split; [exact Hhdr|]. split.
  - intros i oi li Hi Eo El.
    destruct (dec_inv_field _ _ _ _ _ _ _ _ _ _ _ _ _ Hinv Hi Eo El) as (_ & _ & H1 & H2).
    lia.
  - intros i j oi li oj Hij Hj Eoi Eli Eoj.
    destruct (lookup_lt_is_Some_2 (RLP_List.length t) j) as [lj Elj].
    { destruct Hinv as (_ & Hl & _ & Hnf & _). lia. }
    assert (Hi' : (i < N.to_nat (RLP_List.num_fields t))%nat) by lia.
    destruct (dec_inv_field _ _ _ _ _ _ _ _ _ _ _ _ _ Hinv Hi' Eoi Eli)
      as (_ & Hi & _ & _).
    destruct (dec_inv_field _ _ _ _ _ _ _ _ _ _ _ _ _ Hinv Hj Eoj Elj)
      as (Hj' & _ & _ & _).
    assert (Hj'' : (j ≤ N.to_nat (RLP_List.num_fields t))%nat) by lia.
    pose proof (dec_inv_starts_mono _ _ _ _ _ _ _ _ _ _ Hinv (S i) j Hij Hj'').
    lia.
Qed.

(** The three strings of [rlp_decode_test]: [[2, 5)], [[6, 9)] and [[9, 10)]
    inside the payload [[1, 10)]. *)
Lemma decode1_fields_ordered_witness :
  ∃ hdr, Rlp.decode_len (bytes [0xc9; 0x83; 0x63; 0x61; 0x74; 0x83; 0x64; 0x6f; 0x68; 0; 0])
         = Some hdr
    ∧ (∀ i oi li, (i < N.to_nat 3)%nat →
         [2; 6; 9; 0; 0] !! i = Some oi → [3; 3; 1; 0; 0] !! i = Some li →
         RLP_Header.offset hdr ≤ oi
         ∧ oi + li ≤ RLP_Header.offset hdr + RLP_Header.length hdr)
    ∧ (∀ i j oi li oj, (i < j)%nat → (j < N.to_nat 3)%nat →
         [2; 6; 9; 0; 0] !! i = Some oi → [3; 3; 1; 0; 0] !! i = Some li →
         [2; 6; 9; 0; 0] !! j = Some oj →
         oi + li ≤ oj).
Proof.
  apply (decode1_fields_ordered 5
           (bytes [0xc9; 0x83; 0x63; 0x61; 0x74; 0x83; 0x64; 0x6f; 0x68; 0; 0])
           (RLP_List.new [2; 6; 9; 0; 0] [3; 3; 1; 0; 0] [0; 0; 0; 0; 0] 3)).
  reflexivity.
Defined.

(** ** The header and string decoders *)

Lemma take_dot_drop_no_overflow {A} M (arr : list A) (n : N) (out : list A) :
  Rlp.take_dot_drop M arr n = Some out →
  arr ≠ [] ∧ ∀ i, (i < M)%nat → N.of_nat i + n < 2 ^ 64.
Proof.
  unfold Rlp.take_dot_drop. intros Hrun.
  apply bind_Some in Hrun as (a0 & Ha0 & Hrun).
  split; [by destruct arr|].
  erewrite for_loop_ext in Hrun.
  - apply (fill_loop_Some
             (λ i, s ← wadd 64 i n; get arr (b2n (s <? len arr) * s))) in Hrun
      as [Hl Hf]; [|by rewrite length_replicate].
    intros i Hi. specialize (Hf i Hi).
    destruct (lookup_lt_is_Some_2 out i) as [x Hx]; [lia|].
    rewrite Hx in Hf.
    apply bind_Some in Hf as (s & Hs & _). by apply wadd_Some in Hs as [_ Hs].
  - intros j t Hj. cbv beta.
    destruct (wadd 64 j n) as [s|]; [|done]. cbn [mbind option_bind].
    by destruct (get arr _).
Qed.

Lemma take_dot_drop_fits {A} M (arr : list A) (n : N) :
  arr ≠ [] → (M = 0%nat ∨ n + N.of_nat M ≤ 2 ^ 64) →
  is_Some (Rlp.take_dot_drop M arr n).
Proof.
  intros Hne Hn. destruct arr as [|a0 arr]; [done|].
  unfold Rlp.take_dot_drop. change (get (a0 :: arr) 0) with (Some a0).
  cbn [mbind option_bind]. set (l := a0 :: arr) in *.
  erewrite for_loop_ext.
  - erewrite (fill_loop_total
               (λ i, s ← wadd 64 i n; get l (b2n (s <? len l) * s))
               M _ ((λ i, default a0 (l !! (if N.of_nat i + n <? len l
                        then N.to_nat (N.of_nat i + n) else 0%nat))) <$> seq 0 M)).
    + eauto.
    + by rewrite length_replicate.
    + by rewrite length_fmap, length_seq.
    + intros j Hj.
      replace (wadd 64 (N.of_nat j) n) with (Some (N.of_nat j + n))
        by (symmetry; apply wadd_Some; split;
            [done | change (2 ^ 64) with 18446744073709551616 in *; lia]).
      cbn [mbind option_bind]. unfold get, b2n.
      rewrite list_lookup_fmap, lookup_seq_lt by done. simpl.
      destruct (N.ltb_spec (N.of_nat j + n) (len l)) as [Hlt'|Hge].
      * rewrite N.mul_1_l.
        destruct (lookup_lt_is_Some_2 l (N.to_nat (N.of_nat j + n)))
          as [x Hx]; [unfold len in Hlt'; lia|]. by rewrite Hx.
      * rewrite N.mul_0_l. reflexivity.
  - intros j t Hj. cbv beta.
    destruct (wadd 64 j n) as [s|]; [|done]. cbn [mbind option_bind].
    by destruct (get l _).
Qed.

(** [take_dot_drop] succeeds exactly when the array is not empty and none of
    the checked [u64] sums [i + n], [i < M], overflows.  It then returns [M]
    elements, reading [arr[n + i]] inside the array and substituting [arr[0]]
    for every index outside it; when the window fits the result is the window
    itself. *)
Theorem take_dot_drop_window {A} (M : nat) (arr : list A) (n : N) :
  (is_Some (Rlp.take_dot_drop M arr n)
   ↔ arr ≠ [] ∧ (M = 0%nat ∨ n + N.of_nat M ≤ 2 ^ 64))
  ∧ (∀ out, Rlp.take_dot_drop M arr n = Some out →
       length out = M
       ∧ (∀ i, (i < M)%nat →
               out !! i = if n + N.of_nat i <? len arr
                          then arr !! N.to_nat (n + N.of_nat i)
                          else arr !! 0%nat)
       ∧ (n + N.of_nat M ≤ len arr → out = take M (drop (N.to_nat n) arr))).
Proof.
  split.
  - split.
    + intros [out Hout]. apply take_dot_drop_no_overflow in Hout as [Hne Hov].
      split; [exact Hne|].
      destruct M as [|M]; [by left|right].
      specialize (Hov M (Nat.lt_succ_diag_r M)). lia.
    + intros [Hne Hov]. by apply take_dot_drop_fits.
  - intros out Hout. apply take_dot_drop_Some in Hout as [Hl Hout].
    assert (Hlook : ∀ i, (i < M)%nat →
              out !! i = if n + N.of_nat i <? len arr
                         then arr !! N.to_nat (n + N.of_nat i) else arr !! 0%nat).
    { intros i Hi. destruct (Hout i Hi) as [-> _].
      rewrite (N.add_comm (N.of_nat i) n). by destruct (n + N.of_nat i <? len arr). }
    split_and!; [exact Hl | exact Hlook |].
    intros Hfit. apply list_eq. intros i.
    destruct (decide (i < M)%nat) as [Hi|Hi].
    + rewrite (Hlook i Hi). unfold len in *.
      replace (n + N.of_nat i <? N.of_nat (length arr)) with true
        by (symmetry; apply N.ltb_lt; lia).
      rewrite lookup_take_lt by exact Hi. rewrite lookup_drop. f_equal. lia.
    + rewrite !lookup_ge_None_2; [reflexivity | rewrite length_take; lia | lia].
Qed.

(** A window inside the array, a window that wraps to [arr[0]], and a start
    index at which the second sum overflows. *)
Lemma take_dot_drop_window_witness :
  Rlp.take_dot_drop 3 (bytes [1; 2; 3; 4]) 1 = Some (bytes [2; 3; 4])
  ∧ is_Some (Rlp.take_dot_drop 3 (bytes [1; 2; 3; 4]) 2)
  ∧ ¬ is_Some (Rlp.take_dot_drop 2 (bytes [1; 2; 3; 4]) (2 ^ 64 - 1)).
Proof.
  split_and!.
  - destruct (proj2 (proj1 (take_dot_drop_window 3 (bytes [1; 2; 3; 4]) 1)))
      as [out Hout]; [split; [discriminate | right; vm_compute; discriminate]|].
    rewrite Hout. f_equal.
    apply (proj2 (take_dot_drop_window 3 (bytes [1; 2; 3; 4]) 1) out Hout).
    vm_compute. discriminate.
  - apply (proj1 (take_dot_drop_window 3 (bytes [1; 2; 3; 4]) 2)).
    split; [discriminate | right; vm_compute; discriminate].
  - intros H.
    apply (proj1 (take_dot_drop_window 2 (bytes [1; 2; 3; 4]) (2 ^ 64 - 1))) in H
      as [_ [H|H]]; [discriminate | vm_compute in H; by apply H].
Defined.

(** [decode_len] looks at the first three bytes only: the prefix and at most
    two length bytes. *)
Theorem decode_len_reads_three_bytes (arr : list byte) :
  len arr < 2 ^ 32 →
  Rlp.decode_len arr = Rlp.decode_len (take 3 arr).
Proof.
  intros Hlen. destruct arr as [|p rest]; [reflexivity|].
  change (take 3 (p :: rest)) with (p :: take 2 rest).
  rewrite (decode_len_correct p rest) by exact Hlen.
  rewrite (decode_len_correct p (take 2 rest))
    by (unfold len in *; simpl length in *; rewrite length_take; lia).
  unfold decode_len_spec.
  assert (Htake : ∀ k, k ≤ 2 →
            take (N.to_nat k) (take 2 rest) = take (N.to_nat k) rest).
  { intros k Hk. rewrite take_take. f_equal. lia. }
  repeat case_match; try reflexivity;
    repeat match goal with H : (_ <=? _) = true |- _ => apply N.leb_le in H end;
    by rewrite Htake.
Qed.

Lemma decode_len_reads_three_bytes_witness :
  Rlp.decode_len (bytes [0xb9; 0x04; 0x00; 1; 2; 3])
  = Rlp.decode_len (take 3 (bytes [0xb9; 0x04; 0x00; 1; 2; 3])).
Proof.
  apply (decode_len_reads_three_bytes (bytes [0xb9; 0x04; 0x00; 1; 2; 3])).
  reflexivity.
Defined.

Lemma decode0_eq p rest o l :
  len (p :: rest) < 2 ^ 32 →
  decode_len_spec (bz p) rest = Some (RLP_Header.new o l Rlp.STRING) →
  l + o ≤ len (p :: rest) →
  Rlp.decode0 (p :: rest) = Some (o, l).
Proof.
  intros Hlen Hspec Hfit. unfold Rlp.decode0.
  rewrite decode_len_correct by exact Hlen. rewrite Hspec.
  cbn [mbind option_bind RLP_Header.length RLP_Header.offset RLP_Header.data_type].
  change (2 ^ 32) with 4294967296 in Hlen.
  replace (wadd 64 l o) with (Some (l + o))
    by (symmetry; apply wadd_Some; change (2 ^ 64) with 18446744073709551616; lia).
  cbn [mbind option_bind]. change (assert (Rlp.STRING =? Rlp.STRING)) with (Some ()).
  cbn [mbind option_bind].
  replace (l + o <=? len (p :: rest)) with true by (symmetry; by apply N.leb_le).
  reflexivity.
Qed.

(** [decode0] decodes an RLP string in a padded array: a single byte below
    [0x80] is its own payload; a string [s] of up to 55 bytes after the
    header [0x80 + len], of up to 255 bytes after [0xb8, len], of up to 65535
    bytes after [0xb9, len / 256, len mod 256] is found at the offset and
    with the length returned.  A list prefix is rejected, and so is a
    payload that does not fit the array. *)
Theorem decode0_string (s pad : list byte) :
  len s + len pad + 3 < 2 ^ 32 →
  (∀ b, bz b < 0x80 → Rlp.decode0 (b :: pad) = Some (0, 1))
  ∧ (len s ≤ 55 →
     Rlp.decode0 (zb (0x80 + len s) :: s ++ pad) = Some (1, len s))
  ∧ (56 ≤ len s < 256 →
     Rlp.decode0 (zb 0xb8 :: zb (len s) :: s ++ pad) = Some (2, len s))
  ∧ (256 ≤ len s < 65536 →
     Rlp.decode0 (zb 0xb9 :: zb (len s / 256) :: zb (len s mod 256) :: s ++ pad)
     = Some (3, len s))
  ∧ (∀ p, 0xc0 ≤ bz p → Rlp.decode0 (p :: s ++ pad) = None)
  ∧ (∀ input o l, len input < 2 ^ 32 → Rlp.decode0 input = Some (o, l) →
       o + l ≤ len input
       ∧ ∃ p, input !! 0%nat = Some p ∧ bz p < 0xc0).
Proof.
  intros Hlen. change (2 ^ 32) with 4294967296 in Hlen.
  assert (Hcons : ∀ (x : byte) l, len (x :: l) = 1 + len l)
    by (intros; unfold len; simpl length; lia).
  assert (Happ : len (s ++ pad) = len s + len pad)
    by (unfold len; rewrite length_app; lia).
  split_and!.
  - intros b Hb. apply decode0_eq.
    + rewrite Hcons. change (2 ^ 32) with 4294967296. lia.
    + unfold decode_len_spec.
      replace (bz b <? 128) with true by (symmetry; by apply N.ltb_lt).
      reflexivity.
    + rewrite Hcons. lia.
  - intros Hs. apply decode0_eq.
    + rewrite Hcons, Happ. change (2 ^ 32) with 4294967296. lia.
    + unfold decode_len_spec. rewrite bz_zb by lia.
      replace (128 + len s <? 128) with false by (symmetry; apply N.ltb_ge; lia).
      replace (128 + len s <? 184) with true by (symmetry; apply N.ltb_lt; lia).
      do 2 f_equal. lia.
    + rewrite Hcons, Happ. lia.
  - intros Hs. apply decode0_eq.
    + rewrite !Hcons, Happ. change (2 ^ 32) with 4294967296. lia.
    + unfold decode_len_spec. change (bz (zb 184)) with 184.
      change (184 - 183) with 1. change (N.to_nat 1) with 1%nat.
      simpl take. unfold be_read. simpl foldl. rewrite bz_zb by lia.
      cbn [N.ltb N.leb N.compare Pos.compare Pos.compare_cont].
      reflexivity.
    + rewrite !Hcons, Happ. lia.
  - intros Hs. apply decode0_eq.
    + rewrite !Hcons, Happ. change (2 ^ 32) with 4294967296. lia.
    + unfold decode_len_spec. change (bz (zb 185)) with 185.
      change (185 - 183) with 2. change (N.to_nat 2) with 2%nat.
      simpl take. unfold be_read. simpl foldl. rewrite !bz_zb by lia.
      cbn [N.ltb N.leb N.compare Pos.compare Pos.compare_cont].
      do 2 f_equal. lia.
    + rewrite !Hcons, Happ. lia.
  - intros p Hp. unfold Rlp.decode0.
    destruct (Rlp.decode_len (p :: s ++ pad)) as [h|] eqn:E; [|reflexivity].
    cbn [mbind option_bind].
    rewrite decode_len_correct in E
      by (unfold len in *; simpl length; rewrite length_app;
          change (2 ^ 32) with 4294967296; lia).
    assert (Hty : RLP_Header.data_type h = Rlp.LIST).
    { unfold decode_len_spec in E.
      repeat case_match; try discriminate E; injection E as <-; try reflexivity;
        repeat match goal with H : (_ <? _) = true |- _ => apply N.ltb_lt in H end; lia. }
    destruct (wadd 64 _ _); [|reflexivity]. cbn [mbind option_bind].
    rewrite Hty. reflexivity.
  - intros input o l Hin Hrun. unfold Rlp.decode0 in Hrun.
    apply bind_Some in Hrun as (h & Hh & Hrun).
    apply bind_Some in Hrun as (total & Htot & Hrun). apply wadd_Some in Htot as [-> _].
    apply bind_Some in Hrun as ([] & Hty & Hrun). apply assert_Some, N.eqb_eq in Hty.
    apply bind_Some in Hrun as ([] & Hfit & Hrun). apply assert_Some, N.leb_le in Hfit.
    injection Hrun as <- <-. split; [lia|].
    destruct input as [|p rest]; [discriminate Hh|].
    exists p. split; [reflexivity|].
    rewrite decode_len_correct in Hh by exact Hin.
    unfold decode_len_spec in Hh.
    repeat case_match; try discriminate Hh; injection Hh as <-;
      repeat match goal with H : (_ <? _) = true |- _ => apply N.ltb_lt in H end;
      try lia; discriminate Hty.
Qed.

Lemma decode0_string_witness :
  Rlp.decode0 (bytes [0x83; 1; 2; 3; 0; 0]) = Some (1, 3)
  ∧ Rlp.decode0 (bytes [0xc3; 1; 2; 3; 0; 0]) = None.
Proof.
  destruct (decode0_string (bytes [1; 2; 3]) (bytes [0; 0])) as (_ & H1 & _ & _ & H2 & _);
    [reflexivity|].
  split.
  - apply H1. vm_compute. discriminate.
  - apply (H2 (zb 0xc3)). vm_compute. discriminate.
Defined.

(** ** Hash references *)

Lemma verify_node_hash_eq keccak256 (node hash : list byte) hdr :
  len node < 2 ^ 32 → Rlp.decode_len node = Some hdr →
  Node.verify_node_hash keccak256 node hash
  = Some (bool_decide
            (keccak256 node
               (N.min (RLP_Header.offset hdr + RLP_Header.length hdr) (len node))
             = hash)).
Proof.
  intros Hlen Hhdr. unfold Node.verify_node_hash. rewrite Hhdr.
  cbn [mbind option_bind].
  destruct (decode_len_bounds node hdr Hlen Hhdr) as [Hb1 Hb2].
  change (2 ^ 32) with 4294967296 in Hlen.
  replace (wadd 64 (RLP_Header.offset hdr) (RLP_Header.length hdr))
    with (Some (RLP_Header.offset hdr + RLP_Header.length hdr))
    by (symmetry; apply wadd_Some; change (2 ^ 64) with 18446744073709551616; lia).
  cbn [mbind option_bind]. cbv zeta.
  match goal with
  | |- Some (bool_decide (keccak256 node ?a = hash)) = Some (bool_decide (keccak256 node ?b = hash)) =>
      replace a with b; [reflexivity|]
  end.
  rewrite (cast_small 32 (len node)) by (change (2 ^ 32) with 4294967296; lia).
  rewrite (cast_small 32 (RLP_Header.offset hdr + RLP_Header.length hdr))
    by (change (2 ^ 32) with 4294967296; lia).
  unfold b2n.
  destruct (N.ltb_spec (len node) (RLP_Header.offset hdr + RLP_Header.length hdr)).
  - rewrite N.mul_1_l. change (1 - 1) with 0. rewrite N.mul_0_l, N.add_0_r.
    rewrite cast_small by (change (2 ^ 32) with 4294967296; lia). lia.
  - rewrite N.mul_0_l, N.add_0_l. change (1 - 0) with 1. rewrite N.mul_1_l.
    rewrite cast_small by (change (2 ^ 32) with 4294967296; lia). lia.
Qed.

(** [verify_node_hash] hashes the RLP encoding at the front of the node: the
    [offset + length] bytes its header announces, never more than the array
    holds.  It fails exactly when the header does not decode, and otherwise
    tells whether that hash is the expected one. *)
Theorem verify_node_hash_hashes_encoding (keccak256 : list byte → N → list byte)
    (node hash : list byte) :
  len node < 2 ^ 32 →
  (Rlp.decode_len node = None → Node.verify_node_hash keccak256 node hash = None)
  ∧ (∀ hdr, Rlp.decode_len node = Some hdr →
       let L := N.min (RLP_Header.offset hdr + RLP_Header.length hdr) (len node) in
       L ≤ len node
       ∧ Node.verify_node_hash keccak256 node hash
         = Some (bool_decide (keccak256 node L = hash))).
Proof.
  intros Hlen. split.
  - intros E. unfold Node.verify_node_hash. by rewrite E.
  - intros hdr Hhdr L. split; [subst L; lia|].
    by apply verify_node_hash_eq.
Qed.

Lemma verify_node_hash_hashes_encoding_witness :
  let L := N.min (1 + 49) (len Example.branch) in
  L ≤ len Example.branch
  ∧ Node.verify_node_hash Keccak.keccak256 Example.branch Example.root
    = Some (bool_decide (Keccak.keccak256 Example.branch L = Example.root)).
Proof.
  destruct (verify_node_hash_hashes_encoding Keccak.keccak256 Example.branch Example.root)
    as [_ H]; [reflexivity|].
  apply (H (RLP_Header.new 1 49 Rlp.LIST)). reflexivity.
Defined.

Lemma small_lis_inv F input t :
  len input < 2 ^ 32 →
  Rlp.decode1_small_lis F input = Some t →
  ∃ hdr, Rlp.decode_len input = Some hdr
         ∧ RLP_Header.length hdr + RLP_Header.offset hdr ≤ len input
         ∧ dec_inv input (RLP_Header.offset hdr)
             (RLP_Header.length hdr + RLP_Header.offset hdr) F (N.of_nat F)
             (RLP_Header.length hdr + RLP_Header.offset hdr,
              RLP_List.num_fields t, RLP_List.offset t, RLP_List.length t,
              RLP_List.data_type t).
Proof.
  intros Hlen Hrun. apply small_lis_implies_decode1 in Hrun; [|exact Hlen].
  apply decode1_inv in Hrun as (hdr & H1 & _ & H2 & H3). by exists hdr.
Qed.

Lemma resolve2_value M node t key kp ty v vl kp' :
  Node.resolve2 M node t key kp = Some (ty, v, vl, kp') →
  RLP_List.num_fields t = 2
  ∧ (ty = 0 ∨ ty = 1)
  ∧ cast 32 vl ≤ cast 32 M
  ∧ ∃ off1, RLP_List.offset t !! 1%nat = Some off1
            ∧ RLP_List.length t !! 1%nat = Some vl
            ∧ v = take (N.to_nat M) (drop (N.to_nat off1) node)
            ∧ length v = N.to_nat M
            ∧ (N.to_nat M ≠ 0%nat → off1 + M ≤ len node).
Proof.
  intros Hrun. unfold Node.resolve2 in Hrun.
  apply bind_Some in Hrun as ([] & Hnf & Hrun). apply assert_Some, N.eqb_eq in Hnf.
  apply bind_Some in Hrun as (off0 & _ & Hrun).
  apply bind_Some in Hrun as (fs & _ & Hrun).
  apply bind_Some in Hrun as (len0 & _ & Hrun).
  apply bind_Some in Hrun as ([nib niblen] & _ & Hrun).
  apply bind_Some in Hrun as (room & _ & Hrun).
  apply bind_Some in Hrun as ([] & _ & Hrun).
  apply bind_Some in Hrun as ([] & _ & Hrun).
  apply bind_Some in Hrun as (vl' & Hvl & Hrun).
  apply bind_Some in Hrun as ([] & Hbound & Hrun). apply assert_Some, N.leb_le in Hbound.
  apply bind_Some in Hrun as (kp2 & _ & Hrun).
  apply bind_Some in Hrun as (off1 & Hoff1 & Hrun).
  apply bind_Some in Hrun as (e & _ & Hrun).
  apply bind_Some in Hrun as ([] & _ & Hrun).
  apply bind_Some in Hrun as (val & Hval & Hrun).
  apply bind_Some in Hrun as (fs0 & _ & Hrun).
  injection Hrun as <- <- <- <-.
  apply copy_loop_Some in Hval as (Hv & Hl & Hfit).
  split; [exact Hnf|]. split; [unfold b2n; destruct (1 <? _); auto|].
  split; [exact Hbound|].
  exists off1. split_and!; try assumption.
  intros Hne. specialize (Hfit Hne). lia.
Qed.

Lemma resolve17_value node t key kp h l kp' :
  Node.resolve17 node t key kp = Some (h, l, kp') →
  RLP_List.num_fields t = 17 ∧ l = 32 ∧ kp' = kp + 1
  ∧ ∃ nibble off,
      key !! N.to_nat kp = Some nibble
      ∧ RLP_List.offset t !! N.to_nat (bz nibble) = Some off
      ∧ RLP_List.length t !! N.to_nat (bz nibble) = Some 32
      ∧ h = take 32 (drop (N.to_nat off) node)
      ∧ length h = 32%nat
      ∧ off + 32 ≤ len node.
Proof.
  intros Hrun. unfold Node.resolve17 in Hrun.
  apply bind_Some in Hrun as ([] & Hnf & Hrun). apply assert_Some, N.eqb_eq in Hnf.
  apply bind_Some in Hrun as ([] & _ & Hrun).
  apply bind_Some in Hrun as (l16 & _ & Hrun).
  apply bind_Some in Hrun as ([] & _ & Hrun).
  apply bind_Some in Hrun as (nib & Hnib & Hrun).
  apply bind_Some in Hrun as (rl & Hrl & Hrun).
  apply bind_Some in Hrun as ([] & Hrl32 & Hrun). apply assert_Some, N.eqb_eq in Hrl32.
  apply bind_Some in Hrun as ([] & _ & Hrun).
  apply bind_Some in Hrun as (kp2 & Hkp & Hrun). apply wadd_Some in Hkp as [-> _].
  apply bind_Some in Hrun as (off & Hoff & Hrun).
  apply bind_Some in Hrun as (rk & Hrk & Hrun).
  injection Hrun as <- <- <-.
  apply copy_loop_Some in Hrk as (Hv & Hl & Hfit).
  change (N.to_nat KEY_LENGTH) with 32%nat in Hv, Hl, Hfit.
  specialize (Hfit ltac:(lia)). subst rl.
  split; [exact Hnf|]. split; [reflexivity|]. split; [reflexivity|].
  exists nib, off. split_and!; assumption.
Qed.

(** What [resolve_nibble32] hands on is always a 32-byte slice of the node.
    The node must decode, with [decode1_small_lis], into 17 or 2 fields.  A
    17-field node gives type [BRANCH], the 32-byte slot chosen by the key
    nibble at the cursor, and the cursor plus 1.  A 2-field node gives the 32
    bytes at the second field's offset; that field is at most 32 bytes long,
    and exactly 32 unless the node is a leaf: an extension holding a shorter,
    embedded child is rejected. *)
Theorem resolve_nibble32_reference (key : list byte) (key_ptr : N)
    (node : list byte) (ty : N) (h : list byte) (key_ptr' : N) :
  len node < 2 ^ 32 →
  Node.resolve_nibble32 key key_ptr node = Some (ty, h, key_ptr') →
  length h = 32%nat
  ∧ (ty = BRANCH ∨ ty = LEAF)
  ∧ ∃ t, Rlp.decode1_small_lis 17 node = Some t
    ∧ ((RLP_List.num_fields t = 17 ∧ ty = BRANCH ∧ key_ptr' = key_ptr + 1
        ∧ ∃ nibble off,
            key !! N.to_nat key_ptr = Some nibble
            ∧ RLP_List.offset t !! N.to_nat (bz nibble) = Some off
            ∧ RLP_List.length t !! N.to_nat (bz nibble) = Some 32
            ∧ h = take 32 (drop (N.to_nat off) node))
       ∨ (RLP_List.num_fields t = 2
          ∧ ∃ off1 l1,
              RLP_List.offset t !! 1%nat = Some off1
              ∧ RLP_List.length t !! 1%nat = Some l1
              ∧ l1 ≤ 32
              ∧ (ty = BRANCH → l1 = 32)
              ∧ off1 + 32 ≤ len node
              ∧ h = take 32 (drop (N.to_nat off1) node))).
Proof.
  intros Hlen Hrun. unfold Node.resolve_nibble32 in Hrun.
  apply bind_Some in Hrun as (t & Ht & Hrun).
  change (N.to_nat MAX_NUM_FIELDS) with 17%nat in Ht.
  destruct (RLP_List.num_fields t =? 2) eqn:Enf.
  - apply bind_Some in Hrun as ([[[ty' rk] rl] kp] & Hres & Hrun).
    apply bind_Some in Hrun as ([] & Hchk & Hrun). apply assert_Some in Hchk.
    injection Hrun as <- <- <-.
    apply resolve2_value in Hres
      as (Hnf & Hty & Hbound & off1 & Hoff1 & Hl1 & Hv & Hvl & Hfit).
    change (N.to_nat KEY_LENGTH) with 32%nat in Hv, Hvl, Hfit.
    specialize (Hfit ltac:(lia)). change KEY_LENGTH with 32 in Hfit, Hbound, Hchk.
    destruct (small_lis_inv _ _ _ Hlen Ht) as (hdr & _ & Hfit' & Hinv).
    assert (H1 : (1 < N.to_nat (RLP_List.num_fields t))%nat) by (rewrite Hnf; lia).
    destruct (lookup_lt_is_Some_2 (RLP_List.offset t) 1) as [o1 Eo1].
    { destruct Hinv as (Ho & _). lia. }
    destruct (dec_inv_field _ _ _ _ _ _ _ _ _ _ _ _ _ Hinv H1 Hoff1 Hl1) as (_ & _ & _ & Hend).
    change (2 ^ 32) with 4294967296 in Hlen.
    rewrite (cast_small 32 rl) in Hbound by (change (2 ^ 32) with 4294967296; lia).
    change (cast 32 32) with 32 in Hbound.
    split; [exact Hvl|]. split; [unfold BRANCH, LEAF; lia|].
    exists t. split; [exact Ht|]. right. split; [exact Hnf|].
    exists off1, rl. split_and!; try assumption.
    intros ->. apply orb_true_iff in Hchk as [Hc|Hc]; [discriminate Hc|].
    by apply N.eqb_eq in Hc.
  - apply bind_Some in Hrun as ([[[ty' rk] rl] kp] & Hres & Hrun).
    apply bind_Some in Hrun as ([] & Hchk & Hrun).
    injection Hrun as <- <- <-.
    apply bind_Some in Hres as (l16 & _ & Hres).
    apply bind_Some in Hres as ([] & _ & Hres).
    apply bind_Some in Hres as ([[rk' rl'] kp'] & Hres & Hout).
    injection Hout as <- <- <- <-.
    apply resolve17_value in Hres
      as (Hnf & -> & -> & nib & off & Hnib & Hoff & Hl & Hh & Hhl & Hfit).
    split; [exact Hhl|]. split; [by left|].
    exists t. split; [exact Ht|]. left. split_and!; try reflexivity; try assumption.
    by exists nib, off.
Qed.

Lemma resolve_nibble32_reference_witness :
  length Example.leaf_hash = 32%nat
  ∧ (0 = BRANCH ∨ 0 = LEAF)
  ∧ ∃ t, Rlp.decode1_small_lis 17 Example.branch = Some t
    ∧ ((RLP_List.num_fields t = 17 ∧ 0 = BRANCH ∧ 1 = 0 + 1
        ∧ ∃ nibble off,
            Example.key_nibbles !! N.to_nat 0 = Some nibble
            ∧ RLP_List.offset t !! N.to_nat (bz nibble) = Some off
            ∧ RLP_List.length t !! N.to_nat (bz nibble) = Some 32
            ∧ Example.leaf_hash = take 32 (drop (N.to_nat off) Example.branch))
       ∨ (RLP_List.num_fields t = 2
          ∧ ∃ off1 l1,
              RLP_List.offset t !! 1%nat = Some off1
              ∧ RLP_List.length t !! 1%nat = Some l1
              ∧ l1 ≤ 32
              ∧ (0 = BRANCH → l1 = 32)
              ∧ off1 + 32 ≤ len Example.branch
              ∧ Example.leaf_hash = take 32 (drop (N.to_nat off1) Example.branch))).
Proof.
  apply (resolve_nibble32_reference Example.key_nibbles 0 Example.branch 0
           Example.leaf_hash 1).
  - reflexivity.
  - vm_compute. reflexivity.
Defined.

(** ** The proof drivers: what a successful verification establishes *)












(** ** templates/template.main.nr *)

Lemma be_read_snoc l x : be_read (l ++ [x]) = 256 * be_read l + bz x.
Proof.
  rewrite be_read_app. unfold len. simpl length. change (256 ^ N.of_nat 1) with 256.
  unfold be_read at 2. simpl. lia.
Qed.

Lemma be_read_take_S l j x :
  l !! j = Some x → be_read (take (S j) l) = 256 * be_read (take j l) + bz x.
Proof. intros Hx. rewrite (take_S_r _ _ _ Hx). apply be_read_snoc. Qed.

Lemma be_read_drop_S l j x :
  l !! j = Some x →
  be_read (drop j l) = bz x * 256 ^ N.of_nat (length l - S j) + be_read (drop (S j) l).
Proof.
  intros Hx. rewrite (drop_S _ _ _ Hx), be_read_cons.
  unfold len. by rewrite length_drop.
Qed.

Lemma all_zero_iff l : lead_zeros l = length l ↔ l = replicate (length l) x00.
Proof.
  induction l as [|x l IH]; [done|]. simpl.
  destruct (N.eqb_spec (bz x) 0) as [E|E].
  - rewrite Nat.succ_inj_wd, IH. split.
    + intros <-. f_equal. apply bz_inj. by rewrite bz_x00.
    + intros [= _ H]. exact H.
  - split; [lia|]. intros [= -> _]. by rewrite bz_x00 in E.
Qed.

(** The carry loop adds two 32-byte big-endian numbers modulo [2^256]. *)
Lemma computed_key_sum (array_slot padded_array_index : list byte) :
  length array_slot = 32%nat → length padded_array_index = 32%nat →
  ∃ key, Main.computed_key array_slot padded_array_index = Some key
         ∧ length key = 32%nat
         ∧ be_read key
           = (be_read array_slot + be_read padded_array_index) mod 2 ^ 256.
Proof.
  intros Ha Hb. unfold Main.computed_key.
  match goal with |- context [for_loop 32 0 ?body ?init] =>
    destruct (for_loop_total
      (λ j (st : list byte * N),
         length st.1 = 32%nat ∧ st.2 ≤ 1
         ∧ be_read (drop (32 - N.to_nat j) st.1) + st.2 * 256 ^ j
           = be_read (drop (32 - N.to_nat j) array_slot)
             + be_read (drop (32 - N.to_nat j) padded_array_index))
      32 0 body init) as ([key carry] & Hrun & Hl & Hc & Hsum)
  end.
  - split; [reflexivity|]. split; [simpl; lia|].
    change (32 - N.to_nat 0)%nat with 32%nat.
    rewrite !drop_ge by (rewrite ?length_replicate; simpl; lia). reflexivity.
  - intros j [key carry] Hj (Hl & Hc & Hsum). simpl in Hl, Hc, Hsum.
    replace (wsub 31 j) with (Some (31 - j)) by (symmetry; apply wsub_Some; lia).
    cbn [mbind option_bind].
    destruct (lookup_lt_is_Some_2 array_slot (N.to_nat (31 - j))) as [a Ea]; [lia|].
    destruct (lookup_lt_is_Some_2 padded_array_index (N.to_nat (31 - j))) as [b Eb]; [lia|].
    unfold get. rewrite Ea, Eb. cbn [mbind option_bind].
    pose proof (bz_range a). pose proof (bz_range b).
    replace (wadd 32 (bz a) (bz b)) with (Some (bz a + bz b))
      by (symmetry; apply wadd_Some; change (2 ^ 32) with 4294967296; lia).
    cbn [mbind option_bind].
    replace (wadd 32 (bz a + bz b) carry) with (Some (bz a + bz b + carry))
      by (symmetry; apply wadd_Some; change (2 ^ 32) with 4294967296; lia).
    cbn [mbind option_bind].
    set (sum := bz a + bz b + carry).
    eexists. split.
    { unfold set. replace (31 - j <? len key) with true
        by (symmetry; apply N.ltb_lt; unfold len; lia).
      reflexivity. }
    simpl. split; [by rewrite length_insert|]. split; [subst sum; lia|].
    replace (32 - N.to_nat (N.succ j))%nat with (N.to_nat (31 - j)) by lia.
    replace (32 - N.to_nat j)%nat with (S (N.to_nat (31 - j))) in Hsum by lia.
    rewrite (be_read_drop_S _ _ a Ea), (be_read_drop_S _ _ b Eb).
    rewrite (be_read_drop_S _ (N.to_nat (31 - j)) (zb (cast 8 (sum mod 256))))
      by (apply list_lookup_insert_eq; lia).
    rewrite drop_insert_lt by lia.
    rewrite length_insert, Hl, Ha, Hb.
    replace (N.of_nat (32 - S (N.to_nat (31 - j)))) with j by lia.
    rewrite N.pow_succ_r'.
    rewrite bz_zb by (unfold cast; change (2 ^ 8) with 256; lia).
    rewrite cast_small by (change (2 ^ 8) with 256; lia).
    assert (Hs : sum = 256 * (sum / 256) + sum mod 256) by lia.
    set (P := 256 ^ j) in *. set (q := sum / 256) in *. set (r := sum mod 256) in *.
    assert (r * P + q * (256 * P) = sum * P) by (rewrite Hs; lia).
    subst sum. nia.
  - rewrite Hrun. cbn [mbind option_bind]. exists key.
    simpl in Hl, Hc, Hsum. change (32 - N.to_nat (0 + N.of_nat 32))%nat with 0%nat in Hsum.
    rewrite !drop_0 in Hsum. change (256 ^ (0 + N.of_nat 32)) with (2 ^ 256) in Hsum.
    split; [reflexivity|]. split; [exact Hl|].
    pose proof (be_read_bound key) as Hk. unfold len in Hk. rewrite Hl in Hk.
    change (256 ^ N.of_nat 32) with (2 ^ 256) in Hk.
    rewrite <- Hsum. remember (2 ^ 256) as M eqn:EM.
    destruct (decide (carry = 0)) as [->|Hne].
    + apply (N.mod_unique _ _ 0); [exact Hk | lia].
    + replace carry with 1 by lia.
      apply (N.mod_unique _ _ 1); [exact Hk | lia].
Qed.

Lemma votes_loop (value threshold : list byte) :
  (28 ≤ length value)%nat → (28 ≤ length threshold)%nat →
  Main.voting_power_gte_threshold value threshold
  = Some (be_read (take 28 threshold) <=? be_read (take 28 value)).
Proof.
  intros Hv Ht. unfold Main.voting_power_gte_threshold.
  match goal with |- context [for_loop 28 0 ?body ?init] =>
    destruct (for_loop_total
      (λ j (st : bool * bool),
         let V := be_read (take (N.to_nat j) value) in
         let T := be_read (take (N.to_nat j) threshold) in
         if st.1 then V = T ∧ st.2 = true
         else if st.2 then T < V else V < T)
      28 0 body init) as ([eq gte] & Hrun & Hinv)
  end.
  - simpl. split; reflexivity.
  - intros j [eq gte] Hj Hinv. cbv zeta in Hinv. simpl fst in Hinv. simpl snd in Hinv.
    destruct (lookup_lt_is_Some_2 value (N.to_nat j)) as [v Ev]; [lia|].
    destruct (lookup_lt_is_Some_2 threshold (N.to_nat j)) as [t Et]; [lia|].
    pose proof (bz_range v). pose proof (bz_range t).
    cbv zeta. replace (N.to_nat (N.succ j)) with (S (N.to_nat j)) by lia.
    rewrite (be_read_take_S _ _ _ Ev), (be_read_take_S _ _ _ Et).
    destruct eq.
    + destruct Hinv as [HVT ->]. unfold get. rewrite Ev, Et. cbn [mbind option_bind].
      destruct (N.ltb_spec (bz t) (bz v)).
      * eexists. split; [reflexivity|]. simpl. lia.
      * destruct (N.ltb_spec (bz v) (bz t)).
        -- eexists. split; [reflexivity|]. simpl. lia.
        -- eexists. split; [reflexivity|]. simpl. split; [lia|reflexivity].
    + eexists. split; [reflexivity|]. simpl. destruct gte; lia.
  - rewrite Hrun. cbn [mbind option_bind]. f_equal.
    cbv zeta in Hinv. simpl fst in Hinv. simpl snd in Hinv.
    change (N.to_nat (0 + N.of_nat 28)) with 28%nat in Hinv.
    destruct eq.
    + destruct Hinv as [-> ->]. symmetry. apply N.leb_le. lia.
    + destruct gte; symmetry; [apply N.leb_le | apply N.leb_gt]; lia.
Qed.

Lemma index_check_iff (idx : list byte) :
  (28 ≤ length idx)%nat →
  Main.index_check idx = Some () ↔ take 28 idx = replicate 28 x00.
Proof.
  intros Hl. unfold Main.index_check. split.
  - intros Hrun.
    pose proof (for_loop_inv
      (λ j (_ : unit), ∀ i, i < j → idx !! N.to_nat i = Some x00)
      _ _ _ _ _ Hrun) as Hinv.
    cbv beta in Hinv.
    assert (Hall : ∀ i, i < 0 + N.of_nat 28 → idx !! N.to_nat i = Some x00).
    { apply Hinv; [intros i Hi; lia|].
      intros j [] [] Hj IH Hbody i Hi.
      destruct (decide (i = j)) as [->|Hne]; [|apply IH; lia].
      apply bind_Some in Hbody as (x & Hx & Hz).
      apply assert_Some, N.eqb_eq in Hz. unfold get in Hx. rewrite Hx. f_equal.
      apply bz_inj. by rewrite bz_x00. }
    apply list_eq. intros i. destruct (decide (i < 28)%nat) as [Hi|Hi].
    + rewrite lookup_take_lt by exact Hi. rewrite lookup_replicate_2 by exact Hi.
      rewrite <- (Nat2N.id i). apply Hall. lia.
    + rewrite !lookup_ge_None_2;
        [reflexivity | rewrite length_replicate; lia | rewrite length_take; lia].
  - intros Hz.
    destruct (for_loop_total (λ _ (_ : unit), True) 28 0
                (λ i _, x ← get idx i; assert (bz x =? 0)) ())
      as ([] & Hrun & _); [exact I| |exact Hrun].
    intros j [] Hj _. exists (). split; [|exact I].
    assert (Hx : idx !! N.to_nat j = Some x00).
    { rewrite <- (lookup_take_lt idx 28) by lia. rewrite Hz.
      apply lookup_replicate_2. lia. }
    unfold get. rewrite Hx. reflexivity.
Qed.

Lemma index_small_iff (idx : list byte) :
  length idx = 32%nat →
  take 28 idx = replicate 28 x00 ↔ be_read idx < 2 ^ 32.
Proof.
  intros Hl. rewrite <- (take_drop 28 idx) at 2. rewrite be_read_app.
  assert (Hd : len (drop 28 idx) = 4) by (unfold len; rewrite length_drop, Hl; reflexivity).
  rewrite Hd. change (256 ^ 4) with 4294967296. change (2 ^ 32) with 4294967296.
  pose proof (be_read_bound (drop 28 idx)) as Hb. rewrite Hd in Hb.
  change (256 ^ 4) with 4294967296 in Hb.
  assert (Ht : length (take 28 idx) = 28%nat) by (rewrite length_take; lia).
  pose proof (be_read_zero_iff (take 28 idx)) as Hz.
  pose proof (all_zero_iff (take 28 idx)) as Ha. rewrite Ht in Hz, Ha.
  split.
  - intros E. apply Ha, Hz in E. lia.
  - intros Hs. apply Ha, Hz. lia.
Qed.

Lemma shifted_fill {A} (rd : N → option A) (g : nat → A) n :
  ∀ i0 sh (init : list A),
  (i0 + n + sh ≤ length init)%nat →
  (∀ m, (i0 ≤ m < i0 + n)%nat → rd (N.of_nat m) = Some (g m)) →
  for_loop n (N.of_nat i0) (λ i a, x ← rd i; set a (i + N.of_nat sh) x) init
  = Some (take (i0 + sh) init ++ (g <$> seq i0 n) ++ drop (i0 + sh + n) init).
Proof.
  induction n as [|n IH]; intros i0 sh init Hfit Hrd.
  - simpl. rewrite Nat.add_0_r. by rewrite take_drop.
  - cbn [for_loop]. rewrite (Hrd i0) by lia. cbn [mbind option_bind].
    assert (Hb : set init (N.of_nat i0 + N.of_nat sh) (g i0)
                 = Some (<[(i0 + sh)%nat := g i0]> init)).
    { apply set_Some. split; [f_equal; lia | unfold len; lia]. }
    rewrite Hb. cbn [mbind option_bind].
    replace (N.succ (N.of_nat i0)) with (N.of_nat (S i0)) by lia.
    rewrite IH; [|rewrite length_insert; lia|intros m Hm; apply Hrd; lia].
    f_equal.
    replace (S i0 + sh)%nat with (S (i0 + sh)) by lia.
    rewrite (take_S_r _ _ (g i0)) by (apply list_lookup_insert_eq; lia).
    rewrite take_insert_ge by lia.
    rewrite drop_insert_lt by lia.
    replace (S (i0 + sh) + n)%nat with (i0 + sh + S n)%nat by lia.
    cbn [seq fmap list_fmap]. by rewrite <- app_assoc.
Qed.

Lemma seq_lookup_list {A} (d : A) (l : list A) i0 n :
  (i0 + n ≤ length l)%nat →
  (λ m, default d (l !! m)) <$> seq i0 n = take n (drop i0 l).
Proof.
  intros Hfit. apply list_eq. intros k.
  rewrite list_lookup_fmap.
  destruct (decide (k < n)%nat) as [Hk|Hk].
  - rewrite lookup_seq_lt by exact Hk. simpl.
    rewrite lookup_take_lt by exact Hk. rewrite lookup_drop.
    destruct (lookup_lt_is_Some_2 l (i0 + k)) as [x Hx]; [lia|]. by rewrite Hx.
  - rewrite lookup_seq_ge by lia. simpl. symmetry. apply lookup_ge_None_2.
    rewrite length_take. lia.
Qed.

Lemma pub_key_xy_eq (public_key : list byte) :
  length public_key = 64%nat →
  Main.pub_key_xy public_key = Some (take 32 public_key, drop 32 public_key).
Proof.
  intros Hl. unfold Main.pub_key_xy.
  pose proof (shifted_fill (get public_key) (λ m, default x00 (public_key !! m))
                32 0 0 (replicate 32 x00)) as Hx.
  change (N.of_nat 0) with 0 in Hx.
  rewrite (for_loop_ext 32 0 (λ i a, x ← get public_key i; set a i x)
             (λ i a, x ← get public_key i; set a (i + 0) x)).
  2:{ intros j t _. destruct (get public_key j); [|reflexivity].
      cbn [mbind option_bind]. by rewrite N.add_0_r. }
  rewrite Hx; [|rewrite length_replicate; lia|].
  2:{ intros m Hm. unfold get. rewrite Nat2N.id.
      destruct (lookup_lt_is_Some_2 public_key m) as [x E]; [lia|]. by rewrite E. }
  cbn [mbind option_bind].
  pose proof (shifted_fill (λ i, j ← wadd 32 i 32; get public_key j)
                (λ m, default x00 (public_key !! (m + 32)%nat))
                32 0 0 (replicate 32 x00)) as Hy.
  change (N.of_nat 0) with 0 in Hy.
  rewrite (for_loop_ext 32 0 (λ i a, j ← wadd 32 i 32; x ← get public_key j; set a i x)
             (λ i a, x ← (j ← wadd 32 i 32; get public_key j); set a (i + 0) x)).
  2:{ intros j t _.
      destruct (wadd 32 j 32) as [k|]; [|reflexivity]. cbn [mbind option_bind].
      destruct (get public_key k); [|reflexivity].
      cbn [mbind option_bind]. by rewrite N.add_0_r. }
  rewrite Hy; [|rewrite length_replicate; lia|].
  2:{ intros m Hm.
      replace (wadd 32 (N.of_nat m) 32) with (Some (N.of_nat m + 32))
        by (symmetry; apply wadd_Some; change (2 ^ 32) with 4294967296; lia).
      cbn [mbind option_bind]. unfold get.
      replace (N.to_nat (N.of_nat m + 32)) with (m + 32)%nat by lia.
      destruct (lookup_lt_is_Some_2 public_key (m + 32)) as [x E]; [lia|]. by rewrite E. }
  cbn [mbind option_bind]. do 2 f_equal.
  - change (take (0 + 0) (replicate 32 x00)) with (@nil byte).
    change (drop (0 + 0 + 32) (replicate 32 x00)) with (@nil byte).
    rewrite app_nil_l, app_nil_r.
    rewrite (seq_lookup_list x00 public_key 0 32) by lia. by rewrite drop_0.
  - change (take (0 + 0) (replicate 32 x00)) with (@nil byte).
    change (drop (0 + 0 + 32) (replicate 32 x00)) with (@nil byte).
    rewrite app_nil_l, app_nil_r.
    apply list_eq. intros k. rewrite list_lookup_fmap, lookup_drop.
    destruct (decide (k < 32)%nat) as [Hk|Hk].
    + rewrite lookup_seq_lt by exact Hk. simpl.
      destruct (lookup_lt_is_Some_2 public_key (k + 32)) as [x E]; [lia|].
      rewrite E. simpl. rewrite <- E. f_equal. lia.
    + rewrite lookup_seq_ge by lia. simpl. symmetry. apply lookup_ge_None_2. lia.
Qed.

Lemma padded_account_address_eq keccak256 (public_key : list byte) :
  length (keccak256 public_key 64) = 32%nat →
  Main.padded_account_address keccak256 public_key
  = Some (replicate 12 x00 ++ drop 12 (keccak256 public_key 64)).
Proof.
  intros Hl. unfold Main.padded_account_address. cbv zeta.
  set (h := keccak256 public_key 64) in *.
  pose proof (shifted_fill (get h) (λ m, default x00 (h !! m))
                20 12 0 (replicate 32 x00)) as Hx.
  change (N.of_nat 0) with 0 in Hx. change (N.of_nat 12) with 12 in Hx.
  rewrite (for_loop_ext 20 12 (λ i a, x ← get h i; set a i x)
             (λ i a, x ← get h i; set a (i + 0) x)).
  2:{ intros j t _. destruct (get h j); [|reflexivity].
      cbn [mbind option_bind]. by rewrite N.add_0_r. }
  rewrite Hx; [|rewrite length_replicate; lia|].
  2:{ intros m Hm. unfold get. rewrite Nat2N.id.
      destruct (lookup_lt_is_Some_2 h m) as [x E]; [lia|]. by rewrite E. }
  f_equal.
  change (take (12 + 0) (replicate 32 x00)) with (replicate 12 x00).
  change (drop (12 + 0 + 20) (replicate 32 x00)) with (@nil byte).
  rewrite app_nil_r. f_equal.
  rewrite (seq_lookup_list x00 h 12 20) by lia.
  apply take_ge. rewrite length_drop. lia.
Qed.

Lemma array_slot_eq keccak256 (addr slot : list byte) :
  length addr = 32%nat → length slot = 32%nat →
  Main.array_slot keccak256 addr slot
  = Some (keccak256 (keccak256 (addr ++ slot) 64) 32).
Proof.
  intros Ha Hs. unfold Main.array_slot.
  pose proof (shifted_fill (get addr) (λ m, default x00 (addr !! m))
                32 0 0 (replicate 64 x00)) as Hx.
  change (N.of_nat 0) with 0 in Hx.
  rewrite (for_loop_ext 32 0 (λ i a, x ← get addr i; set a i x)
             (λ i a, x ← get addr i; set a (i + 0) x)).
  2:{ intros j t _. destruct (get addr j); [|reflexivity].
      cbn [mbind option_bind]. by rewrite N.add_0_r. }
  rewrite Hx; [|rewrite length_replicate; lia|].
  2:{ intros m Hm. unfold get. rewrite Nat2N.id.
      destruct (lookup_lt_is_Some_2 addr m) as [x E]; [lia|]. by rewrite E. }
  cbn [mbind option_bind].
  rewrite (seq_lookup_list x00 addr 0 32) by lia.
  rewrite drop_0, (take_ge addr) by lia.
  change (take (0 + 0) (replicate 64 x00)) with (@nil byte).
  change (drop (0 + 0 + 32) (replicate 64 x00)) with (replicate 32 x00).
  rewrite app_nil_l.
  pose proof (shifted_fill (get slot) (λ m, default x00 (slot !! m))
                32 0 32 (addr ++ replicate 32 x00)) as Hy.
  change (N.of_nat 0) with 0 in Hy. change (N.of_nat 32) with 32 in Hy.
  rewrite (for_loop_ext 32 0 (λ i a, x ← get slot i; j ← wadd 32 i 32; set a j x)
             (λ i a, x ← get slot i; set a (i + 32) x)).
  2:{ intros j t Hj.
      destruct (get slot j) as [x|]; [|reflexivity]. cbn [mbind option_bind].
      replace (wadd 32 j 32) with (Some (j + 32))
        by (symmetry; apply wadd_Some; change (2 ^ 32) with 4294967296; lia).
      reflexivity. }
  rewrite Hy; [|rewrite length_app, length_replicate; lia|].
  2:{ intros m Hm. unfold get. rewrite Nat2N.id.
      destruct (lookup_lt_is_Some_2 slot m) as [x E]; [lia|]. by rewrite E. }
  cbn [mbind option_bind]. cbv zeta. do 3 f_equal.
  rewrite (seq_lookup_list x00 slot 0 32) by lia.
  rewrite drop_0, (take_ge slot) by lia.
  rewrite take_app_length' by (simpl; lia).
  rewrite drop_ge by (rewrite length_app, length_replicate; lia).
  by rewrite app_nil_r.
Qed.

Lemma keccak_f_length st : length (Keccak.keccak_f st) = 25%nat.
Proof.
  unfold Keccak.keccak_f.
  assert (Hstep : ∀ rc s, length (Keccak.iota rc (Keccak.chi (Keccak.rho_pi (Keccak.theta s))))
                          = 25%nat).
  { intros rc s. unfold Keccak.iota.
    assert (Hc : length (Keccak.chi (Keccak.rho_pi (Keccak.theta s))) = 25%nat).
    { unfold Keccak.chi. rewrite length_imap. unfold Keccak.rho_pi.
      by rewrite length_fmap, length_seq. }
    destruct (Keccak.chi _); [discriminate Hc | exact Hc]. }
  assert (HA : ∀ l s, length s = 25%nat →
            length (foldl (λ st rc, Keccak.iota rc
                             (Keccak.chi (Keccak.rho_pi (Keccak.theta st)))) s l)
            = 25%nat).
  { induction l as [|rc l IH]; intros s Hs; [exact Hs|]. apply IH, Hstep. }
  unfold Keccak.round_constants.
  match goal with |- length (foldl ?f st (?rc :: ?l)) = _ =>
    change (length (foldl f (f st rc) l) = 25%nat)
  end.
  apply HA, Hstep.
Qed.

Lemma absorb_length fuel st bs :
  length st = 25%nat → length (Keccak.absorb fuel st bs) = 25%nat.
Proof.
  revert st bs. induction fuel as [|fuel IH]; intros st bs Hst; [exact Hst|].
  simpl. destruct bs; [exact Hst|]. apply IH, keccak_f_length.
Qed.

Lemma keccak256_length input n : length (Keccak.keccak256 input n) = 32%nat.
Proof.
  unfold Keccak.keccak256, Keccak.digest. rewrite length_fmap. cbv zeta.
  match goal with |- context [Keccak.absorb ?f ?s ?b] =>
    pose proof (absorb_length f s b eq_refl) as Hl;
    destruct (Keccak.absorb f s b) as [|a [|b' [|c [|d rest]]]]; try discriminate Hl
  end.
  reflexivity.
Qed.

(** The key [main] derives is the storage slot of element
    [padded_array_index] of the array kept, under the account's address, in
    the mapping at [padded_mapping_slot]: with [H = keccak256], the address
    is the last 20 bytes of [H(public_key)], padded on the left to 32 bytes;
    the array starts at [H(H(address ++ padded_mapping_slot))]; and the key is
    that number plus the index, modulo [2^256].  The three steps never fail
    on arrays of the declared lengths. *)
Theorem storage_key_derivation (keccak256 : list byte → N → list byte)
    (public_key padded_mapping_slot padded_array_index : list byte) :
  (∀ m n, length (keccak256 m n) = 32%nat) →
  length padded_mapping_slot = 32%nat →
  length padded_array_index = 32%nat →
  let address := replicate 12 x00 ++ drop 12 (keccak256 public_key 64) in
  let base := keccak256 (keccak256 (address ++ padded_mapping_slot) 64) 32 in
  ∃ key,
    (a ← Main.padded_account_address keccak256 public_key;
     s ← Main.array_slot keccak256 a padded_mapping_slot;
     Main.computed_key s padded_array_index) = Some key
    ∧ length key = 32%nat
    ∧ be_read key = (be_read base + be_read padded_array_index) mod 2 ^ 256.
Proof.
  intros Hk Hs Hi address base.
  rewrite padded_account_address_eq by apply Hk. cbn [mbind option_bind].
  fold address.
  assert (Ha : length address = 32%nat).
  { subst address. rewrite length_app, length_replicate, length_drop, Hk. reflexivity. }
  rewrite array_slot_eq by assumption. cbn [mbind option_bind]. fold base.
  apply computed_key_sum; [apply Hk | exact Hi].
Qed.

Lemma storage_key_derivation_witness :
  let address := replicate 12 x00
                 ++ drop 12 (Keccak.keccak256 (replicate 64 (zb 1)) 64) in
  let base := Keccak.keccak256
                (Keccak.keccak256 (address ++ replicate 32 x00) 64) 32 in
  ∃ key,
    (a ← Main.padded_account_address Keccak.keccak256 (replicate 64 (zb 1));
     s ← Main.array_slot Keccak.keccak256 a (replicate 32 x00);
     Main.computed_key s (replicate 31 x00 ++ bytes [3])) = Some key
    ∧ length key = 32%nat
    ∧ be_read key
      = (be_read base + be_read (replicate 31 x00 ++ bytes [3])) mod 2 ^ 256.
Proof.
  apply (storage_key_derivation Keccak.keccak256 (replicate 64 (zb 1))
           (replicate 32 x00) (replicate 31 x00 ++ bytes [3])).
  - apply keccak256_length.
  - reflexivity.
  - reflexivity.
Defined.

(** [main] accepts exactly when the signature verifies for the two halves of
    the public key, the array index is below [2^32], and the first 28 bytes
    of [value], read as a number, are at least the first 28 bytes of the
    threshold.  Nothing else enters: the storage proof, the storage root, the
    mapping slot and the depth are not checked, the call of
    [verify_storage_root] being commented out in the source. *)
Theorem main_accepts_iff (keccak256 : list byte → N → list byte)
    (verify_signature : list byte → list byte → list byte → list byte → bool)
    (depth : N)
    (storage_proof value storage_root padded_mapping_slot padded_array_index
     public_key message_hash signature voting_power_threshold : list byte) :
  (∀ m n, length (keccak256 m n) = 32%nat) →
  length public_key = 64%nat →
  length padded_mapping_slot = 32%nat →
  length padded_array_index = 32%nat →
  length value = 32%nat →
  length voting_power_threshold = 32%nat →
  Main.main keccak256 verify_signature depth storage_proof value storage_root
    padded_mapping_slot padded_array_index public_key message_hash signature
    voting_power_threshold = Some ()
  ↔ verify_signature (take 32 public_key) (drop 32 public_key) signature
      message_hash = true
    ∧ be_read padded_array_index < 2 ^ 32
    ∧ be_read (take 28 voting_power_threshold) ≤ be_read (take 28 value).
Proof.
  intros Hk Hpk Hs Hi Hv Ht. unfold Main.main.
  rewrite pub_key_xy_eq by exact Hpk. cbn [mbind option_bind]. cbv zeta.
  rewrite <- (index_small_iff padded_array_index Hi).
  pose proof (index_check_iff padded_array_index ltac:(lia)) as Hidx.
  destruct (verify_signature _ _ signature message_hash);
    [|split; [discriminate | intros [E _]; discriminate E]].
  simpl assert. cbn [mbind option_bind].
  destruct (Main.index_check padded_array_index) as [[]|].
  2:{ split; [discriminate|]. intros (_ & E & _). apply Hidx in E. discriminate E. }
  cbn [mbind option_bind].
  rewrite padded_account_address_eq by apply Hk. cbn [mbind option_bind].
  rewrite array_slot_eq; [|rewrite length_app, length_replicate, length_drop, Hk; reflexivity
                          |exact Hs].
  cbn [mbind option_bind].
  match goal with |- context [Main.computed_key ?s padded_array_index] =>
    destruct (computed_key_sum s padded_array_index (Hk _ _) Hi) as (key & -> & _)
  end.
  cbn [mbind option_bind].
  rewrite votes_loop by lia. cbn [mbind option_bind].
  destruct (N.leb_spec (be_read (take 28 voting_power_threshold)) (be_read (take 28 value))).
  - split; [|reflexivity]. intros _. split_and!; [reflexivity | by apply Hidx | assumption].
  - split; [discriminate|]. intros (_ & _ & Hle). lia.
Qed.

Lemma main_accepts_iff_witness :
  Main.main Keccak.keccak256 (λ _ _ _ _, true) 2 (Example.branch ++ Example.leaf)
    (replicate 31 x00 ++ bytes [5]) Example.root (replicate 32 x00)
    (replicate 31 x00 ++ bytes [3]) (replicate 64 (zb 1)) (replicate 32 x00)
    (replicate 64 x00) (replicate 31 x00 ++ bytes [5]) = Some ()
  ↔ true = true
    ∧ be_read (replicate 31 x00 ++ bytes [3]) < 2 ^ 32
    ∧ be_read (take 28 (replicate 31 x00 ++ bytes [5]))
      ≤ be_read (take 28 (replicate 31 x00 ++ bytes [5])).
Proof.
  apply (main_accepts_iff Keccak.keccak256 (λ _ _ _ _, true) 2
           (Example.branch ++ Example.leaf) (replicate 31 x00 ++ bytes [5])
           Example.root (replicate 32 x00) (replicate 31 x00 ++ bytes [3])
           (replicate 64 (zb 1)) (replicate 32 x00) (replicate 64 x00)
           (replicate 31 x00 ++ bytes [5])).
  - apply keccak256_length.
  - reflexivity.
  - reflexivity.
  - reflexivity.
  - reflexivity.
  - reflexivity.
Defined.

(** ** Spare windows *)

Lemma masked_step_resolves keccak256 kn path depth i (a b : list byte * N) :
  depth - 1 ≤ i → i ≤ 255 →
  Proof.internal_step keccak256 kn path depth i a = Some b →
  ∃ ty h kp, Node.resolve_nibble32 kn 0 (window path 0) = Some (ty, h, kp).
Proof.
  intros Hout Hcur Hrun. unfold Proof.internal_step, Node.verify_internal_node in Hrun.
  apply bind_Some in Hrun as (d1 & Hd1 & Hrun). apply wsub_Some in Hd1 as [-> Hd].
  cbv zeta in Hrun.
  replace (cast 8 i <? cast 8 (depth - 1)) with false in Hrun
    by (symmetry; apply N.ltb_ge;
        rewrite !cast_small by (change (2 ^ 8) with 256; lia); exact Hout).
  apply bind_Some in Hrun as (off & Hoff & Hrun).
  change (wmul 64 0 MAX_TRIE_NODE_LENGTH) with (Some 0) in Hoff. injection Hoff as <-.
  apply bind_Some in Hrun as (node & Hnode & Hrun).
  apply memcpy_Some in Hnode as (Hnode & _ & _).
  rewrite length_replicate in Hnode.
  change (take (N.to_nat MAX_TRIE_NODE_LENGTH) (drop (N.to_nat (cast 32 0)) path))
    with (window path 0) in Hnode. subst node.
  apply bind_Some in Hrun as (ok & _ & Hrun).
  apply bind_Some in Hrun as ([] & _ & Hrun).
  apply bind_Some in Hrun as ([[ty rk] kp] & Hres & _).
  by exists ty, rk, kp.
Qed.

Lemma spare_window_step keccak256 kn path depth n st0 st :
  1 ≤ depth → depth ≤ 256 → (n ≤ 256)%nat → depth - 1 < N.of_nat n →
  for_loop n 0 (Proof.internal_step keccak256 kn path depth) st0 = Some st →
  ∃ ty h kp, Node.resolve_nibble32 kn 0 (window path 0) = Some (ty, h, kp).
Proof.
  intros Hd1 Hd Hn Hspare Hrun.
  destruct (for_trace_spec _ _ _ _ _ Hrun) as (Hl & _ & _ & Hstep).
  set (T := for_trace n 0 (Proof.internal_step keccak256 kn path depth) st0) in *.
  destruct (lookup_lt_is_Some_2 T (N.to_nat (depth - 1))) as [a Ha]; [lia|].
  destruct (lookup_lt_is_Some_2 T (S (N.to_nat (depth - 1)))) as [b Hb]; [lia|].
  pose proof (Hstep _ a b Ha Hb) as Hs. rewrite N.add_0_l in Hs.
  apply masked_step_resolves in Hs; [exact Hs|lia|lia].
Qed.

(** Spare windows are not free.  When the proof array holds more windows
    than [depth], the iterations past the depth still resolve window 0 at
    cursor 0, so a verification succeeds only if that resolution does: for
    [depth = 1] the leaf itself has to pass [resolve_nibble32], which caps
    its second field at 32 bytes, although the leaf check allows 33. *)
Theorem spare_windows_resolve_window_zero (keccak256 : list byte → N → list byte)
    (MAX_ACCOUNT_STATE_LENGTH : N) (p : TrieProof.t) (root : list byte) :
  TrieProof.depth p ≤ 256 →
  len (TrieProof.proof p) ≤ 257 * 532 →
  TrieProof.depth p < len (TrieProof.proof p) / 532 →
  (Proof.verify_storage_root keccak256 p root = Some true →
   ∃ ty h kp,
     Node.resolve_nibble32 (flat_nibbles (keccak256 (TrieProof.key p) 32)) 0
       (window (TrieProof.proof p) 0) = Some (ty, h, kp))
  ∧ (Proof.verify_state_root keccak256 MAX_ACCOUNT_STATE_LENGTH p root = Some true →
     ∃ ty h kp,
       Node.resolve_nibble32 (flat_nibbles (keccak256 (TrieProof.key p) 20)) 0
         (window (TrieProof.proof p) 0) = Some (ty, h, kp)).
Proof.
  intros Hd Hp Hspare.
  assert (Hflat : ∀ key kn, Node.key_as_nibbles NIBBLE_LENGTH key = Some kn →
                            kn = flat_nibbles key).
  { intros key kn Hkn. pose proof (key_as_nibbles_len _ _ _ Hkn) as Hk.
    unfold NIBBLE_LENGTH in Hk.
    pose proof (key_as_nibbles_flat key) as Hf.
    replace (2 * len key) with NIBBLE_LENGTH in Hf by (unfold NIBBLE_LENGTH; lia).
    rewrite Hf in Hkn by (change (2 ^ 31) with 2147483648; lia). congruence. }
  split; intros Hrun.
  - unfold Proof.verify_storage_root in Hrun. cbv zeta in Hrun.
    apply bind_Some in Hrun as ([] & _ & Hrun).
    apply bind_Some in Hrun as (kn & Hkn & Hrun).
    apply bind_Some in Hrun as (n & Hn & Hrun). apply wsub_Some in Hn as [-> Hn].
    apply bind_Some in Hrun as ([h kp] & Hloop & Hrun).
    apply bind_Some in Hrun as ([] & Hleaf & _).
    unfold Proof.verify_storage_leaf_node in Hleaf.
    apply bind_Some in Hleaf as ([v vl] & _ & Hleaf).
    apply bind_Some in Hleaf as (d1 & Hd1 & _). apply wsub_Some in Hd1 as [_ Hd1].
    rewrite <- (Hflat _ _ Hkn). unfold MAX_TRIE_NODE_LENGTH in *.
    eapply (spare_window_step keccak256 kn _ _ _ (root, 0) (h, kp) Hd1 Hd);
      [| |exact Hloop]; lia.
  - unfold Proof.verify_state_root in Hrun. cbv zeta in Hrun.
    apply bind_Some in Hrun as ([] & _ & Hrun).
    apply bind_Some in Hrun as (kn & Hkn & Hrun).
    apply bind_Some in Hrun as (n & Hn & Hrun). apply wsub_Some in Hn as [-> Hn].
    apply bind_Some in Hrun as ([h kp] & Hloop & Hrun).
    apply bind_Some in Hrun as ([] & Hleaf & _).
    unfold Proof.verify_state_leaf_node in Hleaf.
    apply bind_Some in Hleaf as ([v vl] & _ & Hleaf).
    apply bind_Some in Hleaf as (d1 & Hd1 & _). apply wsub_Some in Hd1 as [_ Hd1].
    rewrite <- (Hflat _ _ Hkn). unfold MAX_TRIE_NODE_LENGTH in *.
    eapply (spare_window_step keccak256 kn _ _ _ (root, 0) (h, kp) Hd1 Hd);
      [| |exact Hloop]; lia.
Qed.

(** The two-window proof of slot [0], followed by a spare window of zeros. *)
Lemma spare_windows_resolve_window_zero_witness :
  ∃ ty h kp,
    Node.resolve_nibble32 (flat_nibbles (Keccak.keccak256 Example.key 32)) 0
      (window (Example.branch ++ Example.leaf ++ replicate 532 x00) 0)
    = Some (ty, h, kp).
Proof.
  destruct (spare_windows_resolve_window_zero Keccak.keccak256 134
              (TrieProof.new Example.key
                 (Example.branch ++ Example.leaf ++ replicate 532 x00) 2 Example.value)
              Example.root) as [H _].
  - vm_compute. discriminate.
  - vm_compute. discriminate.
  - vm_compute. reflexivity.
  - apply H. vm_compute. reflexivity.
Defined.

(** A one-leaf proof of a full 32-byte value verifies in an array of one
    window and is rejected in an array of two. *)
Lemma single_leaf_spare_window :
  Proof.verify_storage_root Keccak.keccak256
    (TrieProof.new Example.key SingleLeaf.leaf 1 SingleLeaf.value) SingleLeaf.root
  = Some true
  ∧ Proof.verify_storage_root Keccak.keccak256
      (TrieProof.new Example.key (SingleLeaf.leaf ++ replicate 532 x00) 1
         SingleLeaf.value) SingleLeaf.root
    = None.
Proof. split; vm_compute; reflexivity. Qed.

(** ** What the drivers read *)

Lemma memcpy_agree (dest p1 p2 : list byte) (offset : N) :
  length p1 = length p2 →
  take (N.to_nat offset + length dest) p1 = take (N.to_nat offset + length dest) p2 →
  Utils.memcpy dest p1 offset = Utils.memcpy dest p2 offset.
Proof.
  intros Hl Ht. unfold Utils.memcpy.
  apply for_loop_ext. intros j t Hj. cbv beta.
  destruct (wadd 32 offset j) as [k|] eqn:E; [|reflexivity]. cbn [mbind option_bind].
  apply wadd_Some in E as [-> _]. unfold get.
  replace (p1 !! N.to_nat (offset + j)) with (p2 !! N.to_nat (offset + j)); [reflexivity|].
  rewrite <- (lookup_take_lt p1 (N.to_nat offset + length dest)) by lia.
  rewrite <- (lookup_take_lt p2 (N.to_nat offset + length dest)) by lia.
  by rewrite Ht.
Qed.

Lemma bind_ext {A B} (m : option A) (f g : A → option B) :
  (∀ a, m = Some a → f a = g a) → m ≫= f = m ≫= g.
Proof. intros H. destruct m as [a|]; [exact (H a eq_refl) | reflexivity]. Qed.

Lemma take_agree {A} (l1 l2 : list A) n m :
  (m ≤ n)%nat → take n l1 = take n l2 → take m l1 = take m l2.
Proof.
  intros Hm Ht.
  replace m with (m `min` n)%nat by lia.
  rewrite <- (take_take l1 m n), <- (take_take l2 m n).
  by rewrite Ht.
Qed.

Lemma internal_step_agree keccak256 kn p1 p2 depth i st :
  length p1 = length p2 → depth ≤ 256 → i ≤ 255 →
  take (N.to_nat (depth * 532)) p1 = take (N.to_nat (depth * 532)) p2 →
  Proof.internal_step keccak256 kn p1 depth i st
  = Proof.internal_step keccak256 kn p2 depth i st.
Proof.
  intros Hl Hd Hi Ht. unfold Proof.internal_step, Node.verify_internal_node.
  destruct (wsub depth 1) as [d1|] eqn:Hd1; [|reflexivity].
  apply wsub_Some in Hd1 as [-> Hd1]. cbn [mbind option_bind]. cbv zeta.
  rewrite !cast_small by (change (2 ^ 8) with 256; lia).
  assert (Hcp : ∀ j, j < depth →
            Utils.memcpy (replicate (N.to_nat MAX_TRIE_NODE_LENGTH) x00) p1
              (cast 32 (j * MAX_TRIE_NODE_LENGTH))
            = Utils.memcpy (replicate (N.to_nat MAX_TRIE_NODE_LENGTH) x00) p2
                (cast 32 (j * MAX_TRIE_NODE_LENGTH))).
  { intros j Hj. apply memcpy_agree; [exact Hl|].
    rewrite length_replicate. unfold MAX_TRIE_NODE_LENGTH.
    rewrite cast_small by (change (2 ^ 32) with 4294967296; lia).
    apply (take_agree _ _ (N.to_nat (depth * 532))); [lia | exact Ht]. }
  destruct (N.ltb_spec i (depth - 1)) as [Hin|Hin].
  - replace (wmul 64 i MAX_TRIE_NODE_LENGTH) with (Some (i * MAX_TRIE_NODE_LENGTH))
      by (symmetry; apply wmul_Some; unfold MAX_TRIE_NODE_LENGTH;
          change (2 ^ 64) with 18446744073709551616; lia).
    cbn [mbind option_bind]. rewrite Hcp by lia. reflexivity.
  - change (wmul 64 0 MAX_TRIE_NODE_LENGTH) with (Some (0 * MAX_TRIE_NODE_LENGTH)).
    cbn [mbind option_bind]. rewrite Hcp by lia. reflexivity.
Qed.

(** The drivers never read past window [depth - 1]: two proof arrays of the
    same length that agree on their first [depth] windows are accepted or
    rejected alike, by both verifiers. *)
Theorem drivers_ignore_windows_past_depth (keccak256 : list byte → N → list byte)
    (MAX_ACCOUNT_STATE_LENGTH : N) (key proof proof' value root : list byte)
    (depth : N) :
  depth ≤ 256 →
  len proof ≤ 257 * 532 →
  length proof' = length proof →
  take (N.to_nat (depth * 532)) proof' = take (N.to_nat (depth * 532)) proof →
  Proof.verify_storage_root keccak256 (TrieProof.new key proof' depth value) root
  = Proof.verify_storage_root keccak256 (TrieProof.new key proof depth value) root
  ∧ Proof.verify_state_root keccak256 MAX_ACCOUNT_STATE_LENGTH
      (TrieProof.new key proof' depth value) root
    = Proof.verify_state_root keccak256 MAX_ACCOUNT_STATE_LENGTH
        (TrieProof.new key proof depth value) root.
Proof.
  intros Hd Hp Hl Ht.
  assert (Hlen : len proof' = len proof) by (unfold len; by rewrite Hl).
  assert (Hloop : ∀ kn st,
    for_loop (N.to_nat (len proof / MAX_TRIE_NODE_LENGTH - 1)) 0
      (Proof.internal_step keccak256 kn proof' depth) st
    = for_loop (N.to_nat (len proof / MAX_TRIE_NODE_LENGTH - 1)) 0
        (Proof.internal_step keccak256 kn proof depth) st).
  { intros kn st. apply for_loop_ext. intros j t Hj.
    apply internal_step_agree; [exact Hl | exact Hd | | exact Ht].
    unfold MAX_TRIE_NODE_LENGTH in Hj. lia. }
  assert (Hleaf : ∀ d1, wsub depth 1 = Some d1 →
    Utils.memcpy (replicate (N.to_nat MAX_TRIE_NODE_LENGTH) x00) proof'
      (cast 32 d1 * MAX_TRIE_NODE_LENGTH)
    = Utils.memcpy (replicate (N.to_nat MAX_TRIE_NODE_LENGTH) x00) proof
        (cast 32 d1 * MAX_TRIE_NODE_LENGTH)).
  { intros d1 Hd1. apply wsub_Some in Hd1 as [-> Hd1].
    apply memcpy_agree; [exact Hl|].
    rewrite length_replicate. unfold MAX_TRIE_NODE_LENGTH.
    rewrite cast_small by (change (2 ^ 32) with 4294967296; lia).
    apply (take_agree _ _ (N.to_nat (depth * 532))); [lia | exact Ht]. }
  split.
  - unfold Proof.verify_storage_root. cbn [TrieProof.proof TrieProof.key TrieProof.depth].
    cbv zeta. rewrite Hlen.
    apply bind_ext; intros [] _. apply bind_ext; intros kn _.
    apply bind_ext; intros n Hn. apply wsub_Some in Hn as [-> _]. rewrite Hloop.
    apply bind_ext; intros [h kp] _.
    apply (f_equal (λ x : option (), x ≫= λ _, Some true)).
    unfold Proof.verify_storage_leaf_node.
    cbn [TrieProof.proof TrieProof.value TrieProof.depth].
    apply bind_ext; intros [v vl] _. apply bind_ext; intros d1 Hd1.
    apply bind_ext; intros off Hoff. apply wmul_Some in Hoff as [-> _].
    rewrite (Hleaf d1 Hd1). reflexivity.
  - unfold Proof.verify_state_root. cbn [TrieProof.proof TrieProof.key TrieProof.depth].
    cbv zeta. rewrite Hlen.
    apply bind_ext; intros [] _. apply bind_ext; intros kn _.
    apply bind_ext; intros n Hn. apply wsub_Some in Hn as [-> _]. rewrite Hloop.
    apply bind_ext; intros [h kp] _.
    apply (f_equal (λ x : option (), x ≫= λ _, Some true)).
    unfold Proof.verify_state_leaf_node.
    cbn [TrieProof.proof TrieProof.value TrieProof.depth].
    apply bind_ext; intros [v vl] _. apply bind_ext; intros d1 Hd1.
    apply bind_ext; intros off Hoff. apply wmul_Some in Hoff as [-> _].
    rewrite (Hleaf d1 Hd1). reflexivity.
Qed.

(** The spare window of a three-window proof of depth 2, filled with
    [0xff] instead of zeros. *)
Lemma drivers_ignore_windows_past_depth_witness :
  Proof.verify_storage_root Keccak.keccak256
    (TrieProof.new Example.key
       (Example.branch ++ Example.leaf ++ replicate 532 (zb 0xff)) 2 Example.value)
    Example.root
  = Proof.verify_storage_root Keccak.keccak256
      (TrieProof.new Example.key
         (Example.branch ++ Example.leaf ++ replicate 532 x00) 2 Example.value)
      Example.root
  ∧ Proof.verify_state_root Keccak.keccak256 134
      (TrieProof.new Example.key
         (Example.branch ++ Example.leaf ++ replicate 532 (zb 0xff)) 2 Example.value)
      Example.root
    = Proof.verify_state_root Keccak.keccak256 134
        (TrieProof.new Example.key
           (Example.branch ++ Example.leaf ++ replicate 532 x00) 2 Example.value)
        Example.root.
Proof.
  apply (drivers_ignore_windows_past_depth Keccak.keccak256 134 Example.key
           (Example.branch ++ Example.leaf ++ replicate 532 x00)
           (Example.branch ++ Example.leaf ++ replicate 532 (zb 0xff))
           Example.value Example.root 2).
  - vm_compute. discriminate.
  - vm_compute. discriminate.
  - reflexivity.
  - vm_compute. reflexivity.
Defined.

(** ** The proof drivers: completeness on arrays of exactly [depth] windows *)

Lemma window_length path i :
  (i + 1) * 532 ≤ len path → length (window path i) = 532%nat.
Proof.
  intros Hfit. unfold window, MAX_TRIE_NODE_LENGTH. unfold len in Hfit.
  rewrite length_take, length_drop. lia.
Qed.

Lemma verify_node_hash_of_hashes_to keccak256 node h :
  len node < 2 ^ 32 → hashes_to keccak256 node h →
  Node.verify_node_hash keccak256 node h = Some true.
Proof.
  intros Hlen (hdr & Hhdr & Hh).
  rewrite (verify_node_hash_eq _ _ _ hdr Hlen Hhdr). f_equal.
  by apply bool_decide_eq_true.
Qed.

Lemma internal_step_of_links keccak256 kn path depth i (a b : list byte * N) :
  i < depth - 1 → depth - 1 ≤ 255 →
  (i + 1) * 532 ≤ len path → len path < 2 ^ 32 →
  links keccak256 kn path i a b →
  Proof.internal_step keccak256 kn path depth i a = Some b.
Proof.
  intros Hin Hd Hfit Hp (Hhash & ty & Hres & Hty).
  unfold Proof.internal_step, Node.verify_internal_node.
  replace (wsub depth 1) with (Some (depth - 1)) by (symmetry; apply wsub_Some; lia).
  cbn [mbind option_bind]. cbv zeta.
  replace (cast 8 i <? cast 8 (depth - 1)) with true
    by (symmetry; apply N.ltb_lt;
        rewrite !cast_small by (change (2 ^ 8) with 256; lia); exact Hin).
  change (2 ^ 32) with 4294967296 in Hp.
  replace (wmul 64 i MAX_TRIE_NODE_LENGTH) with (Some (i * MAX_TRIE_NODE_LENGTH))
    by (symmetry; apply wmul_Some; unfold MAX_TRIE_NODE_LENGTH;
        change (2 ^ 64) with 18446744073709551616; lia).
  cbn [mbind option_bind].
  rewrite (cast_small 32 (i * MAX_TRIE_NODE_LENGTH))
    by (unfold MAX_TRIE_NODE_LENGTH; change (2 ^ 32) with 4294967296; lia).
  rewrite memcpy_window_eq;
    [|change (2 ^ 32) with 4294967296; lia
     |right; rewrite len_replicate; unfold MAX_TRIE_NODE_LENGTH; lia].
  cbn [mbind option_bind]. rewrite length_replicate.
  change (take (N.to_nat MAX_TRIE_NODE_LENGTH)
            (drop (N.to_nat (i * MAX_TRIE_NODE_LENGTH)) path)) with (window path i).
  rewrite verify_node_hash_of_hashes_to;
    [|unfold len; rewrite window_length by exact Hfit; reflexivity | exact Hhash].
  cbn [mbind option_bind]. simpl negb. simpl orb.
  change (assert true) with (Some ()). cbn [mbind option_bind].
  rewrite Hres. cbn [mbind option_bind].
  replace (ty =? LEAF) with false by (symmetry; by apply N.eqb_neq).
  simpl negb. change (assert true) with (Some ()). cbn [mbind option_bind].
  by destruct b.
Qed.

Lemma for_loop_along {St} (body : N → St → option St) (T : list St) n :
  ∀ i a b,
  T !! i = Some a → T !! (i + n)%nat = Some b →
  (∀ k x y, (i ≤ k < i + n)%nat → T !! k = Some x → T !! S k = Some y →
            body (N.of_nat k) x = Some y) →
  for_loop n (N.of_nat i) body a = Some b.
Proof.
  induction n as [|n IH]; intros i a b Ha Hb Hstep.
  - rewrite Nat.add_0_r in Hb. simpl. congruence.
  - destruct (lookup_lt_is_Some_2 T (S i)) as [c Hc].
    { apply lookup_lt_Some in Hb. lia. }
    cbn [for_loop]. rewrite (Hstep i a c) by (lia || assumption).
    cbn [mbind option_bind].
    replace (N.succ (N.of_nat i)) with (N.of_nat (S i)) by lia.
    apply (IH (S i) c b Hc).
    + by replace (S i + n)%nat with (i + S n)%nat by lia.
    + intros k x y Hk. apply Hstep. lia.
Qed.

Lemma storage_leaf_total keccak256 (p : TrieProof.t) h kp kn t ev evl o :
  1 ≤ TrieProof.depth p → TrieProof.depth p ≤ 256 →
  TrieProof.depth p * 532 ≤ len (TrieProof.proof p) →
  len (TrieProof.proof p) < 2 ^ 32 →
  len (TrieProof.value p) < 2 ^ 31 →
  let leaf := window (TrieProof.proof p) (TrieProof.depth p - 1) in
  let value := TrieProof.value p in
  hashes_to keccak256 leaf h →
  Rlp.decode1_small_lis 2 leaf = Some t →
  Node.resolve2 33 leaf t kn kp = Some (LEAF, ev, evl, 64) →
  evl ≤ 33 →
  Rlp.decode0 ev = Some (o, N.of_nat (length value - lead_zeros value)) →
  take (length value - lead_zeros value) (drop (N.to_nat o) ev)
  = drop (lead_zeros value) value →
  Proof.verify_storage_leaf_node keccak256 p h 32 kp kn = Some ().
Proof.
  intros Hd1 Hd Hfit Hp Hv leaf value Hhash Ht Hres Hevl Hdec Hval. subst value.
  unfold Proof.verify_storage_leaf_node.
  rewrite byte_value_spec by exact Hv. cbn [mbind option_bind].
  replace (wsub (TrieProof.depth p) 1) with (Some (TrieProof.depth p - 1))
    by (symmetry; apply wsub_Some; lia).
  cbn [mbind option_bind].
  rewrite (cast_small 32 (TrieProof.depth p - 1)) by (change (2 ^ 32) with 4294967296; lia).
  change (2 ^ 32) with 4294967296 in Hp.
  replace (wmul 32 (TrieProof.depth p - 1) MAX_TRIE_NODE_LENGTH)
    with (Some ((TrieProof.depth p - 1) * MAX_TRIE_NODE_LENGTH))
    by (symmetry; apply wmul_Some; unfold MAX_TRIE_NODE_LENGTH;
        change (2 ^ 32) with 4294967296; lia).
  cbn [mbind option_bind].
  rewrite memcpy_window_eq;
    [|change (2 ^ 32) with 4294967296; lia
     |right; rewrite len_replicate; unfold MAX_TRIE_NODE_LENGTH; lia].
  cbn [mbind option_bind]. rewrite length_replicate.
  change (take (N.to_nat MAX_TRIE_NODE_LENGTH)
            (drop (N.to_nat ((TrieProof.depth p - 1) * MAX_TRIE_NODE_LENGTH))
               (TrieProof.proof p))) with leaf.
  assert (Hll : length leaf = 532%nat) by (apply window_length; lia).
  rewrite verify_node_hash_of_hashes_to;
    [|unfold len; rewrite Hll; reflexivity | exact Hhash].
  cbn [mbind option_bind]. change (assert true) with (Some ()). cbn [mbind option_bind].
  rewrite Ht. cbn [mbind option_bind]. rewrite Hres. cbn [mbind option_bind].
  change (assert (LEAF =? LEAF)) with (Some ()). cbn [mbind option_bind].
  change (wadd 32 (cast 32 MAX_STORAGE_VALUE_LENGTH) 1) with (Some 33).
  cbn [mbind option_bind].
  rewrite (cast_small 32 evl) by (change (2 ^ 32) with 4294967296; lia).
  replace (evl <=? 33) with true by (symmetry; by apply N.leb_le).
  change (assert true) with (Some ()). cbn [mbind option_bind].
  change (wmul 64 2 32) with (Some 64). cbn [mbind option_bind].
  change (assert (64 =? 64)) with (Some ()). cbn [mbind option_bind].
  rewrite Hdec. cbn [mbind option_bind]. rewrite N.eqb_refl.
  change (assert true) with (Some ()). cbn [mbind option_bind].
  pose proof (resolve2_value _ _ _ _ _ _ _ _ _ Hres) as (_ & _ & _ & off1 & _ & _ & _ & Hevlen & _).
  change (N.to_nat 33) with 33%nat in Hevlen.
  pose proof Hdec as Hdec'. unfold Rlp.decode0 in Hdec'.
  apply bind_Some in Hdec' as (eh & Heh & Hdec').
  apply bind_Some in Hdec' as (total & Htot & Hdec'). apply wadd_Some in Htot as [-> _].
  apply bind_Some in Hdec' as ([] & _ & Hdec').
  apply bind_Some in Hdec' as ([] & Hfit0 & Hdec'). apply assert_Some, N.leb_le in Hfit0.
  injection Hdec' as <- Hlen0.
  assert (Hev32 : len ev < 2 ^ 32) by (unfold len; rewrite Hevlen; reflexivity).
  destruct (decode_len_bounds ev eh Hev32 Heh) as [Ho _].
  rewrite cast_small by (change (2 ^ 32) with 4294967296; lia).
  pose proof (lead_zeros_le (TrieProof.value p)) as Hlz.
  remember (TrieProof.value p) as value eqn:Evalue.
  remember (lead_zeros value) as z eqn:Ez.
  assert (Hd' : length (drop z value) = (length value - z)%nat) by apply length_drop.
  unfold len in Hfit0. rewrite Hlen0 in Hfit0.
  apply assert_subarray_total.
  - unfold len in *. rewrite length_app, length_replicate, Hd'.
    change (2 ^ 31) with 2147483648 in Hv. change (2 ^ 32) with 4294967296. lia.
  - intros i Hi _.
    destruct (lookup_lt_is_Some_2 (drop z value) (N.to_nat i)) as [a Ha]; [rewrite Hd'; lia|].
    exists a. split.
    + rewrite lookup_app_l by (rewrite Hd'; lia). exact Ha.
    + rewrite <- Hval in Ha. rewrite lookup_take_lt in Ha by lia.
      rewrite lookup_drop in Ha. rewrite <- Ha. f_equal. lia.
Qed.

(** On a proof array of exactly [depth] windows the chain is all that
    [verify_storage_root] asks for: given references [refs[0..depth-1]]
    from the root at cursor 0, each window before the last hashing to its
    reference and resolving to the next one, and a last window that hashes to
    the last reference, decodes into two short strings, resolves as a leaf
    at cursor 64 with a second field of at most 33 bytes holding, as an RLP
    string, the claimed value without its leading zeros, the verifier
    returns [true]. *)
Theorem verify_storage_root_complete (keccak256 : list byte → N → list byte)
    (p : TrieProof.t) (root : list byte) (refs : list (list byte * N))
    (h : list byte) (kp : N) (t : RLP_List.t) (ev : list byte) (evl o : N) :
  let path := TrieProof.proof p in
  let depth := TrieProof.depth p in
  let value := TrieProof.value p in
  let key_nibbles := flat_nibbles (keccak256 (TrieProof.key p) 32) in
  let leaf := window path (depth - 1) in
  1 ≤ depth → depth ≤ 256 → len path = depth * 532 →
  len value < 2 ^ 31 →
  length (keccak256 (TrieProof.key p) 32) = 32%nat →
  length refs = N.to_nat depth →
  refs !! 0%nat = Some (root, 0) →
  (∀ i a b, refs !! i = Some a → refs !! S i = Some b →
            links keccak256 key_nibbles path (N.of_nat i) a b) →
  refs !! (N.to_nat depth - 1)%nat = Some (h, kp) →
  hashes_to keccak256 leaf h →
  Rlp.decode1_small_lis 2 leaf = Some t →
  Node.resolve2 33 leaf t key_nibbles kp = Some (LEAF, ev, evl, 64) →
  evl ≤ 33 →
  Rlp.decode0 ev = Some (o, N.of_nat (length value - lead_zeros value)) →
  take (length value - lead_zeros value) (drop (N.to_nat o) ev)
  = drop (lead_zeros value) value →
  Proof.verify_storage_root keccak256 p root = Some true.
Proof.
  intros path depth value key_nibbles leaf Hd1 Hd Hp Hv Hk Hrl Hr0 Hlinks Hlast
    Hhash Ht Hres Hevl Hdec Hval.
  subst path depth value leaf.
  unfold Proof.verify_storage_root. cbv zeta.
  rewrite Hp.
  rewrite (cast_small 32 (TrieProof.depth p * 532))
    by (change (2 ^ 32) with 4294967296; lia).
  change (cast 32 MAX_TRIE_NODE_LENGTH) with 532.
  rewrite N.Div0.mod_mul. change (assert (0 =? 0)) with (Some ()).
  cbn [mbind option_bind].
  pose proof (key_as_nibbles_flat (keccak256 (TrieProof.key p) 32)) as Hflat.
  replace (2 * len (keccak256 (TrieProof.key p) 32)) with NIBBLE_LENGTH in Hflat
    by (unfold NIBBLE_LENGTH, len; rewrite Hk; reflexivity).
  rewrite Hflat by (unfold len; rewrite Hk; reflexivity).
  cbn [mbind option_bind]. fold key_nibbles.
  unfold MAX_TRIE_NODE_LENGTH at 1. rewrite N.div_mul by lia.
  replace (wsub (TrieProof.depth p) 1) with (Some (TrieProof.depth p - 1))
    by (symmetry; apply wsub_Some; lia).
  cbn [mbind option_bind].
  rewrite (for_loop_along _ refs (N.to_nat (TrieProof.depth p - 1)) 0%nat
             (root, 0) (h, kp) Hr0).
  - cbn [mbind option_bind]. unfold len at 1. rewrite Hk. change (N.of_nat 32) with 32.
    rewrite (storage_leaf_total keccak256 p h kp key_nibbles t ev evl o);
      try assumption; [reflexivity|lia|rewrite Hp; change (2 ^ 32) with 4294967296; lia].
  - rewrite <- Hlast. f_equal. lia.
  - intros k x y Hk' Hx Hy.
    apply internal_step_of_links;
      [lia | lia | lia | rewrite Hp; change (2 ^ 32) with 4294967296; lia
      | by apply Hlinks].
Qed.

Lemma verify_storage_root_complete_witness :
  Proof.verify_storage_root Keccak.keccak256 Example.storage_proof Example.root
  = Some true.
Proof.
  apply (verify_storage_root_complete Keccak.keccak256 Example.storage_proof
           Example.root [(Example.root, 0); (Example.leaf_hash, 1)]
           Example.leaf_hash 1 Example.leaf_table
           (bytes [5] ++ replicate 32 x00) 1 0).
  - vm_compute. discriminate.
  - vm_compute. discriminate.
  - reflexivity.
  - reflexivity.
  - reflexivity.
  - reflexivity.
  - reflexivity.
  - intros [|[|i]] a b Ha Hb; [|discriminate Hb|discriminate Ha].
    injection Ha as <-. injection Hb as <-. split.
    + exists (RLP_Header.new 1 49 Rlp.LIST). split; vm_compute; reflexivity.
    + exists 0. split; [vm_compute; reflexivity | discriminate].
  - reflexivity.
  - exists (RLP_Header.new 1 34 Rlp.LIST). split; vm_compute; reflexivity.
  - vm_compute. reflexivity.
  - vm_compute. reflexivity.
  - vm_compute. discriminate.
  - vm_compute. reflexivity.
  - vm_compute. reflexivity.
Defined.

Lemma state_leaf_total keccak256 MAXACC (p : TrieProof.t) h kp kn t ev :
  1 ≤ TrieProof.depth p → TrieProof.depth p ≤ 256 →
  TrieProof.depth p * 532 ≤ len (TrieProof.proof p) →
  len (TrieProof.proof p) < 2 ^ 32 →
  len (TrieProof.value p) < 2 ^ 31 →
  let leaf := window (TrieProof.proof p) (TrieProof.depth p - 1) in
  let value := TrieProof.value p in
  hashes_to keccak256 leaf h →
  Rlp.decode1 2 leaf = Some t →
  Node.resolve2 MAXACC leaf t kn kp
  = Some (LEAF, ev, N.of_nat (length value - lead_zeros value), 64) →
  (∃ v0, ev !! 0%nat = Some v0 ∧ 0xc0 ≤ bz v0) →
  take (length value - lead_zeros value) ev = drop (lead_zeros value) value →
  Proof.verify_state_leaf_node keccak256 MAXACC (len value) p h 32 kp kn = Some ().
Proof.
  intros Hd1 Hd Hfit Hp Hv leaf value Hhash Ht Hres (v0 & Hv0 & Hlist) Hval. subst value.
  unfold Proof.verify_state_leaf_node.
  rewrite byte_value_spec by exact Hv. cbn [mbind option_bind].
  replace (wsub (TrieProof.depth p) 1) with (Some (TrieProof.depth p - 1))
    by (symmetry; apply wsub_Some; lia).
  cbn [mbind option_bind].
  rewrite (cast_small 32 (TrieProof.depth p - 1)) by (change (2 ^ 32) with 4294967296; lia).
  change (2 ^ 32) with 4294967296 in Hp.
  replace (wmul 32 (TrieProof.depth p - 1) MAX_TRIE_NODE_LENGTH)
    with (Some ((TrieProof.depth p - 1) * MAX_TRIE_NODE_LENGTH))
    by (symmetry; apply wmul_Some; unfold MAX_TRIE_NODE_LENGTH;
        change (2 ^ 32) with 4294967296; lia).
  cbn [mbind option_bind].
  rewrite memcpy_window_eq;
    [|change (2 ^ 32) with 4294967296; lia
     |right; rewrite len_replicate; unfold MAX_TRIE_NODE_LENGTH; lia].
  cbn [mbind option_bind]. rewrite length_replicate.
  change (take (N.to_nat MAX_TRIE_NODE_LENGTH)
            (drop (N.to_nat ((TrieProof.depth p - 1) * MAX_TRIE_NODE_LENGTH))
               (TrieProof.proof p))) with leaf.
  assert (Hll : length leaf = 532%nat) by (apply window_length; lia).
  rewrite verify_node_hash_of_hashes_to;
    [|unfold len; rewrite Hll; reflexivity | exact Hhash].
  cbn [mbind option_bind]. change (assert true) with (Some ()). cbn [mbind option_bind].
  rewrite Ht. cbn [mbind option_bind]. rewrite Hres. cbn [mbind option_bind].
  change (assert (LEAF =? LEAF)) with (Some ()). cbn [mbind option_bind].
  pose proof (lead_zeros_le (TrieProof.value p)) as Hlz.
  change (2 ^ 31) with 2147483648 in Hv. unfold len in Hv.
  rewrite !cast_small by (unfold len; change (2 ^ 32) with 4294967296; lia).
  replace (N.of_nat (length (TrieProof.value p) - lead_zeros (TrieProof.value p))
           <=? len (TrieProof.value p)) with true
    by (symmetry; apply N.leb_le; unfold len; lia).
  change (assert true) with (Some ()). cbn [mbind option_bind].
  change (wmul 64 2 32) with (Some 64). cbn [mbind option_bind].
  change (assert (64 =? 64)) with (Some ()). cbn [mbind option_bind].
  unfold get at 1. change (N.to_nat 0) with 0%nat. rewrite Hv0. cbn [mbind option_bind].
  replace (192 <=? bz v0) with true by (symmetry; by apply N.leb_le).
  change (assert true) with (Some ()). cbn [mbind option_bind].
  rewrite N.eqb_refl. change (assert true) with (Some ()). cbn [mbind option_bind].
  remember (TrieProof.value p) as value eqn:Evalue.
  remember (lead_zeros value) as z eqn:Ez.
  assert (Hd' : length (drop z value) = (length value - z)%nat) by apply length_drop.
  apply assert_subarray_total.
  - unfold len. rewrite length_app, length_replicate, Hd'.
    change (2 ^ 32) with 4294967296. lia.
  - intros i Hi _.
    destruct (lookup_lt_is_Some_2 (drop z value) (N.to_nat i)) as [a Ha]; [rewrite Hd'; lia|].
    exists a. split.
    + rewrite lookup_app_l by (rewrite Hd'; lia). exact Ha.
    + rewrite <- Hval in Ha. rewrite lookup_take_lt in Ha by lia. exact Ha.
Qed.

(** The same for [verify_state_root]: on an array of exactly [depth] windows
    the chain of references, and a last window that hashes to the last
    reference, decodes with [decode1] into two fields and resolves as a leaf
    at cursor 64 whose value field is an RLP list equal to the claimed value
    without its leading zeros, make the verifier return [true]. *)
Theorem verify_state_root_complete (keccak256 : list byte → N → list byte)
    (MAX_ACCOUNT_STATE_LENGTH : N)
    (p : TrieProof.t) (root : list byte) (refs : list (list byte * N))
    (h : list byte) (kp : N) (t : RLP_List.t) (ev : list byte) :
  let path := TrieProof.proof p in
  let depth := TrieProof.depth p in
  let value := TrieProof.value p in
  let key_nibbles := flat_nibbles (keccak256 (TrieProof.key p) 20) in
  let leaf := window path (depth - 1) in
  1 ≤ depth → depth ≤ 256 → len path = depth * 532 →
  len value < 2 ^ 31 →
  length (keccak256 (TrieProof.key p) 20) = 32%nat →
  length refs = N.to_nat depth →
  refs !! 0%nat = Some (root, 0) →
  (∀ i a b, refs !! i = Some a → refs !! S i = Some b →
            links keccak256 key_nibbles path (N.of_nat i) a b) →
  refs !! (N.to_nat depth - 1)%nat = Some (h, kp) →
  hashes_to keccak256 leaf h →
  Rlp.decode1 2 leaf = Some t →
  Node.resolve2 MAX_ACCOUNT_STATE_LENGTH leaf t key_nibbles kp
  = Some (LEAF, ev, N.of_nat (length value - lead_zeros value), 64) →
  (∃ v0, ev !! 0%nat = Some v0 ∧ 0xc0 ≤ bz v0) →
  take (length value - lead_zeros value) ev = drop (lead_zeros value) value →
  Proof.verify_state_root keccak256 MAX_ACCOUNT_STATE_LENGTH p root = Some true.
Proof.
  intros path depth value key_nibbles leaf Hd1 Hd Hp Hv Hk Hrl Hr0 Hlinks Hlast
    Hhash Ht Hres Hlist Hval.
  subst path depth value leaf.
  unfold Proof.verify_state_root. cbv zeta.
  rewrite Hp.
  rewrite (cast_small 32 (TrieProof.depth p * 532))
    by (change (2 ^ 32) with 4294967296; lia).
  change (cast 32 MAX_TRIE_NODE_LENGTH) with 532.
  rewrite N.Div0.mod_mul. change (assert (0 =? 0)) with (Some ()).
  cbn [mbind option_bind].
  pose proof (key_as_nibbles_flat (keccak256 (TrieProof.key p) 20)) as Hflat.
  replace (2 * len (keccak256 (TrieProof.key p) 20)) with NIBBLE_LENGTH in Hflat
    by (unfold NIBBLE_LENGTH, len; rewrite Hk; reflexivity).
  rewrite Hflat by (unfold len; rewrite Hk; reflexivity).
  cbn [mbind option_bind]. fold key_nibbles.
  unfold MAX_TRIE_NODE_LENGTH at 1. rewrite N.div_mul by lia.
  replace (wsub (TrieProof.depth p) 1) with (Some (TrieProof.depth p - 1))
    by (symmetry; apply wsub_Some; lia).
  cbn [mbind option_bind].
  rewrite (for_loop_along _ refs (N.to_nat (TrieProof.depth p - 1)) 0%nat
             (root, 0) (h, kp) Hr0).
  - cbn [mbind option_bind]. unfold len at 2. rewrite Hk. change (N.of_nat 32) with 32.
    rewrite (state_leaf_total keccak256 MAX_ACCOUNT_STATE_LENGTH p h kp key_nibbles t ev);
      try assumption; [reflexivity|lia|rewrite Hp; change (2 ^ 32) with 4294967296; lia].
  - rewrite <- Hlast. f_equal. lia.
  - intros k x y Hk' Hx Hy.
    apply internal_step_of_links;
      [lia | lia | lia | rewrite Hp; change (2 ^ 32) with 4294967296; lia
      | by apply Hlinks].
Qed.

Lemma verify_state_root_complete_witness :
  Proof.verify_state_root Keccak.keccak256 134 StateExample.state_proof
    StateExample.root = Some true.
Proof.
  apply (verify_state_root_complete Keccak.keccak256 134 StateExample.state_proof
           StateExample.root [(StateExample.root, 0)] StateExample.root 0
           (RLP_List.new [3; 38] [33; 70] [0; 0] 2)
           (StateExample.account ++ replicate 64 x00)).
  - vm_compute. discriminate.
  - vm_compute. discriminate.
  - reflexivity.
  - reflexivity.
  - reflexivity.
  - reflexivity.
  - reflexivity.
  - intros [|i] a b Ha Hb; [discriminate Hb | discriminate Ha].
  - reflexivity.
  - exists (RLP_Header.new 2 106 Rlp.LIST). split; vm_compute; reflexivity.
  - vm_compute. reflexivity.
  - vm_compute. reflexivity.
  - exists (zb 0xf8). split; [reflexivity | vm_compute; discriminate].
  - vm_compute. reflexivity.
Defined.

(** ** The serialisers of generateWitness.ts *)

Lemma unhex_hex_digit n : n < 16 → GenerateWitness.unhex (hex_digit n) = Some n.
Proof.
  intros Hn.
  destruct n as [|p]; [reflexivity|].
  do 4 (destruct p as [p|p|]; try reflexivity); lia.
Qed.

Lemma hex_digit_not_x n : n < 16 → hex_digit n ≠ zb 120.
Proof.
  intros Hn.
  destruct n as [|p]; [discriminate|].
  do 4 (destruct p as [p|p|]; try discriminate); lia.
Qed.

Lemma to_hex_app a b : to_hex (a ++ b) = to_hex a ++ to_hex b.
Proof. induction a as [|x a IH]; simpl; [done|]. by rewrite IH. Qed.

Lemma to_hex_length bs : length (to_hex bs) = (2 * length bs)%nat.
Proof. induction bs as [|b bs IH]; simpl; lia. Qed.

Lemma to_hex_replicate k :
  to_hex (replicate k x00) = replicate (2 * k) GenerateWitness.char_0.
Proof.
  induction k as [|k IH]; [done|].
  replace (2 * S k)%nat with (S (S (2 * k))) by lia.
  simpl replicate. simpl to_hex. rewrite IH. reflexivity.
Qed.

Lemma bz_lt_256 b : bz b < 256.
Proof. unfold bz. pose proof (Byte.to_N_bounded b). lia. Qed.

Lemma hex_decode_to_hex bs k rest :
  GenerateWitness.hex_decode (length bs + k) (to_hex bs ++ rest)
  = bs ++ GenerateWitness.hex_decode k rest.
Proof.
  induction bs as [|b bs IH]; [done|].
  pose proof (bz_lt_256 b) as Hb.
  simpl. rewrite !unhex_hex_digit by lia. rewrite IH.
  f_equal. rewrite <- (zb_bz b) at 3. f_equal. lia.
Qed.

Lemma buffer_from_hex_to_hex bs : GenerateWitness.buffer_from_hex (to_hex bs) = bs.
Proof.
  unfold GenerateWitness.buffer_from_hex. rewrite to_hex_length.
  replace (2 * length bs / 2)%nat with (length bs + 0)%nat
    by (rewrite Nat.mul_comm, Nat.div_mul; lia).
  rewrite <- (app_nil_r (to_hex bs)), hex_decode_to_hex.
  destruct bs; simpl; by rewrite ?app_nil_r.
Qed.

Lemma replace_first_0x s :
  GenerateWitness.replace_first GenerateWitness.str_0x (GenerateWitness.str_0x ++ s) = s.
Proof. reflexivity. Qed.

Lemma replace_first_no_x s :
  Forall (λ c, c ≠ zb 120) s →
  GenerateWitness.replace_first GenerateWitness.str_0x s = s.
Proof.
  induction 1 as [|c s Hc Hs IH]; [done|].
  cbn [GenerateWitness.replace_first].
  replace (GenerateWitness.starts_with GenerateWitness.str_0x (c :: s)) with false.
  - by rewrite IH.
  - unfold GenerateWitness.str_0x. cbn [GenerateWitness.starts_with].
    destruct s as [|d s]; [by rewrite andb_false_r|].
    inversion Hs; subst. rewrite (bool_decide_eq_false_2 (zb 120 = d)) by congruence.
    by rewrite andb_false_r.
Qed.

Lemma to_hex_no_x bs : Forall (λ c, c ≠ zb 120) (to_hex bs).
Proof.
  induction bs as [|b bs IH]; [constructor|].
  pose proof (bz_lt_256 b).
  simpl. repeat constructor; try apply hex_digit_not_x; try lia. exact IH.
Qed.

Lemma padEnd_to_hex node :
  (length node ≤ N.to_nat MAX_TRIE_NODE_LENGTH)%nat →
  GenerateWitness.padEnd (N.to_nat MAX_TRIE_NODE_LENGTH * 2) GenerateWitness.char_0
    (to_hex node)
  = to_hex (pad_window node).
Proof.
  intros Hn. unfold GenerateWitness.padEnd, pad_window.
  rewrite to_hex_app, to_hex_replicate, to_hex_length. do 2 f_equal. lia.
Qed.

Lemma foldl_proof_path acc nodes :
  Forall (λ n, (length n ≤ N.to_nat MAX_TRIE_NODE_LENGTH)%nat) nodes →
  foldl (λ proofPath layer,
           proofPath ++ GenerateWitness.padEnd (N.to_nat MAX_TRIE_NODE_LENGTH * 2)
                          GenerateWitness.char_0
                          (GenerateWitness.replace_first GenerateWitness.str_0x layer))
    acc ((λ n, GenerateWitness.str_0x ++ to_hex n) <$> nodes)
  = acc ++ to_hex (mjoin (pad_window <$> nodes)).
Proof.
  intros H. revert acc. induction H as [|n nodes Hn Hs IH]; intros acc.
  - simpl. by rewrite app_nil_r.
  - rewrite fmap_cons. cbn [foldl]. rewrite IH, replace_first_0x, padEnd_to_hex by done.
    rewrite fmap_cons.
    change (mjoin (pad_window n :: (pad_window <$> nodes)))
      with (pad_window n ++ mjoin (pad_window <$> nodes)).
    by rewrite to_hex_app, app_assoc.
Qed.

Lemma proof_path_to_hex nodes :
  Forall (λ n, (length n ≤ N.to_nat MAX_TRIE_NODE_LENGTH)%nat) nodes →
  GenerateWitness.proof_path ((λ n, GenerateWitness.str_0x ++ to_hex n) <$> nodes)
  = to_hex (mjoin (pad_window <$> nodes)).
Proof. intros H. unfold GenerateWitness.proof_path. by rewrite foldl_proof_path. Qed.

Lemma pad_window_length node :
  (length node ≤ N.to_nat MAX_TRIE_NODE_LENGTH)%nat →
  length (pad_window node) = N.to_nat MAX_TRIE_NODE_LENGTH.
Proof. intros H. unfold pad_window. rewrite length_app, length_replicate. lia. Qed.

Lemma join_windows nodes :
  Forall (λ n, (length n ≤ N.to_nat MAX_TRIE_NODE_LENGTH)%nat) nodes →
  length (mjoin (pad_window <$> nodes)) = (N.to_nat MAX_TRIE_NODE_LENGTH * length nodes)%nat
  ∧ ∀ i n, nodes !! i = Some n →
      window (mjoin (pad_window <$> nodes)) (N.of_nat i) = pad_window n.
Proof.
  induction 1 as [|n nodes Hn Hs [IHl IHw]]; [split; [done|intros i n; by rewrite lookup_nil]|].
  rewrite fmap_cons.
  change (mjoin (pad_window n :: (pad_window <$> nodes)))
    with (pad_window n ++ mjoin (pad_window <$> nodes)).
  split.
  - rewrite length_app, pad_window_length by done.
    rewrite IHl. simpl length. lia.
  - intros i m Hi. unfold window. destruct i as [|i].
    + simpl in Hi. injection Hi as ->. simpl. rewrite drop_0.
      rewrite take_app_length'; [done|]. by rewrite pad_window_length.
    + simpl in Hi. specialize (IHw i m Hi). unfold window in IHw.
      replace (N.to_nat (N.of_nat (S i) * MAX_TRIE_NODE_LENGTH))
        with (length (pad_window n) + N.to_nat (N.of_nat i * MAX_TRIE_NODE_LENGTH))%nat
        by (rewrite pad_window_length by done; lia).
      rewrite drop_app_add'; [|done]. exact IHw.
Qed.

(** [serialiseAccountProof], given the nodes of a proof as ["0x"]-prefixed
    hexadecimal strings, none longer than [MAX_TRIE_NODE_LENGTH] bytes, returns
    the nodes each padded with zeros to one window: the array is
    [MAX_TRIE_NODE_LENGTH] bytes per node long and its window [i], as the circuit
    reads it, is node [i] followed by zeros. *)
Theorem serialiseAccountProof_windows nodes :
  Forall (λ n, (length n ≤ N.to_nat MAX_TRIE_NODE_LENGTH)%nat) nodes →
  let path := GenerateWitness.serialiseAccountProof
                ((λ n, GenerateWitness.str_0x ++ to_hex n) <$> nodes) in
  path = mjoin (pad_window <$> nodes)
  ∧ len path = MAX_TRIE_NODE_LENGTH * len nodes
  ∧ ∀ i n, nodes !! i = Some n → window path (N.of_nat i) = pad_window n.
Proof.
  intros H path.
  assert (Hp : path = mjoin (pad_window <$> nodes)).
  { unfold path, GenerateWitness.serialiseAccountProof.
    by rewrite proof_path_to_hex, buffer_from_hex_to_hex. }
  destruct (join_windows nodes H) as [Hl Hw].
  rewrite Hp. split_and!; [done| |exact Hw].
  unfold len. rewrite Hl. lia.
Qed.

Lemma serialiseAccountProof_windows_witness :
  GenerateWitness.serialiseAccountProof
    ((λ n, GenerateWitness.str_0x ++ to_hex n) <$> [bytes [1; 2]; bytes [255]])
  = mjoin (pad_window <$> [bytes [1; 2]; bytes [255]]).
Proof.
  apply (serialiseAccountProof_windows [bytes [1; 2]; bytes [255]]).
  repeat constructor; vm_compute; lia.
Defined.

Lemma unhex_lt c n : GenerateWitness.unhex c = Some n → n < 16.
Proof.
  unfold GenerateWitness.unhex. cbv zeta.
  destruct (N.leb_spec 48 (bz c)), (N.leb_spec (bz c) 57), (N.leb_spec 97 (bz c)),
    (N.leb_spec (bz c) 102), (N.leb_spec 65 (bz c)), (N.leb_spec (bz c) 70);
    simpl; intros Hu; try discriminate; injection Hu as <-; lia.
Qed.

Lemma hex_decode_foldl k : ∀ s acc,
  length s = (2 * k)%nat → Forall (λ c, is_Some (GenerateWitness.unhex c)) s →
  length (GenerateWitness.hex_decode k s) = k
  ∧ foldl (λ acc b, 256 * acc + bz b) acc (GenerateWitness.hex_decode k s)
    = foldl (λ acc c, 16 * acc + default 0 (GenerateWitness.unhex c)) acc s.
Proof.
  induction k as [|k IH]; intros s acc Hl Hs.
  - by destruct s.
  - destruct s as [|a [|b rest]]; [simpl in Hl; lia..|].
    inversion Hs as [|? ? [hi Ha] Hs']; subst. inversion Hs' as [|? ? [lo Hb] Hr]; subst.
    pose proof (unhex_lt _ _ Ha). pose proof (unhex_lt _ _ Hb).
    simpl in Hl. cbn [GenerateWitness.hex_decode]. rewrite Ha, Hb.
    assert (Hl' : length rest = (2 * k)%nat) by lia.
    destruct (IH rest (256 * acc + bz (zb (16 * hi + lo))) Hl' Hr) as [IHl IHf].
    split; [simpl; by rewrite IHl|].
    cbn [foldl]. rewrite IHf, Ha, Hb, bz_zb by lia. cbn [default from_option id]. f_equal. lia.
Qed.

Lemma hex_value_zeros m ds :
  hex_value (replicate m GenerateWitness.char_0 ++ ds) = hex_value ds.
Proof.
  unfold hex_value. rewrite foldl_app. f_equal.
  induction m as [|m IH]; [done|]. exact IH.
Qed.

Lemma serialise_quantity ds :
  Forall (λ c, is_Some (GenerateWitness.unhex c)) ds → (length ds ≤ 64)%nat →
  length (GenerateWitness.serialise (GenerateWitness.str_0x ++ ds) true) = 32%nat
  ∧ be_read (GenerateWitness.serialise (GenerateWitness.str_0x ++ ds) true) = hex_value ds.
Proof.
  intros Hds Hl. unfold GenerateWitness.serialise. rewrite replace_first_0x.
  cbn [andb]. unfold GenerateWitness.buffer_from_hex, be_read.
  destruct (Nat.ltb_spec (length ds) 64) as [Hlt|Hge].
  - assert (Hx : length (GenerateWitness.padStart 64 GenerateWitness.char_0 ds) = (2 * 32)%nat).
    { unfold GenerateWitness.padStart. rewrite length_app, length_replicate. lia. }
    rewrite Hx. change (2 * 32 / 2)%nat with 32%nat.
    destruct (hex_decode_foldl 32 _ 0 Hx) as [H1 H2].
    { unfold GenerateWitness.padStart. apply Forall_app. split; [|done].
      apply Forall_replicate. by exists 0. }
    split; [done|]. rewrite H2. apply hex_value_zeros.
  - assert (Hx : length ds = (2 * 32)%nat) by lia.
    rewrite Hx. change (2 * 32 / 2)%nat with 32%nat.
    destruct (hex_decode_foldl 32 _ 0 Hx Hds) as [H1 H2]. done.
Qed.

Lemma serialise_to_hex bs :
  GenerateWitness.serialise (GenerateWitness.str_0x ++ to_hex bs) false = bs.
Proof.
  unfold GenerateWitness.serialise. rewrite replace_first_0x. apply buffer_from_hex_to_hex.
Qed.

(** [createSerialsFromProof] turns entry [i] of an [eth_getProof] response into
    the circuit's inputs: the proof nodes (none longer than
    [MAX_TRIE_NODE_LENGTH] bytes) each padded with zeros to one window, the key
    and the storage hash as the bytes their hexadecimal text writes, and the
    value, given as at most 64 hexadecimal digits, as the 32-byte big-endian
    array of the number the digits write. *)
Theorem createSerialsFromProof_fields root items i key ds nodes :
  items !! i = Some {| GenerateWitness.item_key := GenerateWitness.str_0x ++ to_hex key;
                       GenerateWitness.item_value := GenerateWitness.str_0x ++ ds;
                       GenerateWitness.item_proof :=
                         (λ n, GenerateWitness.str_0x ++ to_hex n) <$> nodes |} →
  Forall (λ c, is_Some (GenerateWitness.unhex c)) ds → (length ds ≤ 64)%nat →
  Forall (λ n, (length n ≤ N.to_nat MAX_TRIE_NODE_LENGTH)%nat) nodes →
  ∃ r, GenerateWitness.createSerialsFromProof (GenerateWitness.str_0x ++ to_hex root) items !! i
       = Some r
     ∧ GenerateWitness.storage_proof r = mjoin (pad_window <$> nodes)
     ∧ GenerateWitness.storage_key r = key
     ∧ GenerateWitness.storage_root r = root
     ∧ length (GenerateWitness.value r) = 32%nat
     ∧ be_read (GenerateWitness.value r) = hex_value ds.
Proof.
  intros Hi Hds Hl Hn. unfold GenerateWitness.createSerialsFromProof.
  rewrite list_lookup_fmap, Hi. eexists. split; [reflexivity|].
  cbn [GenerateWitness.storage_proof GenerateWitness.storage_key GenerateWitness.storage_root
       GenerateWitness.value GenerateWitness.item_key GenerateWitness.item_value
       GenerateWitness.item_proof].
  destruct (serialise_quantity ds Hds Hl) as [Hv1 Hv2].
  split_and!; [|apply serialise_to_hex..|exact Hv1|exact Hv2].
  rewrite proof_path_to_hex by done.
  unfold GenerateWitness.serialise. cbn [andb].
  rewrite replace_first_no_x by apply to_hex_no_x.
  apply buffer_from_hex_to_hex.
Qed.

Lemma createSerialsFromProof_fields_witness :
  ∃ r, GenerateWitness.createSerialsFromProof (GenerateWitness.str_0x ++ to_hex Example.root)
         [ {| GenerateWitness.item_key := GenerateWitness.str_0x ++ to_hex (bytes [7; 8]);
              GenerateWitness.item_value := GenerateWitness.str_0x ++ bytes [49; 102; 52];
              GenerateWitness.item_proof :=
                (λ n, GenerateWitness.str_0x ++ to_hex n) <$> [bytes [1; 2]; bytes [255]] |} ]
         !! 0%nat = Some r
     ∧ GenerateWitness.storage_root r = Example.root
     ∧ be_read (GenerateWitness.value r) = 0x1f4.
Proof.
  destruct (createSerialsFromProof_fields Example.root
              [ {| GenerateWitness.item_key := GenerateWitness.str_0x ++ to_hex (bytes [7; 8]);
                   GenerateWitness.item_value := GenerateWitness.str_0x ++ bytes [49; 102; 52];
                   GenerateWitness.item_proof :=
                     (λ n, GenerateWitness.str_0x ++ to_hex n) <$> [bytes [1; 2]; bytes [255]] |} ]
              0%nat (bytes [7; 8]) (bytes [49; 102; 52]) [bytes [1; 2]; bytes [255]])
    as (r & Hr & _ & _ & Hroot & _ & Hv).
  - reflexivity.
  - repeat constructor; by eexists.
  - simpl. lia.
  - repeat constructor; vm_compute; lia.
  - exists r. split_and!; [exact Hr|exact Hroot|exact Hv].
Defined.

(** ** The tests of utils.nr

    The embedding gives the results the repository's own tests of [memcpy],
    [assert_subarray] and [byte_value] expect, the failing test included. *)
Lemma utils_tests :
  Utils.memcpy (bytes [0; 0; 0]) (bytes [1; 2; 3; 4; 5]) 2 = Some (bytes [3; 4; 5])
  ∧ Utils.assert_subarray (bytes [2; 3]) (bytes [1; 2; 3]) 2 1 = Some ()
  ∧ Utils.assert_subarray (bytes [1; 2; 3]) (bytes [1; 2; 4]) 2 1 = None
  ∧ Utils.byte_value (bytes [0; 0; 0; 1; 2; 3]) = Some (bytes [1; 2; 3; 0; 0; 0], 3)
  ∧ Utils.byte_value (bytes (N.of_nat <$> seq 1 29) ++ replicate 3 x00)
    = Some (bytes (N.of_nat <$> seq 1 29) ++ replicate 3 x00, 32)
  ∧ Utils.byte_value (replicate 10 x00 ++ bytes (N.of_nat <$> seq 11 10) ++ replicate 12 x00)
    = Some (bytes (N.of_nat <$> seq 11 10) ++ replicate 22 x00, 22).
Proof. split_and!; vm_compute; reflexivity. Qed.
